(** * Cody: the auto-edit diff engine and the Deep Cody reviewer loop

    Shallow embedding of
      - vscode/src/autoedits/renderer/diff-utils.ts   (modules [DiffUtils]
        and [DiffQueries])
      - the class DeepCodyAgent of vscode/src/chat/agentic, with its
        RawTextProcessor                              (module [DeepCody])
      - getAgent of vscode/src/chat/chat-view/handlers/registry.ts
                                                      (module [Registry])
    and the properties of their specification.

    JavaScript strings are sequences of code units; they are modelled as
    [list ascii] (type [str]), so that [length], [slice] and indexing are the
    list operations.  Array indices and line numbers are [nat]; the result of
    a comparator is a [Z], as in the source. *)

From Stdlib Require Import Ascii String.
From Stdlib Require Import List Arith ZArith Lia Bool.
From Stdlib Require Import Permutation Sorted.
Import ListNotations.

Set Implicit Arguments.

(** ** JavaScript strings *)

Module JsString.

Definition str := list ascii.

(** A literal. *)
Definition lit (s : string) : str := list_ascii_of_string s.
Arguments lit s%_string.

(** Line feed and carriage return. *)
Definition LF : ascii := "010"%char.
Definition CR : ascii := "013"%char.

Definition str_eqb (a b : str) : bool :=
  if list_eq_dec ascii_dec a b then true else false.

(** [\s] of a JavaScript regular expression, on the code units below 256:
    TAB, LF, VT, FF, CR, space and NBSP. *)
Definition isWhitespace (c : ascii) : bool :=
  let n := nat_of_ascii c in
  ((9 <=? n) && (n <=? 13)) || (n =? 32) || (n =? 160).

(** [\w]: letters, digits and the underscore. *)
Definition isWordChar (c : ascii) : bool :=
  let n := nat_of_ascii c in
  ((48 <=? n) && (n <=? 57)) || ((65 <=? n) && (n <=? 90))
  || ((97 <=? n) && (n <=? 122)) || (n =? 95).

(** The line terminators, which [.] does not match without the [s] flag:
    LF and CR (U+2028 and U+2029 are outside the modelled code units). *)
Definition isLineTerminator (c : ascii) : bool :=
  let n := nat_of_ascii c in (n =? 10) || (n =? 13).

(** [s.startsWith(p)] *)
Fixpoint startsWith (p s : str) : bool :=
  match p, s with
  | [], _ => true
  | _ :: _, [] => false
  | a :: p', b :: s' => Ascii.eqb a b && startsWith p' s'
  end.

(** [s.endsWith(p)] *)
Definition endsWith (p s : str) : bool := startsWith (rev p) (rev s).

(** [l.slice(a, b)] for indices within [0, +oo). *)
Definition slice {A} (a b : nat) (l : list A) : list A :=
  firstn (b - a) (skipn a l).

(** [parts.join(sep)] *)
Fixpoint join (sep : str) (parts : list str) : str :=
  match parts with
  | [] => []
  | [p] => p
  | p :: rest => p ++ sep ++ join sep rest
  end.

(** [s.split(sep)] for a non-empty separator: scan left to right; [skip]
    counts the code units of a separator occurrence still to be passed over,
    [cur] is the piece being read. *)
Fixpoint split_go (sep : str) (skip : nat) (cur : str) (s : str) : list str :=
  match s with
  | [] => [cur]
  | c :: s' =>
      match skip with
      | S k => split_go sep k cur s'
      | O =>
          if startsWith sep s
          then cur :: split_go sep (length sep - 1) [] s'
          else split_go sep 0 (cur ++ [c]) s'
      end
  end.

(** [s.split(sep)]: with the empty separator the string is cut into its code
    units (and the empty string into no piece at all). *)
Definition split (sep : str) (s : str) : list str :=
  match sep with
  | [] => map (fun c => [c]) s
  | _ :: _ => split_go sep 0 [] s
  end.

End JsString.

Import JsString.

(** ** diff-utils.ts: the data model *)

Module DiffUtils.

(** [vscode.Position] and [vscode.Range] (line, character). *)
Record Position := { line : nat; character : nat }.
Record Range := { start : Position; end_ : Position }.

Definition mkRange (l1 c1 l2 c2 : nat) : Range :=
  {| start := {| line := l1; character := c1 |};
     end_ := {| line := l2; character := c2 |} |}.

(** [LineChange['type']] *)
Inductive ChangeType := unchanged | insert | delete.

Definition ChangeType_eqb (a b : ChangeType) : bool :=
  match a, b with
  | unchanged, unchanged | insert, insert | delete, delete => true
  | _, _ => false
  end.

(** [LineChange]; the random [id] of every record (uuid.v4) is left out. *)
Record LineChange := {
  type : ChangeType;
  text : str;
  originalRange : Range;
  modifiedRange : Range
}.

Record UnchangedLineInfo := {
  u_originalLineNumber : nat;
  u_modifiedLineNumber : nat;
  u_text : str
}.

Record AddedLineInfo := {
  a_modifiedLineNumber : nat;
  a_text : str
}.

Record RemovedLineInfo := {
  r_originalLineNumber : nat;
  r_text : str
}.

Record ModifiedLineInfo := {
  m_originalLineNumber : nat;
  m_modifiedLineNumber : nat;
  oldText : str;
  newText : str;
  changes : list LineChange
}.

(** [DecorationLineInfo]: the union tagged by [type]. *)
Inductive DecorationLineInfo :=
| Unchanged (l : UnchangedLineInfo)
| Added (l : AddedLineInfo)
| Removed (l : RemovedLineInfo)
| Modified (l : ModifiedLineInfo).

Record DecorationInfo := {
  modifiedLines : list ModifiedLineInfo;
  removedLines : list RemovedLineInfo;
  addedLines : list AddedLineInfo;
  unchangedLines : list UnchangedLineInfo
}.

(** A hunk of [diff]: [originalStart, originalEnd, modifiedStart, modifiedEnd]. *)
Definition Hunk := (nat * nat * nat * nat)%type.

(** A chunk tokenizer: [line.match(chunkRegex) || []] for a global regex. *)
Definition ChunkRegex := str -> list str.

(** [CHARACTER_REGEX = /./g]: one chunk per code unit that is not a line
    terminator. *)
Definition CHARACTER_REGEX : ChunkRegex :=
  fun line => map (fun c => [c]) (filter (fun c => negb (isLineTerminator c)) line).

(** [WORDS_AND_PUNCTUATION_REGEX = /(\w+|\s+|\W)/g]: a maximal run of word
    characters, a maximal run of whitespace, or one other character.  A chunk
    that starts with a word (whitespace) character consists of such
    characters only, so the run that starts at [c] extends the chunk that
    follows exactly when that chunk starts with a character of the same
    class. *)
Fixpoint WORDS_AND_PUNCTUATION_REGEX (line : str) : list str :=
  match line with
  | [] => []
  | c :: rest =>
      match WORDS_AND_PUNCTUATION_REGEX rest with
      | (d :: w) :: chunks =>
          if (isWordChar c && isWordChar d) || (isWhitespace c && isWhitespace d)
          then (c :: d :: w) :: chunks
          else [c] :: (d :: w) :: chunks
      | chunks => [c] :: chunks
      end
  end.

(** [splitLineIntoChunks] *)
Definition splitLineIntoChunks (line : str) (chunkRegex : ChunkRegex) : list str :=
  chunkRegex line.

(** ** groupLineChanges and isSimpleLineDiff *)

(** The loop of [groupLineChanges]: [currentGroup] is the last element of
    [groupedChanges] when there is one. *)
Definition groupStep (groupedChanges : list LineChange) (change : LineChange)
  : list LineChange :=
  match rev groupedChanges with
  | currentGroup :: before =>
      if ChangeType_eqb (type currentGroup) (type change)
      then rev before ++
           [ {| type := type change;
                text := text currentGroup ++ text change;
                originalRange :=
                  {| start := start (originalRange currentGroup);
                     end_ := end_ (originalRange change) |};
                modifiedRange :=
                  {| start := start (modifiedRange currentGroup);
                     end_ := end_ (modifiedRange change) |} |} ]
      else groupedChanges ++ [change]
  | [] => groupedChanges ++ [change]
  end.

Definition groupLineChanges (changes : list LineChange) : list LineChange :=
  fold_left groupStep changes [].

(** [lastChange] of [isSimpleLineDiff]. *)
Record LastChange := { lc_type : option ChangeType; isReplacement : bool }.

(** The loop of [isSimpleLineDiff] over the grouped changes that remain;
    [isLastChange] is [i === groupedChanges.length - 1]. *)
Fixpoint isSimpleLoop (lastChange : LastChange) (groupedChanges : list LineChange)
  : bool :=
  match groupedChanges with
  | [] => true
  | incomingChange :: rest =>
      match lc_type lastChange with
      | None =>
          isSimpleLoop {| lc_type := Some (type incomingChange);
                          isReplacement := false |} rest
      | Some lastType =>
          let incomingModification :=
            negb (ChangeType_eqb (type incomingChange) unchanged) in
          if isReplacement lastChange && incomingModification then false
          else if ChangeType_eqb (type incomingChange) unchanged then
            let isSuitableSeparator := existsb isWhitespace (text incomingChange) in
            let isLastChange := match rest with [] => true | _ => false end in
            if negb isSuitableSeparator && negb isLastChange then false
            else isSimpleLoop {| lc_type := Some (type incomingChange);
                                 isReplacement := false |} rest
          else
            isSimpleLoop
              {| lc_type := Some (type incomingChange);
                 isReplacement := negb (ChangeType_eqb lastType unchanged) |} rest
      end
  end.

Definition isSimpleLineDiff (changes : list LineChange) : bool :=
  if length changes <=? 1 then true
  else isSimpleLoop {| lc_type := None; isReplacement := false |}
                    (groupLineChanges changes).

(** ** computeLineChanges *)

Section Engine.

(** [diff] of the package fast-myers-diff, which the repository imports: the
    edit script between two arrays as a list of hunks. *)
Variable diff : list str -> list str -> list Hunk.

(** The mutable locals of [computeLineChanges] that outlive a loop body:
    [changes], [originalOffset] and [modifiedOffset]. *)
Record LineState := {
  ls_changes : list LineChange;
  originalOffset : nat;
  modifiedOffset : nat
}.

Section LineChanges.

Variables originalLineNumber modifiedLineNumber : nat.

(** One unchanged change record of [len] code units at the current offsets. *)
Definition unchangedAt (st : LineState) (unchangedText : str) (len : nat)
  : LineChange :=
  {| type := unchanged;
     text := unchangedText;
     originalRange := mkRange originalLineNumber (originalOffset st)
                              originalLineNumber (originalOffset st + len);
     modifiedRange := mkRange modifiedLineNumber (modifiedOffset st)
                              modifiedLineNumber (modifiedOffset st + len) |}.

(** The body of the loop of [pushUnchangedUntil] for the chunk
    [oldChunks[oldIndex]]: an empty (or missing) chunk is skipped, and the
    text is appended to the previous change when that one is unchanged. *)
Definition pushUnchangedChunk (st : LineState) (unchangedText : str) : LineState :=
  match unchangedText with
  | [] => st
  | _ :: _ =>
      let len := length unchangedText in
      let merged :=
        match rev (ls_changes st) with
        | previousChange :: before =>
            match type previousChange with
            | unchanged =>
                Some (rev before ++
                  [ {| type := unchanged;
                       text := text previousChange ++ unchangedText;
                       originalRange :=
                         mkRange (line (start (originalRange previousChange)))
                                 (character (start (originalRange previousChange)))
                                 originalLineNumber (originalOffset st + len);
                       modifiedRange :=
                         mkRange (line (start (modifiedRange previousChange)))
                                 (character (start (modifiedRange previousChange)))
                                 modifiedLineNumber (modifiedOffset st + len) |} ])
            | _ => None
            end
        | [] => None
        end in
      {| ls_changes :=
           match merged with
           | Some cs => cs
           | None => ls_changes st ++ [unchangedAt st unchangedText len]
           end;
         originalOffset := originalOffset st + len;
         modifiedOffset := modifiedOffset st + len |}
  end.

(** The chunks visited by [while (oldIndex < targetOldIndex && newIndex <
    targetNewIndex)]: the loop runs [min (targetOldIndex - oldIndex)
    (targetNewIndex - newIndex)] times and reads [oldChunks[oldIndex + k]]
    (undefined, hence skipped, outside the array). *)
Definition chunksUntil (oldChunks : list str)
  (oldIndex newIndex targetOldIndex targetNewIndex : nat) : list str :=
  map (fun k => nth (oldIndex + k) oldChunks [])
      (seq 0 (Nat.min (targetOldIndex - oldIndex) (targetNewIndex - newIndex))).

(** [pushUnchangedUntil(targetOldIndex, targetNewIndex)] *)
Definition pushUnchangedUntil (oldChunks : list str) (st : LineState)
  (oldIndex newIndex targetOldIndex targetNewIndex : nat) : LineState :=
  fold_left pushUnchangedChunk
    (chunksUntil oldChunks oldIndex newIndex targetOldIndex targetNewIndex) st.

(** The length of the common whitespace prefix of the deleted and the
    inserted text. *)
Fixpoint commonWhitespacePrefix (deletionText insertionText : str) : nat :=
  match deletionText, insertionText with
  | d :: ds, i :: is_ =>
      if Ascii.eqb d i && isWhitespace d
      then S (commonWhitespacePrefix ds is_) else 0
  | _, _ => 0
  end.

(** The length of the common whitespace suffix that does not overlap the
    prefix: the loop compares [deletionText[length - 1 - k]] with
    [insertionText[length - 1 - k]] for [k] below both lengths minus
    [prefixLength]. *)
Definition commonWhitespaceSuffix (prefixLength : nat)
  (deletionText insertionText : str) : nat :=
  commonWhitespacePrefix (rev (skipn prefixLength deletionText))
                         (rev (skipn prefixLength insertionText)).

(** The changes of a hunk whose deleted or inserted text is not empty: the
    common whitespace prefix, the deleted core, the inserted core and the
    common whitespace suffix, each pushed unless it is empty. *)
Definition pushChangedText (st : LineState) (deletionText insertionText : str)
  : LineState :=
  let prefixLength := commonWhitespacePrefix deletionText insertionText in
  let suffixLength :=
    commonWhitespaceSuffix prefixLength deletionText insertionText in
  (* unchanged prefix *)
  let st1 :=
    if 0 <? prefixLength then
      {| ls_changes := ls_changes st ++
           [unchangedAt st (slice 0 prefixLength deletionText) prefixLength];
         originalOffset := originalOffset st + prefixLength;
         modifiedOffset := modifiedOffset st + prefixLength |}
    else st in
  (* deletion core *)
  let deletionCore :=
    slice prefixLength (length deletionText - suffixLength) deletionText in
  let st2 :=
    match deletionCore with
    | [] => st1
    | _ :: _ =>
        {| ls_changes := ls_changes st1 ++
             [ {| type := delete;
                  text := deletionCore;
                  originalRange :=
                    mkRange originalLineNumber (originalOffset st1)
                            originalLineNumber
                            (originalOffset st1 + length deletionCore);
                  modifiedRange :=
                    mkRange modifiedLineNumber (modifiedOffset st1)
                            modifiedLineNumber (modifiedOffset st1) |} ];
           originalOffset := originalOffset st1 + length deletionCore;
           modifiedOffset := modifiedOffset st1 |}
    end in
  (* insertion core *)
  let insertionCore :=
    slice prefixLength (length insertionText - suffixLength) insertionText in
  let st3 :=
    match insertionCore with
    | [] => st2
    | _ :: _ =>
        {| ls_changes := ls_changes st2 ++
             [ {| type := insert;
                  text := insertionCore;
                  originalRange :=
                    mkRange originalLineNumber (originalOffset st2)
                            originalLineNumber (originalOffset st2);
                  modifiedRange :=
                    mkRange modifiedLineNumber (modifiedOffset st2)
                            modifiedLineNumber
                            (modifiedOffset st2 + length insertionCore) |} ];
           originalOffset := originalOffset st2;
           modifiedOffset := modifiedOffset st2 + length insertionCore |}
    end in
  (* unchanged suffix *)
  if 0 <? suffixLength then
    {| ls_changes := ls_changes st3 ++
         [unchangedAt st3
            (skipn (length deletionText - suffixLength) deletionText)
            suffixLength];
       originalOffset := originalOffset st3 + suffixLength;
       modifiedOffset := modifiedOffset st3 + suffixLength |}
  else st3.

(** The body of the loop over the hunks, after [pushUnchangedUntil]: nothing
    is pushed when the deleted and the inserted text are both empty. *)
Definition pushHunk (st : LineState) (deletionText insertionText : str)
  : LineState :=
  match deletionText, insertionText with
  | [], [] => st
  | _, _ => pushChangedText st deletionText insertionText
  end.

(** The body of the final loop: as [pushUnchangedChunk], but the change is
    always pushed, never merged. *)
Definition pushRemainingChunk (st : LineState) (unchangedText : str) : LineState :=
  match unchangedText with
  | [] => st
  | _ :: _ =>
      let len := length unchangedText in
      {| ls_changes := ls_changes st ++ [unchangedAt st unchangedText len];
         originalOffset := originalOffset st + len;
         modifiedOffset := modifiedOffset st + len |}
  end.

(** The loop over [chunkDiffs], with [oldIndex] and [newIndex], followed by
    the loop over the chunks that remain. *)
Fixpoint lineChangesLoop (oldChunks newChunks : list str) (chunkDiffs : list Hunk)
  (st : LineState) (oldIndex newIndex : nat) : LineState :=
  match chunkDiffs with
  | [] =>
      fold_left pushRemainingChunk
        (chunksUntil oldChunks oldIndex newIndex
                     (length oldChunks) (length newChunks)) st
  | (oldStart, oldEnd, newStart, newEnd) :: rest =>
      let st1 := pushUnchangedUntil oldChunks st oldIndex newIndex oldStart newStart in
      let deletionText := concat (slice oldStart oldEnd oldChunks) in
      let insertionText := concat (slice newStart newEnd newChunks) in
      lineChangesLoop oldChunks newChunks rest
        (pushHunk st1 deletionText insertionText) oldEnd newEnd
  end.

Definition computeLineChanges (oldChunks newChunks : list str) : list LineChange :=
  ls_changes
    (lineChangesLoop oldChunks newChunks (diff oldChunks newChunks)
       {| ls_changes := []; originalOffset := 0; modifiedOffset := 0 |} 0 0).

End LineChanges.

(** The parameter object of [getModifiedLineChanges] and
    [createModifiedLineInfo]. *)
Record LineParams := {
  originalLineNumber : nat;
  modifiedLineNumber : nat;
  originalText : str;
  modifiedText : str;
  chunkRegex : ChunkRegex
}.

Definition getModifiedLineChanges (p : LineParams) : list LineChange :=
  let oldChunks := splitLineIntoChunks (originalText p) (chunkRegex p) in
  let newChunks := splitLineIntoChunks (modifiedText p) (chunkRegex p) in
  computeLineChanges (originalLineNumber p) (modifiedLineNumber p)
                     oldChunks newChunks.

(** [{ ...params, chunkRegex: CHARACTER_REGEX }] *)
Definition withCharacterRegex (p : LineParams) : LineParams :=
  {| originalLineNumber := originalLineNumber p;
     modifiedLineNumber := modifiedLineNumber p;
     originalText := originalText p;
     modifiedText := modifiedText p;
     chunkRegex := CHARACTER_REGEX |}.

Definition createModifiedLineInfo (params : LineParams) : ModifiedLineInfo :=
  let changes0 := getModifiedLineChanges (withCharacterRegex params) in
  let changes1 :=
    if negb (isSimpleLineDiff changes0)
    then getModifiedLineChanges params
    else changes0 in
  {| m_originalLineNumber := originalLineNumber params;
     m_modifiedLineNumber := modifiedLineNumber params;
     oldText := originalText params;
     newText := modifiedText params;
     changes := changes1 |}.

(** ** computeDiffOperations and getDecorationInfo *)

(** [getNewLineChar] of completions/text-processing, which is not among the
    sources: the newline sequence the lines of a text are split at. *)
Variable getNewLineChar : str -> str.

Section DiffOperations.

(** [regex] is the argument [chunkRegex]. *)
Variables (originalLines modifiedLines : list str) (regex : ChunkRegex).

Definition unchangedLineAt (originalIndex modifiedIndex : nat) : DecorationLineInfo :=
  Unchanged {| u_originalLineNumber := originalIndex;
               u_modifiedLineNumber := modifiedIndex;
               u_text := nth modifiedIndex modifiedLines [] |}.

(** [while (originalIndex < originalTarget && modifiedIndex < modifiedTarget)]:
    both indices advance together, [min (originalTarget - originalIndex)
    (modifiedTarget - modifiedIndex)] times. *)
Definition unchangedUntil
  (originalIndex modifiedIndex originalTarget modifiedTarget : nat)
  : list DecorationLineInfo :=
  map (fun k => unchangedLineAt (originalIndex + k) (modifiedIndex + k))
      (seq 0 (Nat.min (originalTarget - originalIndex)
                      (modifiedTarget - modifiedIndex))).

(** The lines of one diff chunk: the first [min numDeletions numInsertions]
    lines are paired, the deletions that remain are removed lines and the
    insertions that remain are added lines. *)
Definition hunkLineInfos (h : Hunk) : list DecorationLineInfo :=
  let '(originalStart, originalEnd, modifiedStart, modifiedEnd) := h in
  let numDeletions := originalEnd - originalStart in
  let numInsertions := modifiedEnd - modifiedStart in
  let paired := Nat.min numDeletions numInsertions in
  map (fun i =>
         let originalLine := nth (originalStart + i) originalLines [] in
         let modifiedLine := nth (modifiedStart + i) modifiedLines [] in
         if negb (str_eqb originalLine modifiedLine)
         then Modified (createModifiedLineInfo
                {| originalLineNumber := originalStart + i;
                   modifiedLineNumber := modifiedStart + i;
                   originalText := originalLine;
                   modifiedText := modifiedLine;
                   chunkRegex := regex |})
         else Unchanged {| u_originalLineNumber := originalStart + i;
                           u_modifiedLineNumber := modifiedStart + i;
                           u_text := modifiedLine |})
      (seq 0 paired)
  ++ map (fun j => Removed {| r_originalLineNumber := originalStart + j;
                              r_text := nth (originalStart + j) originalLines [] |})
         (seq paired (numDeletions - paired))
  ++ map (fun j => Added {| a_modifiedLineNumber := modifiedStart + j;
                            a_text := nth (modifiedStart + j) modifiedLines [] |})
         (seq paired (numInsertions - paired)).

(** The loop over the diff chunks, with [originalIndex] and [modifiedIndex],
    followed by the loop over the unchanged lines that remain. *)
Fixpoint diffOperationsLoop (diffs : list Hunk) (originalIndex modifiedIndex : nat)
  : list DecorationLineInfo :=
  match diffs with
  | [] =>
      unchangedUntil originalIndex modifiedIndex
                     (length originalLines) (length modifiedLines)
  | (originalStart, originalEnd, modifiedStart, modifiedEnd) :: rest =>
      unchangedUntil originalIndex modifiedIndex originalStart modifiedStart
      ++ hunkLineInfos (originalStart, originalEnd, modifiedStart, modifiedEnd)
      ++ diffOperationsLoop rest originalEnd modifiedEnd
  end.

Definition computeDiffOperations : list DecorationLineInfo :=
  diffOperationsLoop (diff originalLines modifiedLines) 0 0.

End DiffOperations.

(** The [switch] of [getDecorationInfo]: every line info is pushed on the
    list of its type. *)
Definition pushLineInfo (lineInfo : DecorationLineInfo) (d : DecorationInfo)
  : DecorationInfo :=
  match lineInfo with
  | Unchanged l =>
      {| modifiedLines := modifiedLines d; removedLines := removedLines d;
         addedLines := addedLines d; unchangedLines := l :: unchangedLines d |}
  | Added l =>
      {| modifiedLines := modifiedLines d; removedLines := removedLines d;
         addedLines := l :: addedLines d; unchangedLines := unchangedLines d |}
  | Removed l =>
      {| modifiedLines := modifiedLines d; removedLines := l :: removedLines d;
         addedLines := addedLines d; unchangedLines := unchangedLines d |}
  | Modified l =>
      {| modifiedLines := l :: modifiedLines d; removedLines := removedLines d;
         addedLines := addedLines d; unchangedLines := unchangedLines d |}
  end.

Definition emptyDecorationInfo : DecorationInfo :=
  {| modifiedLines := []; removedLines := []; addedLines := [];
     unchangedLines := [] |}.

(** Pushing in the order of [lineInfos] is folding from the right with
    [cons]. *)
Definition collectLineInfos (lineInfos : list DecorationLineInfo) : DecorationInfo :=
  fold_right pushLineInfo emptyDecorationInfo lineInfos.

Definition getDecorationInfo (originalText modifiedText : str)
  (chunkRegex : ChunkRegex) : DecorationInfo :=
  let originalLines := split (getNewLineChar originalText) originalText in
  let modifiedLines := split (getNewLineChar modifiedText) modifiedText in
  collectLineInfos (computeDiffOperations originalLines modifiedLines chunkRegex).

End Engine.

(** ** sortDiff *)

(** [Array.prototype.sort(compare)], which is stable: insertion from the
    right, an element going before the first element it does not compare
    greater than. *)
Fixpoint sortInsert {A} (compare : A -> A -> Z) (x : A) (l : list A) : list A :=
  match l with
  | [] => [x]
  | y :: l' =>
      if (compare x y <=? 0)%Z then x :: y :: l'
      else y :: sortInsert compare x l'
  end.

Definition sort {A} (compare : A -> A -> Z) (l : list A) : list A :=
  fold_right (sortInsert compare) [] l.

(** [a.type === 'removed' ? a.originalLineNumber : a.modifiedLineNumber] *)
Definition sortLine (a : DecorationLineInfo) : nat :=
  match a with
  | Removed l => r_originalLineNumber l
  | Unchanged l => u_modifiedLineNumber l
  | Added l => a_modifiedLineNumber l
  | Modified l => m_modifiedLineNumber l
  end.

(** The table [typeOrder] of [sortDiff]. *)
Definition typeOrder (a : DecorationLineInfo) : Z :=
  match a with
  | Removed _ => 0
  | Added _ => 1
  | Modified _ => 2
  | Unchanged _ => 3
  end.

Definition compareLines (a b : DecorationLineInfo) : Z :=
  let aLine := sortLine a in
  let bLine := sortLine b in
  if aLine =? bLine then (typeOrder a - typeOrder b)%Z
  else (Z.of_nat aLine - Z.of_nat bLine)%Z.

Definition sortDiff (diff : DecorationInfo) : list DecorationLineInfo :=
  sort compareLines
    (map Added (addedLines diff) ++ map Modified (modifiedLines diff)
     ++ map Unchanged (unchangedLines diff) ++ map Removed (removedLines diff)).

End DiffUtils.

(** ** The collaborators of the diff engine *)

Module DiffModel.

Import DiffUtils.

(** The [n] elements of [a] from the index [i] on are the [n] elements of
    [b] from the index [j] on. *)
Definition agree (a b : list str) (i j n : nat) : bool :=
  forallb (fun k => str_eqb (nth (i + k) a []) (nth (j + k) b [])) (seq 0 n).

(** What [computeDiffOperations] and [computeLineChanges] rely on in the
    hunks of an edit script between [a] and [b], read from the indices
    [(i, j)] on: every hunk starts after the same number of elements in both
    arrays, lies within them, and the elements skipped before it agree; after
    the last hunk the same number of elements remains in both arrays, and
    they agree. *)
Fixpoint validScriptFrom (a b : list str) (hunks : list Hunk) (i j : nat) : bool :=
  match hunks with
  | [] =>
      (i <=? length a) && (j <=? length b)
      && (length a - i =? length b - j)
      && agree a b i j (length a - i)
  | (s1, e1, s2, e2) :: rest =>
      (i <=? s1) && (j <=? s2) && (s1 - i =? s2 - j)
      && (s1 <=? e1) && (s2 <=? e2)
      && (e1 <=? length a) && (e2 <=? length b)
      && agree a b i j (s1 - i)
      && validScriptFrom a b rest e1 e2
  end.

Definition validScript (a b : list str) (hunks : list Hunk) : bool :=
  validScriptFrom a b hunks 0 0.

(** The steps of an edit script. *)
Inductive EditOp := Keep | Del | Ins.

Definition editCost (ops : list EditOp) : nat :=
  length (filter (fun o => match o with Keep => false | _ => true end) ops).

(** Modelled from the spec: the [diff] of fast-myers-diff is not among the
    sources; the spec has it compute "a minimal edit script over the two
    line sequences (an LCS-style diff ...)".  A shortest edit script by
    recursion on both arrays: equal heads are kept, otherwise the cheaper of
    deleting and inserting is taken. *)
Fixpoint lcsScript (a : list str) : list str -> list EditOp :=
  fix inner (b : list str) : list EditOp :=
    match a, b with
    | [], _ => map (fun _ => Ins) b
    | _, [] => map (fun _ => Del) a
    | x :: a', y :: b' =>
        if str_eqb x y then Keep :: lcsScript a' b'
        else
          let d := Del :: lcsScript a' b in
          let i := Ins :: inner b' in
          if editCost d <=? editCost i then d else i
    end.

(** [ops] is an edit script from [a] to [b]. *)
Inductive editScript : list EditOp -> list str -> list str -> Prop :=
| script_done : editScript [] [] []
| script_keep x ops a b :
    editScript ops a b -> editScript (Keep :: ops) (x :: a) (x :: b)
| script_del x ops a b :
    editScript ops a b -> editScript (Del :: ops) (x :: a) b
| script_ins y ops a b :
    editScript ops a b -> editScript (Ins :: ops) a (y :: b).

(** The hunks of an edit script: maximal runs of deletions and insertions,
    as ranges of both arrays.  [open] is the hunk being read, if any. *)
Fixpoint hunksOf (ops : list EditOp) (i j : nat) (open : option Hunk) : list Hunk :=
  match ops with
  | [] => match open with Some h => [h] | None => [] end
  | Keep :: ops' =>
      match open with
      | Some h => h :: hunksOf ops' (S i) (S j) None
      | None => hunksOf ops' (S i) (S j) None
      end
  | Del :: ops' =>
      match open with
      | Some (s1, _, s2, e2) => hunksOf ops' (S i) j (Some (s1, S i, s2, e2))
      | None => hunksOf ops' (S i) j (Some (i, S i, j, j))
      end
  | Ins :: ops' =>
      match open with
      | Some (s1, e1, s2, _) => hunksOf ops' i (S j) (Some (s1, e1, s2, S j))
      | None => hunksOf ops' i (S j) (Some (i, i, j, S j))
      end
  end.

Definition lcsDiff (a b : list str) : list Hunk :=
  hunksOf (lcsScript a b) 0 0 None.

(** Modelled from the spec: [getNewLineChar] is not among the sources; the
    spec has the texts split "using the dominant newline style detected in
    the text", falling back to a line feed.  The style detected is that of
    the first line break of the text. *)
Fixpoint firstNewLine (s : str) : str :=
  match s with
  | [] => [LF]
  | c :: s' =>
      if startsWith [CR; LF] s then [CR; LF]
      else if startsWith [LF] s then [LF]
      else firstNewLine s'
  end.

(** ** The two projections of a decoration

    The lines of one side of a diff, each with its line number on that side:
    the original side has the unchanged and the removed lines and the old
    text of the modified lines, the modified side has the unchanged and the
    added lines and the new text of the modified lines. *)
Definition originalEntries (d : DecorationInfo) : list (nat * str) :=
  map (fun l => (u_originalLineNumber l, u_text l)) (unchangedLines d)
  ++ map (fun l => (r_originalLineNumber l, r_text l)) (removedLines d)
  ++ map (fun l => (m_originalLineNumber l, oldText l)) (modifiedLines d).

Definition modifiedEntries (d : DecorationInfo) : list (nat * str) :=
  map (fun l => (u_modifiedLineNumber l, u_text l)) (unchangedLines d)
  ++ map (fun l => (a_modifiedLineNumber l, a_text l)) (addedLines d)
  ++ map (fun l => (m_modifiedLineNumber l, newText l)) (modifiedLines d).

Definition compareEntries (x y : nat * str) : Z :=
  (Z.of_nat (fst x) - Z.of_nat (fst y))%Z.

(** The entries in line order, joined with the newline sequence. *)
Definition reconstruct (newLine : str) (entries : list (nat * str)) : str :=
  join newLine (map snd (sort compareEntries entries)).

Definition originalProjection (newLine : str) (d : DecorationInfo) : str :=
  reconstruct newLine (originalEntries d).

Definition modifiedProjection (newLine : str) (d : DecorationInfo) : str :=
  reconstruct newLine (modifiedEntries d).

(** The texts of the changes of the given types, in sequence order. *)
Definition changesText (keep : ChangeType -> bool) (changes : list LineChange) : str :=
  concat (map text (filter (fun c => keep (type c)) changes)).

Definition isModifiedSide (t : ChangeType) : bool :=
  match t with unchanged | insert => true | delete => false end.

Definition isOriginalSide (t : ChangeType) : bool :=
  match t with unchanged | delete => true | insert => false end.

(** ** The order of sortDiff *)

(** The line infos [sortDiff] sorts. *)
Definition lineInfosOf (d : DecorationInfo) : list DecorationLineInfo :=
  map Added (addedLines d) ++ map Modified (modifiedLines d)
  ++ map Unchanged (unchangedLines d) ++ map Removed (removedLines d).

(** The priority the specification gives to line infos that share a line
    number: added, then modified, then unchanged, then removed. *)
Definition specPriority (a : DecorationLineInfo) : Z :=
  match a with
  | Added _ => 0
  | Modified _ => 1
  | Unchanged _ => 2
  | Removed _ => 3
  end.

(** [x] may come before [y]: by line number, and by [priority] on the same
    line. *)
Definition orderedBy (priority : DecorationLineInfo -> Z)
  (x y : DecorationLineInfo) : Prop :=
  sortLine x < sortLine y
  \/ (sortLine x = sortLine y /\ (priority x <= priority y)%Z).

(** A removed and an added line with the line number 0. *)
Definition removedAndAdded : DecorationInfo :=
  {| modifiedLines := [];
     removedLines := [ {| r_originalLineNumber := 0; r_text := lit "old" |} ];
     addedLines := [ {| a_modifiedLineNumber := 0; a_text := lit "new" |} ];
     unchangedLines := [] |}.

(** ** Notions used in the proofs *)

(** The order a comparator induces. *)
Definition leq {A} (compare : A -> A -> Z) (x y : A) : Prop :=
  (compare x y <= 0)%Z.

(** The strict order of a key. *)
Definition keyLt {A} (key : A -> nat) (x y : A) : Prop := key x < key y.

(** The lines [s .. s + n - 1] of [a], each with its number. *)
Definition linesFrom (a : list str) (s n : nat) : list (nat * str) :=
  map (fun k => (k, nth k a [])) (seq s n).

(** What a line info contributes to the original and to the modified side. *)
Definition originalEntry (li : DecorationLineInfo) : list (nat * str) :=
  match li with
  | Unchanged l => [(u_originalLineNumber l, u_text l)]
  | Removed l => [(r_originalLineNumber l, r_text l)]
  | Modified l => [(m_originalLineNumber l, oldText l)]
  | Added _ => []
  end.

Definition modifiedEntry (li : DecorationLineInfo) : list (nat * str) :=
  match li with
  | Unchanged l => [(u_modifiedLineNumber l, u_text l)]
  | Added l => [(a_modifiedLineNumber l, a_text l)]
  | Modified l => [(m_modifiedLineNumber l, newText l)]
  | Removed _ => []
  end.

(** ** Sample inputs *)

(** Three lines, and the same text with the second line replaced by two. *)
Definition sampleOriginal : str := lit "a" ++ [LF] ++ lit "b" ++ [LF] ++ lit "c".
Definition sampleModified : str :=
  lit "a" ++ [LF] ++ lit "x" ++ [LF] ++ lit "y" ++ [LF] ++ lit "c".

(** The line pair of the simple-diff fallback. *)
Definition sampleLinePair (regex : ChunkRegex) : LineParams :=
  {| originalLineNumber := 0; modifiedLineNumber := 0;
     originalText := lit "abcabc"; modifiedText := lit "xbcxbc";
     chunkRegex := regex |}.

(** A line pair whose lines end in a carriage return. *)
Definition carriageReturnPair : LineParams :=
  {| originalLineNumber := 0; modifiedLineNumber := 0;
     originalText := lit "foo" ++ [CR]; modifiedText := lit "bar" ++ [CR];
     chunkRegex := WORDS_AND_PUNCTUATION_REGEX |}.

End DiffModel.

(** ** The Deep Cody agent: data model and collaborators *)

Module DeepCody.

(** [enum ContextItemSource] *)
Inductive ContextItemSource :=
| User        (* explicitly @-mentioned by the user in chat *)
| Editor      (* from the current editor state and open tabs/documents *)
| Search      (* from symf search *)
| Initial     (* in initial context *)
| Priority    (* query-based context that is not added by user *)
| Unified     (* remote search *)
| Selection   (* selected code from the current editor *)
| Terminal    (* output from the terminal *)
| History     (* from source control history *)
| Agentic.    (* agentic context *)

(** The [type] of the members of the union [ContextItem]. *)
Inductive ContextItemType :=
| File | Repository | Tree | Symbol | OpenCtx | OpenLink
| CurrentSelection | CurrentFile | CurrentRepository | CurrentDirectory
| CurrentOpenTabs | Media | ToolState.

(** The fields of a [ContextItem] the agent reads or writes. *)
Record ContextItem := {
  type : ContextItemType;
  uri_scheme : str;
  uri_path : str;
  source : option ContextItemSource;
  title : option str;
  content : option str
}.

(** [{ ...item, source: ContextItemSource.Agentic }] *)
Definition withAgenticSource (item : ContextItem) : ContextItem :=
  {| type := type item; uri_scheme := uri_scheme item; uri_path := uri_path item;
     source := Some Agentic; title := title item; content := content item |}.

(** Modelled from the spec: [isUserAddedItem] of prompt-builder/utils is not
    among the sources; the spec speaks of the "items tagged source = user". *)
Definition isUserAddedItem (c : ContextItem) : bool :=
  match source c with
  | Some User => true
  | _ => false
  end.

(** A value thrown by a collaborator, as the [catch] block of a tool tells
    the cases apart: an [Error] with its message; another object with what
    [JSON.stringify] returns for it, a string or undefined; another object
    on which [JSON.stringify] throws (a [TypeError] for a circular structure
    or a BigInt, or what a [toJSON] method throws), with the value thrown;
    any other value, a primitive, with [String(error)]. *)
Inductive Thrown :=
| ThrownError (message : str)
| ThrownObject (json : option str)
| ThrownUnserializable (raised : Thrown)
| ThrownValue (asString : str).

(** The result of awaiting a promise, or of evaluating what may throw. *)
Inductive Outcome (A : Type) :=
| Resolved (value : A)
| Rejected (error : Thrown).
Arguments Resolved {A} value.
Arguments Rejected {A} error.

(** The message of [errorObject] in the [catch] block of a tool:
    [errorObject] is the value thrown when that is an [Error], and otherwise
    [new Error(errorMessage)], whose message is empty when [errorMessage] is
    undefined.  Computing it throws when [JSON.stringify] does. *)
Definition errorMessage (error : Thrown) : Outcome str :=
  match error with
  | ThrownError message => Resolved message
  | ThrownObject (Some json) => Resolved json
  | ThrownObject None => Resolved []
  | ThrownUnserializable raised => Rejected raised
  | ThrownValue s => Resolved s
  end.

(** [Promise.all]: the values when every promise is fulfilled, and otherwise
    the rejection of a promise that is rejected, here the first of the
    array. *)
Fixpoint promiseAll {A} (settled : list (Outcome A)) : Outcome (list A) :=
  match settled with
  | [] => Resolved []
  | Rejected e :: _ => Rejected e
  | Resolved value :: rest =>
      match promiseAll rest with
      | Resolved values => Resolved (value :: values)
      | Rejected e => Rejected e
      end
  end.

(** A [CodyTool]: its tag, the flag [config.metadata.isMcpTool] and what
    [run] settles to in the review of the given number.  The entries of the
    array a tool returns may be undefined. *)
Record CodyTool := {
  tag : str;
  isMcpTool : bool;
  run : nat -> Outcome (list (option ContextItem))
}.

(** The messages of the stream [chatClient.chat] returns. *)
Inductive StreamMessage :=
| change (text : str)
| complete
| error (e : Thrown).

(** The identifiers of the steps of the process manager: the main process,
    the tag of a tool and [reflect-${stats.loop}]. *)
Inductive StepId :=
| MainProcess
| ToolStep (tag : str)
| ReflectStep (loop : nat).

(** What the agent does to its collaborators, in order. *)
Inductive Event :=
| Publish (newText : str)            (* multiplexer.publish(newText) *)
| TurnComplete (tag : str)           (* onTurnComplete of the subscriber of a tag *)
| UpdateTitle (id : StepId) (title : str)     (* stepsManager.updateStep *)
| Retrieved (id : StepId) (items : nat)       (* statusCallback.onUpdate *)
| ReflectStarted (id : StepId) (items : nat)  (* statusCallback.onStream *)
| ReflectDone (id : StepId) (items : list ContextItem) (* statusCallback.onUpdate *)
| Completed (id : StepId) (error : option str)         (* statusCallback.onComplete *)
| LogDebug (message : str) (error : Thrown).  (* logDebug: the text and the value after it *)

(** The collaborators of one agent. *)
Record Env := {
  (** [CodyToolProvider.getAllTools()] *)
  tools : list CodyTool;
  (** [chatClient.chat] for the prompt made from the context at the review
      of the given number: a rejection, or the messages of the stream.  The
      prompt is the one [DefaultPrompter.makePrompt] resolves to;
      [DefaultPrompter] is not among the sources. *)
  chat : nat -> list ContextItem -> Outcome (list StreamMessage);
  (** [getContextFromRelativePath] *)
  getContextFromRelativePath : str -> Outcome (option ContextItem);
  (** [contextFiles] of [chatBuilder.getDehydratedMessages()] *)
  dehydratedContextFiles : list (option (list ContextItem));
  (** The abort signal: the number of times it reads as not aborted, if it is
      ever aborted. *)
  abortAfter : option nat;
  (** [ACTIONS_TAGS.ANSWER] and [ACTIONS_TAGS.CONTEXT] *)
  answerTag : str;
  contextTag : str
}.

(** The mutable fields of the agent, the events so far and the number of
    times the abort signal was read. *)
Record State := {
  context : list ContextItem;
  stats_context : nat;
  stats_loop : nat;
  trace : list Event;
  reads : nat
}.

(** ** RawTextProcessor *)

Module RawTextProcessor.

(** [this.parts] *)
Definition t := list str.

Definition append (parts : t) (s : str) : t := parts ++ [s].

Definition length (parts : t) : nat :=
  fold_left (fun acc part => acc + List.length part) parts 0.

(** [consumeAndClear]: the joined parts (the processor is not used again). *)
Definition consumeAndClear (parts : t) : str := concat parts.

(** The rest of a match of [(.*?)</tag>]: the shortest run of characters
    other than line terminators that is followed by the closing tag. *)
Fixpoint closeAt (closing : str) (rest inner : str) : option str :=
  if startsWith closing rest then Some inner
  else match rest with
       | [] => None
       | c :: rest' =>
           if isLineTerminator c then None
           else closeAt closing rest' (inner ++ [c])
       end.

(** A match of [<tag>(.*?)</tag>] at the start of [s]: its group. *)
Definition matchAt (tag : str) (s : str) : option str :=
  let opening := lit "<" ++ tag ++ lit ">" in
  let closing := lit "</" ++ tag ++ lit ">" in
  if startsWith opening s
  then closeAt closing (skipn (List.length opening) s) []
  else None.

(** The matches of the global regex, from left to right; [skip] counts the
    code units of the last match still to be passed over. *)
Fixpoint extractFrom (tag : str) (skip : nat) (s : str) : list str :=
  match s with
  | [] => []
  | c :: s' =>
      match skip with
      | S k => extractFrom tag k s'
      | O =>
          match matchAt tag s with
          | Some inner =>
              inner :: extractFrom tag (2 * List.length tag + List.length inner + 4) s'
          | None => extractFrom tag 0 s'
          end
      end
  end.

(** [RawTextProcessor.extract(response, tag)]: every match without the
    [tag.length + 2] code units of the opening and the [tag.length + 3] of
    the closing tag. *)
Definition extract (response tag : str) : list str := extractFrom tag 0 response.

End RawTextProcessor.

(** ** The agent *)

Section Agent.

Variable env : Env.

(** State passing. *)
Definition M (A : Type) := State -> A * State.

Definition ret {A} (a : A) : M A := fun st => (a, st).

Definition bind {A B} (m : M A) (k : A -> M B) : M B :=
  fun st => let (a, st') := m st in k a st'.

Notation "x <- m ;; k" := (bind m (fun x => k))
  (at level 61, m at next level, right associativity).
Notation "m ;;; k" := (bind m (fun _ => k))
  (at level 61, right associativity).

Definition emit (e : Event) : M unit :=
  fun st => (tt, {| context := context st; stats_context := stats_context st;
                    stats_loop := stats_loop st; trace := trace st ++ [e];
                    reads := reads st |}).

Definition emitAll (es : list Event) : M unit :=
  fun st => (tt, {| context := context st; stats_context := stats_context st;
                    stats_loop := stats_loop st; trace := trace st ++ es;
                    reads := reads st |}).

Definition getState : M State := fun st => (st, st).

Definition setContext (c : list ContextItem) : M unit :=
  fun st => (tt, {| context := c; stats_context := stats_context st;
                    stats_loop := stats_loop st; trace := trace st;
                    reads := reads st |}).

Definition addStatsContext (n : nat) : M unit :=
  fun st => (tt, {| context := context st; stats_context := stats_context st + n;
                    stats_loop := stats_loop st; trace := trace st;
                    reads := reads st |}).

Definition incrStatsLoop : M unit :=
  fun st => (tt, {| context := context st; stats_context := stats_context st;
                    stats_loop := stats_loop st + 1; trace := trace st;
                    reads := reads st |}).

(** [chatAbortSignal.aborted] *)
Definition aborted : M bool :=
  fun st =>
    (match abortAfter env with
     | Some n => n <=? reads st
     | None => false
     end,
     {| context := context st; stats_context := stats_context st;
        stats_loop := stats_loop st; trace := trace st;
        reads := reads st + 1 |}).

(** Modelled from the spec: [BotResponseMultiplexer] of cody-shared is not
    among the sources; by the spec, a turn-complete notification reaches the
    subscriber of every subscribed tag.  [initializeMultiplexer] subscribes
    the tag of every tool, a tag once. *)
Definition subscribedTags : list str :=
  nodup (list_eq_dec ascii_dec) (map tag (tools env)).

Definition notifyTurnComplete : M unit :=
  emitAll (map TurnComplete subscribedTags).

(** The loop [for await (const msg of stream)] of [processStream]. *)
Fixpoint consumeStream (stream : list StreamMessage) (accumulated : RawTextProcessor.t)
  : M (Outcome RawTextProcessor.t) :=
  match stream with
  | [] => ret (Resolved accumulated)
  | msg :: rest =>
      stop <- aborted ;;
      if stop then ret (Resolved accumulated)
      else
        match msg with
        | change text =>
            let newText := skipn (RawTextProcessor.length accumulated) text in
            emit (Publish newText) ;;;
            consumeStream rest (RawTextProcessor.append accumulated newText)
        | complete => ret (Resolved accumulated)
        | error e => ret (Rejected e)
        end
  end.

(** [processStream]: a rejection of [chat] leaves the function before the
    [try]; the [finally] block runs however the loop is left. *)
Definition processStream : M (Outcome str) :=
  st <- getState ;;
  match chat env (stats_loop st) (context st) with
  | Rejected e => ret (Rejected e)
  | Resolved stream =>
      r <- consumeStream stream [] ;;
      notifyTurnComplete ;;;
      match r with
      | Resolved accumulated =>
          ret (Resolved (RawTextProcessor.consumeAndClear accumulated))
      | Rejected e => ret (Rejected e)
      end
  end.

Definition isReadyToAnswer (text : str) : bool :=
  str_eqb text (lit "<" ++ answerTag env ++ lit ">").

(** [.filter(isDefined)] *)
Definition definedItems (items : list (option ContextItem)) : list ContextItem :=
  flat_map (fun o => match o with Some c => [c] | None => [] end) items.

(** The [catch] block of a tool: the status is recorded with the message
    of the error; when the message cannot be computed the block throws
    before it records anything. *)
Definition toolFailed (tool : CodyTool) (e : Thrown) : M (Outcome unit) :=
  match errorMessage e with
  | Resolved message =>
      emit (Completed (ToolStep (tag tool)) (Some message)) ;;;
      ret (Resolved tt)
  | Rejected raised => ret (Rejected raised)
  end.

(** The function mapped over the tools that are not MCP tools: what its
    promise settles to.  The promises run concurrently; the events are
    recorded in the order of the tools, the results are in that order in the
    source too. *)
Definition runNonMcpTool (tool : CodyTool)
  : M (Outcome (list (option ContextItem))) :=
  stop <- aborted ;;
  if stop then ret (Resolved [])
  else
    st <- getState ;;
    match run tool (stats_loop st) with
    | Resolved items => ret (Resolved items)
    | Rejected e =>
        caught <- toolFailed tool e ;;
        match caught with
        | Resolved _ => ret (Resolved [])
        | Rejected raised => ret (Rejected raised)
        end
    end.

(** [nonMcpTools.map(async tool => ...)]: every promise is started and runs
    to its end, whatever the others do; the events of the promises that are
    pending when [Promise.all] is rejected are recorded with the others,
    before those of the [catch] block of [review]. *)
Fixpoint runNonMcpTools (ts : list CodyTool)
  : M (list (Outcome (list (option ContextItem)))) :=
  match ts with
  | [] => ret []
  | tool :: rest =>
      r <- runNonMcpTool tool ;;
      rs <- runNonMcpTools rest ;;
      ret (r :: rs)
  end.

(** The loop over the MCP tools, one after the other; a [catch] block that
    throws leaves the loop. *)
Fixpoint runMcpTools (ts : list CodyTool)
  : M (Outcome (list (list (option ContextItem)))) :=
  match ts with
  | [] => ret (Resolved [])
  | tool :: rest =>
      stop <- aborted ;;
      if stop then ret (Resolved [])
      else
        st <- getState ;;
        match run tool (stats_loop st) with
        | Resolved result =>
            rs <- runMcpTools rest ;;
            match rs with
            | Resolved mcpResults => ret (Resolved (result :: mcpResults))
            | Rejected raised => ret (Rejected raised)
            end
        | Rejected e =>
            caught <- toolFailed tool e ;;
            match caught with
            | Resolved _ =>
                rs <- runMcpTools rest ;;
                match rs with
                | Resolved mcpResults => ret (Resolved ([] :: mcpResults))
                | Rejected raised => ret (Rejected raised)
                end
            | Rejected raised => ret (Rejected raised)
            end
        end
  end.

(** The items [reflect] collects for one context name and one item; a
    resolution that throws is logged and collects nothing. *)
Definition reviewItem (contextName : str) (item : ContextItem) : list ContextItem :=
  if endsWith contextName (uri_path item) then
    if str_eqb (uri_scheme item) (lit "file") then
      match getContextFromRelativePath env contextName with
      | Resolved (Some file) => [withAgenticSource file]
      | Resolved None => [withAgenticSource item]
      | Rejected _ => []
      end
    else [withAgenticSource item]
  else [].

(** The two nested loops of [reflect]. *)
Definition reviewedItems (contextNames : list str) (currentContext : list ContextItem)
  : list ContextItem :=
  flat_map (fun contextName => flat_map (reviewItem contextName) currentContext)
           contextNames.

Definition currentContextOf (ctx : list ContextItem) : list ContextItem :=
  ctx ++ flat_map (fun files => match files with
                                | Some fs => rev fs
                                | None => []
                                end) (dehydratedContextFiles env).

Definition isMedia (c : ContextItem) : bool :=
  match type c with Media => true | _ => false end.

(** [reflect] *)
Definition reflect (contextNames : list str) : M unit :=
  st <- getState ;;
  match contextNames, context st with
  | [], _ | _, [] => ret tt
  | _, _ =>
      let currentContext := currentContextOf (context st) in
      emit (UpdateTitle MainProcess (lit "Reviewing context...")) ;;;
      emit (ReflectStarted (ReflectStep (stats_loop st)) (length currentContext)) ;;;
      let reviewed := reviewedItems contextNames currentContext in
      let reviewed' :=
        match reviewed with
        | [] => reviewed
        | _ :: _ =>
            reviewed ++ filter (fun c => isUserAddedItem c || isMedia c) (context st)
        end in
      match reviewed with
      | [] => ret tt
      | _ :: _ => setContext reviewed'
      end ;;;
      emit (ReflectDone (ReflectStep (stats_loop st)) reviewed') ;;;
      emit (UpdateTitle MainProcess (lit "Context Reviewed & Optimized"))
  end.

(** What is left of the [try] block of [review] once the tools have
    run. *)
Definition collect (res : str) (newContext : list ContextItem)
  : M (list ContextItem) :=
  match newContext with
  | [] => ret tt
  | _ :: _ =>
      addStatsContext (length newContext) ;;;
      emit (Retrieved MainProcess (length newContext))
  end ;;;
  reflect (RawTextProcessor.extract res (contextTag env)) ;;;
  ret newContext.

(** The [try] block of [review] after [processStream] has resolved.  The
    [await] of [Promise.all] throws when the [catch] block of a tool that is
    not an MCP tool has thrown, and the loop over the MCP tools throws when
    the [catch] block of one of them does. *)
Definition retrieve (res : str) : M (Outcome (list ContextItem)) :=
  match res with
  | [] => ret (Resolved [])
  | _ :: _ =>
      if isReadyToAnswer res then ret (Resolved [])
      else
        emit (UpdateTitle MainProcess (lit "Retrieving context")) ;;;
        let mcpTools := filter isMcpTool (tools env) in
        let nonMcpTools := filter (fun tool => negb (isMcpTool tool)) (tools env) in
        settled <- runNonMcpTools nonMcpTools ;;
        match promiseAll settled with
        | Rejected raised => ret (Rejected raised)
        | Resolved nonMcpResults =>
            mcp <- runMcpTools mcpTools ;;
            match mcp with
            | Rejected raised => ret (Rejected raised)
            | Resolved mcpResults =>
                newContext <-
                  collect res
                    (definedItems (concat nonMcpResults ++ concat mcpResults)) ;;
                ret (Resolved newContext)
            end
        end
  end.

(** The [try] block of [review]. *)
Definition tryReview : M (Outcome (list ContextItem)) :=
  r <- processStream ;;
  match r with
  | Resolved res => retrieve res
  | Rejected e => ret (Rejected e)
  end.

(** [review]: whatever is thrown in the [try] block, by [processStream] or
    by the [catch] block of a tool, is logged after a turn-complete
    notification, and the review has no new context.  The prompt is made
    before the [try] block, by [DefaultPrompter.makePrompt], which is not
    among the sources and is taken to resolve. *)
Definition review : M (list ContextItem) :=
  r <- tryReview ;;
  match r with
  | Resolved newContext => ret newContext
  | Rejected e =>
      notifyTurnComplete ;;;
      emit (LogDebug (lit "context review failed: ") e) ;;;
      ret []
  end.

Definition isToolContext (c : ContextItem) : bool :=
  match title c with
  | Some t => str_eqb t (lit "TOOLCONTEXT")
  | None => false
  end.

(** The body of the loop of [reviewLoop]; the result tells whether the loop
    goes on ([false] for a [break]). *)
Definition reviewIteration : M bool :=
  incrStatsLoop ;;;
  newContext <- review ;;
  match newContext with
  | [] => ret false
  | _ :: _ =>
      let validItems := filter (fun c => negb (isToolContext c)) newContext in
      st <- getState ;;
      setContext (context st ++ validItems) ;;;
      addStatsContext (length validItems) ;;;
      if forallb isUserAddedItem newContext then ret false else ret true
  end.

(** [reviewLoop] with [remaining = maxLoops - i]. *)
Fixpoint reviewLoop (remaining : nat) : M unit :=
  match remaining with
  | O => ret tt
  | S remaining' =>
      stop <- aborted ;;
      if stop then ret tt
      else
        goOn <- reviewIteration ;;
        if goOn then reviewLoop remaining' else ret tt
  end.

(** [getContext] (with [_getContext]; the telemetry event is left out). *)
Definition getContext (ctx : list ContextItem) (maxLoops : nat)
  : M (list ContextItem) :=
  setContext ctx ;;;
  reviewLoop maxLoops ;;;
  emit (Completed MainProcess None) ;;;
  st <- getState ;;
  ret (context st).

End Agent.

(** ** Notions used to state the properties *)

(** The agent as constructed: nothing retrieved, no loop run. *)
Definition initialState : State :=
  {| context := []; stats_context := 0; stats_loop := 0; trace := []; reads := 0 |}.

Definition countEvents (p : Event -> bool) (es : list Event) : nat :=
  length (filter p es).

Definition isTurnCompleteOf (t : str) (e : Event) : bool :=
  match e with
  | TurnComplete t' => str_eqb t t'
  | _ => false
  end.

(** A completed-with-error status, and one for the step of a tag. *)
Definition isErrorStatus (e : Event) : bool :=
  match e with
  | Completed _ (Some _) => true
  | _ => false
  end.

Definition isErrorStatusOf (t : str) (e : Event) : bool :=
  match e with
  | Completed (ToolStep t') (Some _) => str_eqb t t'
  | _ => false
  end.

(** The number of turn-complete notifications the subscriber of [t] has
    received, and the number of completed-with-error statuses recorded. *)
Definition turnCompletes (t : str) (st : State) : nat :=
  countEvents (isTurnCompleteOf t) (trace st).

Definition errorStatuses (st : State) : nat :=
  countEvents isErrorStatus (trace st).

Definition errorStatusesOf (t : str) (st : State) : nat :=
  countEvents (isErrorStatusOf t) (trace st).

(** The stream of the review that starts in [st] raises an error: [chat]
    resolves and the loop of [processStream] meets an error message. *)
Definition streamFails (env : Env) (st : State) : bool :=
  match chat env (stats_loop st) (context st) with
  | Resolved stream =>
      match fst (consumeStream env stream [] st) with
      | Rejected _ => true
      | Resolved _ => false
      end
  | Rejected _ => false
  end.

(** The working context [reflect] leaves: the context itself unless an item
    was reviewed, and otherwise the reviewed items followed by the
    user-added and the media items of the context. *)
Definition reflectedContext (env : Env) (contextNames : list str)
  (ctx : list ContextItem) : list ContextItem :=
  match contextNames, ctx with
  | [], _ | _, [] => ctx
  | _, _ =>
      match reviewedItems env contextNames (currentContextOf env ctx) with
      | [] => ctx
      | reviewed =>
          reviewed ++ filter (fun c => isUserAddedItem c || isMedia c) ctx
      end
  end.

(** The context names [review] reflects on for the response [res]: none
    when the response is empty or the answer tag. *)
Definition namesOf (env : Env) (res : str) : list str :=
  match res with
  | [] => []
  | _ :: _ =>
      if isReadyToAnswer env res then []
      else RawTextProcessor.extract res (contextTag env)
  end.

(** The context names of the review that starts in [st]. *)
Definition reviewNames (env : Env) (st : State) : list str :=
  match fst (processStream env st) with
  | Resolved res => namesOf env res
  | Rejected _ => []
  end.

(** The [catch] block of [tool] throws in the review of number [n]: the
    tool throws a value whose message cannot be computed. *)
Definition catchThrows (n : nat) (tool : CodyTool) : bool :=
  match run tool n with
  | Resolved _ => false
  | Rejected e =>
      match errorMessage e with
      | Resolved _ => false
      | Rejected _ => true
      end
  end.

(** The review that starts in [st] gets to the tools and the [catch] block
    of one of them throws. *)
Definition toolCatchFails (env : Env) (st : State) : bool :=
  match fst (processStream env st) with
  | Resolved res =>
      match fst (retrieve env res (snd (processStream env st))) with
      | Resolved _ => false
      | Rejected _ => true
      end
  | Rejected _ => false
  end.

(** The context names the review that starts in [st] reflects on: those of
    the response, unless the review ends in its [catch] block. *)
Definition reflectedNames (env : Env) (st : State) : list str :=
  if toolCatchFails env st then [] else reviewNames env st.

(** The state in which the first review of [getContext] starts. *)
Definition firstReviewState (env : Env) (ctx : list ContextItem) (st : State)
  : State :=
  snd (incrStatsLoop (snd (aborted env (snd (setContext ctx st))))).

(** What a tool contributes to the new context of the review of number [n]:
    its result, or nothing when it throws. *)
Definition resultOf (n : nat) (tool : CodyTool) : list (option ContextItem) :=
  match run tool n with
  | Resolved items => items
  | Rejected _ => []
  end.

(** What the promise of a tool settles to in the review of number [n], when
    the tool is run. *)
Definition settledOf (n : nat) (tool : CodyTool)
  : Outcome (list (option ContextItem)) :=
  match run tool n with
  | Resolved items => Resolved items
  | Rejected e =>
      match errorMessage e with
      | Resolved _ => Resolved []
      | Rejected raised => Rejected raised
      end
  end.

(** The status recorded for a tool in the review of number [n]. *)
Definition failureOf (n : nat) (tool : CodyTool) : list Event :=
  match run tool n with
  | Resolved _ => []
  | Rejected e =>
      match errorMessage e with
      | Resolved message => [Completed (ToolStep (tag tool)) (Some message)]
      | Rejected _ => []
      end
  end.

(** [st'] has the context and the counters of [st]. *)
Definition sameFields (st st' : State) : Prop :=
  context st' = context st /\ stats_context st' = stats_context st
  /\ stats_loop st' = stats_loop st.

(** [st'] has the context and the counters of [st] and as many events with
    the property [p]. *)
Definition quiet (p : Event -> bool) (st st' : State) : Prop :=
  sameFields st st'
  /\ countEvents p (trace st') = countEvents p (trace st).

(** The events that report progress: all but the turn-complete
    notifications and the completions of steps. *)
Definition isProgress (e : Event) : bool :=
  match e with
  | TurnComplete _ | Completed _ _ => false
  | _ => true
  end.

(** ** Sample agents *)

Definition fileItem (path : string) (src : ContextItemSource) : ContextItem :=
  {| type := File; uri_scheme := lit "file"; uri_path := lit path;
     source := Some src; title := None; content := None |}.
Arguments fileItem path%_string src.

Definition userItem : ContextItem := fileItem "/repo/src/main.ts" User.
Definition searchItem : ContextItem := fileItem "/repo/src/util.ts" Search.
Definition foundItem : ContextItem := fileItem "/repo/src/found.ts" Search.
Definition readItem : ContextItem := fileItem "/repo/README.md" Search.


Definition toolReturning (name : string) (items : list (option ContextItem))
  : CodyTool :=
  {| tag := lit name; isMcpTool := false; run := fun _ => Resolved items |}.
Arguments toolReturning name%_string items.

Definition toolThrowing (name message : string) : CodyTool :=
  {| tag := lit name; isMcpTool := false;
     run := fun _ => Rejected (ThrownError (lit message)) |}.
Arguments toolThrowing (name message)%_string.

(** A tool that throws an object that refers to itself; [JSON.stringify]
    throws a [TypeError] on it. *)
Definition circularError : Thrown :=
  ThrownUnserializable (ThrownError (lit "Converting circular structure to JSON")).

Definition toolThrowingCircular (name : string) : CodyTool :=
  {| tag := lit name; isMcpTool := false; run := fun _ => Rejected circularError |}.
Arguments toolThrowingCircular name%_string.

(** An agent with the given tools whose model answers with [stream]; no
    file is resolved, nothing is aborted. *)
Definition sampleEnv (ts : list CodyTool) (stream : list StreamMessage) : Env :=
  {| tools := ts;
     chat := fun _ _ => Resolved stream;
     getContextFromRelativePath := fun _ => Resolved None;
     dehydratedContextFiles := [];
     abortAfter := None;
     answerTag := lit "next_step";
     contextTag := lit "context_list" |}.


(** The model asks for a search and names no context. *)
Definition searchRequest : list StreamMessage :=
  [change (lit "<TOOLSEARCH><query>main</query></TOOLSEARCH>"); complete].

(** The model names the file util.ts. *)
Definition namesUtil : list StreamMessage :=
  [change (lit "<context_list>util.ts</context_list>"); complete].

(** The stream breaks after a first message. *)
Definition brokenStream : list StreamMessage :=
  [change (lit "<TOOLSEARCH>"); error (ThrownError (lit "network error"))].

(** The state of an agent whose context is [ctx]. *)
Definition stateWith (ctx : list ContextItem) : State :=
  {| context := ctx; stats_context := 0; stats_loop := 0; trace := [];
     reads := 0 |}.

(** Tools that find nothing, one tool; three tools of which one throws; a
    tool that returns an item for the model only. *)
Definition emptyTools : list CodyTool := [toolReturning "TOOLSEARCH" []].

Definition searchTool : CodyTool := toolReturning "TOOLSEARCH" [Some foundItem].
Definition fileTool : CodyTool := toolReturning "TOOLFILE" [Some readItem].
Definition cliTool : CodyTool := toolThrowing "TOOLCLI" "command failed".

Definition threeTools : list CodyTool := [searchTool; cliTool; fileTool].

Definition circularTool : CodyTool := toolThrowingCircular "TOOLCLI".

Definition threeToolsCircular : list CodyTool :=
  [searchTool; circularTool; fileTool].


End DeepCody.

(** ** diff-utils.ts: the queries on a decoration *)

Module DiffQueries.

Import DiffUtils DiffModel.

(** [sumTextLengths]: [items.reduce((total, { text }) => total + text.length, 0)];
    [text] is the field of the items. *)
Definition sumTextLengths {T} (text : T -> str) (items : list T) : nat :=
  fold_left (fun total item => total + length (text item)) items 0.

(** [DecorationStats] *)
Module Stats.
Record DecorationStats := {
  modifiedLines : nat;
  removedLines : nat;
  addedLines : nat;
  unchangedLines : nat;
  addedChars : nat;
  removedChars : nat;
  unchangedChars : nat
}.
End Stats.

(** The accumulator [{ added, removed, unchanged }] of [getDecorationStats]. *)
Record CharsStats := { added : nat; removed : nat; unchanged_ : nat }.

(** The function [getDecorationStats] reduces the changes with. *)
Definition countChange (acc : CharsStats) (change : LineChange) : CharsStats :=
  match type change with
  | insert =>
      {| added := added acc + length (text change); removed := removed acc;
         unchanged_ := unchanged_ acc |}
  | delete =>
      {| added := added acc; removed := removed acc + length (text change);
         unchanged_ := unchanged_ acc |}
  | unchanged =>
      {| added := added acc; removed := removed acc;
         unchanged_ := unchanged_ acc + length (text change) |}
  end.

Definition getDecorationStats (d : DecorationInfo) : Stats.DecorationStats :=
  let added0 := sumTextLengths a_text (addedLines d) in
  let removed0 := sumTextLengths r_text (removedLines d) in
  let unchanged0 := sumTextLengths u_text (unchangedLines d) in
  let charsStats :=
    fold_left countChange (flat_map changes (modifiedLines d))
      {| added := added0; removed := removed0; unchanged_ := unchanged0 |} in
  {| Stats.modifiedLines := length (modifiedLines d);
     Stats.removedLines := length (removedLines d);
     Stats.addedLines := length (addedLines d);
     Stats.unchangedLines := length (unchangedLines d);
     Stats.addedChars := added charsStats;
     Stats.removedChars := removed charsStats;
     Stats.unchangedChars := unchanged_ charsStats |}.

(** [isOnlyAddingTextForModifiedLines]: no modified line has a change of
    type delete. *)
Definition isOnlyAddingTextForModifiedLines (modifiedLines : list ModifiedLineInfo)
  : bool :=
  forallb (fun modifiedLine =>
             negb (existsb (fun change => ChangeType_eqb (type change) delete)
                           (changes modifiedLine)))
          modifiedLines.

Definition isOnlyAddingText (decorationInfo : DecorationInfo) : bool :=
  if 0 <? length (removedLines decorationInfo) then false
  else if negb (isOnlyAddingTextForModifiedLines (modifiedLines decorationInfo))
  then false
  else (0 <? length (addedLines decorationInfo))
       || (0 <? length (modifiedLines decorationInfo)).

(** [getAddedLines]: the added lines sorted (in place, in the source) by
    their modified line number. *)
Definition getAddedLines (decorationInfo : DecorationInfo) : list AddedLineInfo :=
  sort (fun a b => (Z.of_nat (a_modifiedLineNumber a)
                    - Z.of_nat (a_modifiedLineNumber b))%Z)
       (addedLines decorationInfo).

(** The part of a [vscode.TextDocument] that
    [getDecorationInfoFromPrediction] uses. *)
Record TextDocument := {
  getText : str;
  offsetAt : Position -> nat
}.

(** [getDecorationInfoFromPrediction]: the document against the document
    with the prediction in the place of the range; [chunkRegex] takes its
    default. *)
Definition predictedFileText (document : TextDocument) (prediction : str)
  (range : Range) : str :=
  slice 0 (offsetAt document (start range)) (getText document)
  ++ prediction
  ++ skipn (offsetAt document (end_ range)) (getText document).

Definition getDecorationInfoFromPrediction
  (diff : list str -> list str -> list Hunk) (getNewLineChar : str -> str)
  (document : TextDocument) (prediction : str) (range : Range) : DecorationInfo :=
  getDecorationInfo diff getNewLineChar (getText document)
    (predictedFileText document prediction range) WORDS_AND_PUNCTUATION_REGEX.

(** ** Notions used to state the properties of the changes *)

(** The number of characters a change takes of the original and of the
    modified line. *)
Definition originalLength (c : LineChange) : nat :=
  if isOriginalSide (type c) then length (text c) else 0.

Definition modifiedLength (c : LineChange) : nat :=
  if isModifiedSide (type c) then length (text c) else 0.

(** The ranges of the changes tile the two lines from the offsets [o] and
    [m] on: the ranges of a change start where those of the change before
    end, and are as long as its text on the side it belongs to and empty on
    the other side. *)
Fixpoint tiled (originalLine modifiedLine : nat) (o m : nat)
  (changes : list LineChange) : Prop :=
  match changes with
  | [] => True
  | c :: rest =>
      originalRange c = mkRange originalLine o originalLine (o + originalLength c)
      /\ modifiedRange c = mkRange modifiedLine m modifiedLine (m + modifiedLength c)
      /\ tiled originalLine modifiedLine
               (o + originalLength c) (m + modifiedLength c) rest
  end.

(** The same, with the offsets [o'] and [m'] the last change ends at. *)
Fixpoint tiledTo (originalLine modifiedLine : nat) (o m : nat)
  (changes : list LineChange) (o' m' : nat) : Prop :=
  match changes with
  | [] => o' = o /\ m' = m
  | c :: rest =>
      originalRange c = mkRange originalLine o originalLine (o + originalLength c)
      /\ modifiedRange c = mkRange modifiedLine m modifiedLine (m + modifiedLength c)
      /\ tiledTo originalLine modifiedLine
                 (o + originalLength c) (m + modifiedLength c) rest o' m'
  end.

(** The changes pushed so far by [computeLineChanges] tile the lines up to
    its two offsets. *)
Definition tilesOffsets (originalLine modifiedLine : nat) (st : LineState) : Prop :=
  tiledTo originalLine modifiedLine 0 0
          (ls_changes st) (originalOffset st) (modifiedOffset st).

(** No two neighbours have the same type. *)
Fixpoint alternating (changes : list LineChange) : Prop :=
  match changes with
  | [] => True
  | c :: rest =>
      match rest with
      | [] => True
      | c' :: _ => type c <> type c'
      end
      /\ alternating rest
  end.

(** A modified line is made from the parameters of two lines of [a] and
    [b] that differ. *)
Definition madeFromLines (diff : list str -> list str -> list Hunk)
  (a b : list str) (regex : ChunkRegex) (m : ModifiedLineInfo) : Prop :=
  exists p,
    m = createModifiedLineInfo diff p
    /\ chunkRegex p = regex
    /\ originalText p = nth (originalLineNumber p) a []
    /\ modifiedText p = nth (modifiedLineNumber p) b []
    /\ originalText p <> modifiedText p.

(** ** Sample inputs *)

(** Two lines, and the same text with another second line. *)
Definition sampleBefore : str := lit "let a" ++ [LF] ++ lit "let b = 1".
Definition sampleAfter : str := lit "let a" ++ [LF] ++ lit "let b = 12".

(** The modified line of the two texts. *)
Definition sampleSecondLine : LineParams :=
  {| originalLineNumber := 1; modifiedLineNumber := 1;
     originalText := lit "let b = 1"; modifiedText := lit "let b = 12";
     chunkRegex := WORDS_AND_PUNCTUATION_REGEX |}.

(** A document that holds the first text, with the offsets of positions on
    its first line. *)
Definition sampleDocument : TextDocument :=
  {| getText := sampleBefore; offsetAt := fun position => character position |}.

End DiffQueries.

(** ** registry.ts: getAgent *)

Module Registry.

(** The handlers [getAgent] constructs; the tools they are given are left
    out. *)
Inductive AgentHandler :=
| SearchHandler
| EditHandler (mode : str)
| AgenticHandler
| DeepCodyHandler
| ChatHandler.

(** [agentRegistry]: the factory of a key applied to its arguments, for the
    three keys of the map. *)
Definition agentRegistry (key : str) : option AgentHandler :=
  if str_eqb key (lit "search") then Some SearchHandler
  else if str_eqb key (lit "edit") then Some (EditHandler (lit "edit"))
  else if str_eqb key (lit "insert") then Some (EditHandler (lit "insert"))
  else None.

(** [getAgent]; [isCodyTesting] and [DeepCodyHandler.isAgenticChatEnabled()]
    are given.  An intent that is undefined, null or the empty string is
    falsy. *)
Definition getAgent (isCodyTesting isAgenticChatEnabled : bool)
  (model : str) (intent : option str) : AgentHandler :=
  let isAgentic :=
    match intent with
    | Some i => str_eqb i (lit "agentic")
    | None => false
    end in
  if isAgentic then AgenticHandler
  else
    let intentHandler :=
      match intent with
      | Some (c :: i) => agentRegistry (c :: i)
      | _ => None
      end in
    match intentHandler with
    | Some handler => handler
    | None =>
        match agentRegistry model with
        | Some handler => handler
        | None =>
            if negb isCodyTesting && isAgenticChatEnabled then DeepCodyHandler
            else ChatHandler
        end
    end.

End Registry.

(** ** The Deep Cody agent: notions used to state further properties *)

Module DeepCodyModel.

Import DeepCody.

(** The text published to the multiplexer, in order. *)
Definition publishedText (es : list Event) : str :=
  concat (flat_map (fun e => match e with
                             | Publish newText => [newText]
                             | _ => []
                             end) es).

(** Every text extends the text before it, from [previous] on. *)
Fixpoint growing (previous : str) (texts : list str) : bool :=
  match texts with
  | [] => true
  | text :: rest => startsWith previous text && growing text rest
  end.

(** [<tag>name</tag>] *)
Definition wrap (tag name : str) : str :=
  lit "<" ++ tag ++ lit ">" ++ name ++ lit "</" ++ tag ++ lit ">".

Definition isLessThan (c : ascii) : bool := Ascii.eqb c "<"%char.

(** A name without [<] and without line terminators. *)
Definition plainName (name : str) : bool :=
  forallb (fun c => negb (isLessThan c) && negb (isLineTerminator c)) name.

(** An item is agentic, user-added or media. *)
Definition isKeptByReflection (c : ContextItem) : bool :=
  match source c with
  | Some Agentic => true
  | _ => isUserAddedItem c || isMedia c
  end.

(** The new items of an iteration that are kept. *)
Definition validItems (newContext : list ContextItem) : list ContextItem :=
  filter (fun c => negb (isToolContext c)) newContext.

(** The response is [<answerTag>] or empty. *)
Definition readyResponse (env : Env) (res : str) : Prop :=
  res = [] \/ res = lit "<" ++ answerTag env ++ lit ">".

(** The model answers with the texts, each extending the one before, and
    completes. *)
Definition growingStream (texts : list str) : list StreamMessage :=
  map change texts ++ [complete].

(** The model names two files. *)
Definition twoNames : str :=
  lit "<context_list>a.ts</context_list><context_list>b.ts</context_list>".

End DeepCodyModel.

(** * Properties of the diff engine *)

Module ListFacts.

Import DiffUtils DiffModel.

(** The conjuncts of a valid edit script, as propositions. *)
Ltac split_valid H :=
  repeat match type of H with
         | (_ && _)%bool = true =>
             let H' := fresh "V" in apply andb_true_iff in H as [H H']
         end;
  repeat match goal with
         | V : (_ <=? _) = true |- _ => apply Nat.leb_le in V
         | V : (_ =? _) = true |- _ => apply Nat.eqb_eq in V
         end.

(** ** Splitting and joining *)

Lemma startsWith_app (p s : str) :
  startsWith p s = true -> exists r, s = p ++ r.
Proof.
  revert s; induction p as [|a p IH]; intros s H.
  - now exists s.
  - destruct s as [|b s]; simpl in H; [discriminate|].
    apply andb_true_iff in H as [Hab Hps].
    apply Ascii.eqb_eq in Hab; subst b.
    destruct (IH _ Hps) as [r ->]. now exists r.
Qed.

Lemma split_go_skip (sep : str) (p : str) :
  forall cur r, split_go sep (length p) cur (p ++ r) = split_go sep 0 cur r.
Proof.
  induction p as [|c p IH]; intros cur r; simpl.
  - destruct r; reflexivity.
  - apply IH.
Qed.

Lemma split_go_cons (sep : str) :
  forall s skip cur, exists p ps, split_go sep skip cur s = p :: ps.
Proof.
  induction s as [|c s IH]; intros skip cur; simpl.
  - now exists cur, [].
  - destruct skip as [|k]; [|apply IH].
    destruct (startsWith sep (c :: s)); [now eexists _, _|apply IH].
Qed.

Lemma join_cons (sep p : str) (ps : list str) :
  ps <> [] -> join sep (p :: ps) = p ++ sep ++ join sep ps.
Proof. destruct ps; [congruence|reflexivity]. Qed.

Lemma join_split_go (sep : str) :
  sep <> [] ->
  forall n s cur, length s <= n -> join sep (split_go sep 0 cur s) = cur ++ s.
Proof.
  intros Hsep; induction n as [|n IH]; intros s cur Hn.
  - destruct s; [|simpl in Hn; lia]. simpl. now rewrite app_nil_r.
  - destruct s as [|c s']; [simpl; now rewrite app_nil_r|].
    cbn [split_go].
    destruct (startsWith sep (c :: s')) eqn:Hp.
    + destruct (startsWith_app _ _ Hp) as [r Hr].
      destruct sep as [|c0 sep']; [congruence|].
      simpl in Hr. injection Hr as -> ->.
      replace (length (c0 :: sep') - 1) with (length sep') by (simpl; lia).
      rewrite split_go_skip.
      destruct (split_go_cons (c0 :: sep') r 0 []) as (p & ps & E).
      rewrite join_cons by (rewrite E; discriminate).
      rewrite IH; [reflexivity|].
      simpl in Hn. rewrite length_app in Hn. lia.
    + rewrite IH by (simpl in Hn; lia).
      now rewrite <- app_assoc.
Qed.

(** [s.split(sep).join(sep) === s], for every separator. *)
Lemma join_split (sep s : str) : join sep (split sep s) = s.
Proof.
  destruct sep as [|c sep]; simpl.
  - induction s as [|a s IH]; [reflexivity|].
    simpl. destruct s as [|b s]; [reflexivity|].
    simpl in *. now rewrite IH.
  - change (join (c :: sep) (split_go (c :: sep) 0 [] s) = [] ++ s).
    apply join_split_go with (n := length s); [discriminate|lia].
Qed.

(** ** The stable sort *)

Section Sort.

Variables (A : Type) (compare : A -> A -> Z).

Lemma sortInsert_perm (x : A) (l : list A) :
  Permutation (sortInsert compare x l) (x :: l).
Proof.
  induction l as [|y l IH]; simpl; [reflexivity|].
  destruct (compare x y <=? 0)%Z; [reflexivity|].
  rewrite IH. apply perm_swap.
Qed.

Lemma sort_perm (l : list A) : Permutation (sort compare l) l.
Proof.
  induction l as [|x l IH]; simpl; [reflexivity|].
  unfold sort in *. rewrite sortInsert_perm. now constructor.
Qed.

Hypothesis leq_total : forall x y, leq compare x y \/ leq compare y x.
Hypothesis leq_trans :
  forall x y z, leq compare x y -> leq compare y z -> leq compare x z.

Lemma sortInsert_sorted (x : A) (l : list A) :
  StronglySorted (leq compare) l ->
  StronglySorted (leq compare) (sortInsert compare x l).
Proof.
  induction l as [|y l IH]; intros Hs; simpl.
  - repeat constructor.
  - inversion Hs as [|? ? Hl Hy]; subst.
    destruct (compare x y <=? 0)%Z eqn:E.
    + apply Z.leb_le in E. constructor; [assumption|].
      constructor; [exact E|].
      eapply Forall_impl; [|exact Hy]. intros z Hz. eapply leq_trans; eauto.
    + apply Z.leb_gt in E. constructor; [now apply IH|].
      assert (Hyx : leq compare y x).
      { destruct (leq_total x y) as [H|H]; [unfold leq in H; lia|exact H]. }
      eapply Permutation_Forall;
        [symmetry; apply sortInsert_perm|].
      now constructor.
Qed.

Lemma sort_sorted (l : list A) : StronglySorted (leq compare) (sort compare l).
Proof.
  induction l as [|x l IH]; simpl; [constructor|].
  now apply sortInsert_sorted.
Qed.

End Sort.

Lemma StronglySorted_impl {A} (R R' : A -> A -> Prop) (l : list A) :
  (forall x y, R x y -> R' x y) -> StronglySorted R l -> StronglySorted R' l.
Proof.
  intros H; induction 1 as [|x l Hs IH Hx]; constructor; [assumption|].
  eapply Forall_impl; [|exact Hx]. intros y. apply H.
Qed.

(** ** Lists that are sorted strictly by a key *)

Section Keyed.

Variables (A : Type) (key : A -> nat).

Lemma strictly_sorted_unique (l1 l2 : list A) :
  StronglySorted (keyLt key) l1 -> StronglySorted (keyLt key) l2 ->
  Permutation l1 l2 -> l1 = l2.
Proof.
  revert l2; induction l1 as [|x l1 IH]; intros l2 H1 H2 P.
  - now apply Permutation_nil in P.
  - destruct l2 as [|y l2];
      [symmetry in P; now apply Permutation_nil in P|].
    inversion H1 as [|? ? Hs1 Hx]; subst.
    inversion H2 as [|? ? Hs2 Hy]; subst.
    assert (x = y) as ->.
    { assert (Ix : In x (y :: l2)) by (eapply Permutation_in; [exact P|now left]).
      assert (Iy : In y (x :: l1))
        by (eapply Permutation_in; [symmetry; exact P|now left]).
      destruct Ix as [E|Ix]; [now symmetry|].
      destruct Iy as [E|Iy]; [assumption|].
      rewrite Forall_forall in Hx, Hy.
      specialize (Hx _ Iy). specialize (Hy _ Ix).
      unfold keyLt in *. lia. }
    f_equal. apply IH; try assumption.
    eapply Permutation_cons_inv; exact P.
Qed.

(** A list sorted by [<=] on keys that are pairwise distinct is sorted
    strictly. *)
Lemma sorted_nodup_strict (l : list A) :
  StronglySorted (fun x y => key x <= key y) l -> NoDup (map key l) ->
  StronglySorted (keyLt key) l.
Proof.
  induction l as [|x l IH]; intros Hs Hn; [constructor|].
  inversion Hs as [|? ? Hl Hx]; subst.
  simpl in Hn. inversion Hn as [|? ? Hnx Hnl]; subst.
  constructor; [now apply IH|].
  rewrite Forall_forall in *. intros y Iy.
  specialize (Hx _ Iy). unfold keyLt.
  assert (key x <> key y).
  { intros E. apply Hnx. rewrite E. now apply in_map. }
  lia.
Qed.

End Keyed.

End ListFacts.

(** ** Line entries of a list of line infos *)

Module DiffSpec.

Import DiffUtils DiffModel ListFacts.

Lemma str_eqb_eq (a b : str) : str_eqb a b = true <-> a = b.
Proof.
  unfold str_eqb. destruct (list_eq_dec ascii_dec a b); split; congruence.
Qed.

Lemma flat_map_map {A B C} (g : A -> B) (f : B -> list C) (l : list A) :
  flat_map f (map g l) = flat_map (fun x => f (g x)) l.
Proof. induction l; simpl; congruence. Qed.

Lemma flat_map_single {A B} (h : A -> B) (l : list A) :
  flat_map (fun x => [h x]) l = map h l.
Proof. induction l; simpl; congruence. Qed.

Lemma flat_map_none {A B} (l : list A) :
  flat_map (fun _ => @nil B) l = [].
Proof. induction l; simpl; congruence. Qed.

Lemma map_seq_offset {B} (f : nat -> B) (s n : nat) :
  map (fun k => f (s + k)) (seq 0 n) = map f (seq s n).
Proof.
  revert s; induction n as [|n IH]; intros s; [reflexivity|].
  simpl. rewrite Nat.add_0_r. f_equal.
  rewrite <- seq_shift, map_map, <- (IH (S s)).
  apply map_ext. intros k. f_equal. lia.
Qed.

Lemma linesFrom_offset (a : list str) (s n : nat) :
  linesFrom a s n = map (fun k => (s + k, nth (s + k) a [])) (seq 0 n).
Proof.
  unfold linesFrom.
  now rewrite (map_seq_offset (fun k => (k, nth k a [])) s n).
Qed.

Lemma linesFrom_app (a : list str) (s n m : nat) :
  linesFrom a s n ++ linesFrom a (s + n) m = linesFrom a s (n + m).
Proof. unfold linesFrom. now rewrite seq_app, map_app. Qed.

Lemma linesFrom_join (a : list str) (s t n : nat) :
  s <= t -> linesFrom a s (t - s) ++ linesFrom a t n = linesFrom a s (t - s + n).
Proof.
  intros H. rewrite <- linesFrom_app. now replace (s + (t - s)) with t by lia.
Qed.

Lemma linesFrom_keys (a : list str) (s n : nat) :
  map fst (linesFrom a s n) = seq s n.
Proof. unfold linesFrom. rewrite map_map. simpl. apply map_id. Qed.

Lemma linesFrom_sorted (a : list str) (n s : nat) :
  StronglySorted (keyLt fst) (linesFrom a s n).
Proof.
  unfold linesFrom. revert s; induction n as [|n IH]; intros s; simpl;
    constructor; [apply IH|].
  rewrite Forall_forall. intros x Hx.
  apply in_map_iff in Hx as (k & <- & Hk). apply in_seq in Hk.
  unfold keyLt; simpl; lia.
Qed.

Lemma linesFrom_all (a : list str) :
  map snd (linesFrom a 0 (length a)) = a.
Proof.
  unfold linesFrom. rewrite map_map. simpl.
  induction a as [|x a IH]; [reflexivity|].
  simpl. f_equal. rewrite <- seq_shift, map_map. exact IH.
Qed.

(** Sorting by line number recovers the lines from any permutation. *)
Lemma sort_linesFrom (a : list str) (n : nat) (entries : list (nat * str)) :
  Permutation entries (linesFrom a 0 n) ->
  sort compareEntries entries = linesFrom a 0 n.
Proof.
  intros P.
  apply strictly_sorted_unique with (key := fst).
  - apply sorted_nodup_strict.
    + eapply StronglySorted_impl; [|apply (@sort_sorted _ compareEntries)].
      * intros x y H. unfold leq, compareEntries in H. lia.
      * intros x y. unfold leq, compareEntries. lia.
      * intros x y z. unfold leq, compareEntries. lia.
    + eapply Permutation_NoDup.
      * apply Permutation_map. symmetry.
        etransitivity; [apply sort_perm|exact P].
      * rewrite linesFrom_keys. apply seq_NoDup.
  - apply linesFrom_sorted.
  - etransitivity; [apply sort_perm|exact P].
Qed.

(** ** The line infos of computeDiffOperations *)

Section Operations.

Variable diff : list str -> list str -> list Hunk.
Variables (a b : list str) (regex : ChunkRegex).

Lemma unchangedUntil_original (i j t1 t2 : nat) :
  t1 - i = t2 - j -> agree a b i j (t1 - i) = true ->
  flat_map originalEntry (unchangedUntil b i j t1 t2) = linesFrom a i (t1 - i).
Proof.
  intros E H. unfold unchangedUntil, unchangedLineAt.
  rewrite <- E, Nat.min_id, flat_map_map. simpl.
  rewrite flat_map_single, linesFrom_offset.
  apply map_ext_in. intros k Hk.
  unfold agree in H. rewrite forallb_forall in H.
  specialize (H _ Hk). apply str_eqb_eq in H. now rewrite H.
Qed.

Lemma unchangedUntil_modified (i j t1 t2 : nat) :
  t1 - i = t2 - j ->
  flat_map modifiedEntry (unchangedUntil b i j t1 t2) = linesFrom b j (t2 - j).
Proof.
  intros E. unfold unchangedUntil, unchangedLineAt.
  rewrite E, Nat.min_id, flat_map_map. simpl.
  now rewrite flat_map_single, linesFrom_offset.
Qed.

Lemma hunkLineInfos_original (s1 e1 s2 e2 : nat) :
  flat_map originalEntry (hunkLineInfos diff a b regex (s1, e1, s2, e2))
  = linesFrom a s1 (e1 - s1).
Proof.
  unfold hunkLineInfos.
  rewrite !flat_map_app, !flat_map_map. simpl.
  rewrite flat_map_none, app_nil_r, flat_map_single.
  set (paired := Nat.min (e1 - s1) (e2 - s2)).
  replace (e1 - s1) with (paired + (e1 - s1 - paired)) at 2
    by (subst paired; lia).
  rewrite <- linesFrom_app. f_equal.
  - rewrite linesFrom_offset, <- flat_map_single.
    apply flat_map_ext. intros i.
    destruct (str_eqb (nth (s1 + i) a []) (nth (s2 + i) b [])) eqn:E; simpl.
    + apply str_eqb_eq in E. now rewrite E.
    + reflexivity.
  - rewrite linesFrom_offset, <- (map_seq_offset _ paired).
    apply map_ext. intros k.
    now replace (s1 + (paired + k)) with (s1 + paired + k) by lia.
Qed.

Lemma hunkLineInfos_modified (s1 e1 s2 e2 : nat) :
  flat_map modifiedEntry (hunkLineInfos diff a b regex (s1, e1, s2, e2))
  = linesFrom b s2 (e2 - s2).
Proof.
  unfold hunkLineInfos.
  rewrite !flat_map_app, !flat_map_map. simpl.
  rewrite flat_map_none, flat_map_single. simpl.
  set (paired := Nat.min (e1 - s1) (e2 - s2)).
  replace (e2 - s2) with (paired + (e2 - s2 - paired)) at 2
    by (subst paired; lia).
  rewrite <- linesFrom_app. f_equal.
  - rewrite linesFrom_offset, <- flat_map_single.
    apply flat_map_ext. intros i.
    now destruct (str_eqb (nth (s1 + i) a []) (nth (s2 + i) b [])).
  - rewrite linesFrom_offset, <- (map_seq_offset _ paired).
    apply map_ext. intros k.
    now replace (s2 + (paired + k)) with (s2 + paired + k) by lia.
Qed.

Lemma diffOperationsLoop_original (hunks : list Hunk) :
  forall i j, validScriptFrom a b hunks i j = true ->
  flat_map originalEntry (diffOperationsLoop diff a b regex hunks i j)
  = linesFrom a i (length a - i).
Proof.
  induction hunks as [|[[[s1 e1] s2] e2] rest IH]; intros i j V;
    cbn [diffOperationsLoop validScriptFrom] in *.
  - split_valid V. now apply unchangedUntil_original.
  - split_valid V.
    rewrite !flat_map_app, unchangedUntil_original, hunkLineInfos_original,
      (IH _ _ V0) by assumption.
    rewrite !linesFrom_join by assumption. f_equal. lia.
Qed.

Lemma diffOperationsLoop_modified (hunks : list Hunk) :
  forall i j, validScriptFrom a b hunks i j = true ->
  flat_map modifiedEntry (diffOperationsLoop diff a b regex hunks i j)
  = linesFrom b j (length b - j).
Proof.
  induction hunks as [|[[[s1 e1] s2] e2] rest IH]; intros i j V;
    cbn [diffOperationsLoop validScriptFrom] in *.
  - split_valid V. now apply unchangedUntil_modified.
  - split_valid V.
    rewrite !flat_map_app, unchangedUntil_modified, hunkLineInfos_modified,
      (IH _ _ V0) by assumption.
    rewrite !linesFrom_join by assumption. f_equal. lia.
Qed.

End Operations.

(** [getDecorationInfo] distributes the line infos over four lists; each
    side keeps its entries. *)
Lemma collect_original (lineInfos : list DecorationLineInfo) :
  Permutation (originalEntries (collectLineInfos lineInfos))
              (flat_map originalEntry lineInfos).
Proof.
  induction lineInfos as [|li rest IH]; [reflexivity|].
  unfold collectLineInfos in *. simpl.
  destruct li as [l|l|l|l]; unfold originalEntries in *; simpl.
  - now constructor.
  - exact IH.
  - rewrite <- IH. rewrite !app_assoc. symmetry.
    rewrite <- !app_assoc. apply Permutation_middle.
  - rewrite <- IH. rewrite !app_assoc. symmetry. apply Permutation_middle.
Qed.

Lemma collect_modified (lineInfos : list DecorationLineInfo) :
  Permutation (modifiedEntries (collectLineInfos lineInfos))
              (flat_map modifiedEntry lineInfos).
Proof.
  induction lineInfos as [|li rest IH]; [reflexivity|].
  unfold collectLineInfos in *. simpl.
  destruct li as [l|l|l|l]; unfold modifiedEntries in *; simpl.
  - now constructor.
  - rewrite <- IH. symmetry. apply Permutation_middle.
  - exact IH.
  - rewrite <- IH. rewrite !app_assoc. symmetry. apply Permutation_middle.
Qed.

Lemma collect_unchanged (us : list UnchangedLineInfo) :
  collectLineInfos (map Unchanged us)
  = {| modifiedLines := []; removedLines := []; addedLines := [];
       unchangedLines := us |}.
Proof.
  induction us as [|u us IH]; [reflexivity|].
  unfold collectLineInfos in *. simpl. now rewrite IH.
Qed.

(** ** Round trip and idempotence *)

Section RoundTrip.

Variable diff : list str -> list str -> list Hunk.
Variable getNewLineChar : str -> str.

(** C1.  Diff round trip.  Whenever [diff] returns an edit script of the two
    arrays of lines, the lines of the original side of
    [getDecorationInfo A B] (unchanged and removed lines and the old text of
    the modified lines), taken in the order of their original line numbers
    and joined with the newline sequence of [A], are [A]; and the lines of
    the modified side (unchanged and added lines and the new text of the
    modified lines), in the order of their modified line numbers and joined
    with the newline sequence of [B], are [B]. *)
Theorem diff_round_trip (A B : str) (regex : ChunkRegex) :
  validScript (split (getNewLineChar A) A) (split (getNewLineChar B) B)
    (diff (split (getNewLineChar A) A) (split (getNewLineChar B) B)) = true ->
  originalProjection (getNewLineChar A)
    (getDecorationInfo diff getNewLineChar A B regex) = A
  /\ modifiedProjection (getNewLineChar B)
       (getDecorationInfo diff getNewLineChar A B regex) = B.
Proof.
  intros V. unfold validScript in V.
  unfold originalProjection, modifiedProjection, reconstruct, getDecorationInfo,
    computeDiffOperations.
  set (a := split (getNewLineChar A) A) in *.
  set (b := split (getNewLineChar B) B) in *.
  split.
  - rewrite (@sort_linesFrom a (length a)).
    + rewrite linesFrom_all. apply join_split.
    + rewrite collect_original, diffOperationsLoop_original by exact V.
      now rewrite Nat.sub_0_r.
  - rewrite (@sort_linesFrom b (length b)).
    + rewrite linesFrom_all. apply join_split.
    + rewrite collect_modified, diffOperationsLoop_modified by exact V.
      now rewrite Nat.sub_0_r.
Qed.

(** C9.  Idempotence.  The edit script of two equal arrays being empty,
    [getDecorationInfo A A] has no added, removed or modified line, and its
    unchanged lines are the lines of [A] in order, the line of index [k]
    with the original and the modified line number [k]. *)
Theorem getDecorationInfo_same_text (A : str) (regex : ChunkRegex) :
  diff (split (getNewLineChar A) A) (split (getNewLineChar A) A) = [] ->
  addedLines (getDecorationInfo diff getNewLineChar A A regex) = []
  /\ removedLines (getDecorationInfo diff getNewLineChar A A regex) = []
  /\ modifiedLines (getDecorationInfo diff getNewLineChar A A regex) = []
  /\ map u_text (unchangedLines (getDecorationInfo diff getNewLineChar A A regex))
     = split (getNewLineChar A) A
  /\ map u_originalLineNumber
       (unchangedLines (getDecorationInfo diff getNewLineChar A A regex))
     = seq 0 (length (split (getNewLineChar A) A))
  /\ map u_modifiedLineNumber
       (unchangedLines (getDecorationInfo diff getNewLineChar A A regex))
     = seq 0 (length (split (getNewLineChar A) A)).
Proof.
  intros E. unfold getDecorationInfo, computeDiffOperations.
  set (a := split (getNewLineChar A) A) in *.
  rewrite E. cbn [diffOperationsLoop]. unfold unchangedUntil, unchangedLineAt.
  rewrite Nat.sub_0_r, Nat.min_id.
  rewrite <- (map_map
    (fun k => {| u_originalLineNumber := 0 + k; u_modifiedLineNumber := 0 + k;
                 u_text := nth (0 + k) a [] |}) Unchanged).
  rewrite collect_unchanged. cbn [addedLines removedLines modifiedLines unchangedLines].
  rewrite !map_map. cbn [u_text u_originalLineNumber u_modifiedLineNumber].
  repeat split.
  - rewrite <- (linesFrom_all a) at 2. unfold linesFrom. now rewrite map_map.
  - apply map_id.
  - apply map_id.
Qed.

End RoundTrip.

Lemma diff_round_trip_witness :
  originalProjection (firstNewLine sampleOriginal)
    (getDecorationInfo lcsDiff firstNewLine sampleOriginal sampleModified
       WORDS_AND_PUNCTUATION_REGEX) = sampleOriginal
  /\ modifiedProjection (firstNewLine sampleModified)
       (getDecorationInfo lcsDiff firstNewLine sampleOriginal sampleModified
          WORDS_AND_PUNCTUATION_REGEX) = sampleModified.
Proof.
  apply (diff_round_trip lcsDiff firstNewLine sampleOriginal sampleModified
           WORDS_AND_PUNCTUATION_REGEX).
  vm_compute. reflexivity.
Defined.

Lemma getDecorationInfo_same_text_witness :
  addedLines (getDecorationInfo lcsDiff firstNewLine sampleOriginal sampleOriginal
                WORDS_AND_PUNCTUATION_REGEX) = []
  /\ map u_text
       (unchangedLines (getDecorationInfo lcsDiff firstNewLine sampleOriginal
                          sampleOriginal WORDS_AND_PUNCTUATION_REGEX))
     = [lit "a"; lit "b"; lit "c"].
Proof.
  destruct (getDecorationInfo_same_text lcsDiff firstNewLine sampleOriginal
              WORDS_AND_PUNCTUATION_REGEX) as (Ha & _ & _ & Hu & _).
  - vm_compute. reflexivity.
  - split; [exact Ha|exact Hu].
Defined.

(** ** The choice of the granularity *)

Section Granularity.

Variable diff : list str -> list str -> list Hunk.

(** [createModifiedLineInfo] keeps the changes computed on characters when
    they make a simple line diff, and the changes computed on the chunks of
    [chunkRegex] otherwise. *)
Lemma createModifiedLineInfo_changes (p : LineParams) :
  changes (createModifiedLineInfo diff p)
  = if isSimpleLineDiff (getModifiedLineChanges diff (withCharacterRegex p))
    then getModifiedLineChanges diff (withCharacterRegex p)
    else getModifiedLineChanges diff p.
Proof.
  unfold createModifiedLineInfo. cbn [changes].
  now destruct (isSimpleLineDiff _).
Qed.

(** C7.  Granularity fallback.  The changes of a modified line are those
    computed on characters if they pass [isSimpleLineDiff], and those
    computed on the chunks of [chunkRegex] if and only if they do not.  For
    the lines "abcabc" and "xbcxbc", whose shortest edit script on
    characters replaces the characters 0 and 3, the changes on characters
    are not simple and those on chunks are used. *)
Theorem granularity_fallback (regex : ChunkRegex) :
  diff (CHARACTER_REGEX (lit "abcabc")) (CHARACTER_REGEX (lit "xbcxbc"))
  = [(0, 1, 0, 1); (3, 4, 3, 4)] ->
  isSimpleLineDiff
    (getModifiedLineChanges diff (withCharacterRegex (sampleLinePair regex)))
  = false
  /\ changes (createModifiedLineInfo diff (sampleLinePair regex))
     = getModifiedLineChanges diff (sampleLinePair regex)
  /\ (forall p,
        (isSimpleLineDiff (getModifiedLineChanges diff (withCharacterRegex p))
         = true ->
         changes (createModifiedLineInfo diff p)
         = getModifiedLineChanges diff (withCharacterRegex p))
        /\ (isSimpleLineDiff (getModifiedLineChanges diff (withCharacterRegex p))
            = false ->
            changes (createModifiedLineInfo diff p)
            = getModifiedLineChanges diff p)).
Proof.
  intros H.
  assert (N : isSimpleLineDiff
    (getModifiedLineChanges diff (withCharacterRegex (sampleLinePair regex)))
    = false).
  { unfold getModifiedLineChanges, computeLineChanges, splitLineIntoChunks.
    cbn [withCharacterRegex sampleLinePair originalText modifiedText chunkRegex
         originalLineNumber modifiedLineNumber].
    rewrite H. vm_compute. reflexivity. }
  split; [exact N|split].
  - now rewrite createModifiedLineInfo_changes, N.
  - intros p; split; intros E; now rewrite createModifiedLineInfo_changes, E.
Qed.

End Granularity.

Lemma granularity_fallback_witness :
  changes (createModifiedLineInfo lcsDiff (sampleLinePair WORDS_AND_PUNCTUATION_REGEX))
  = getModifiedLineChanges lcsDiff (sampleLinePair WORDS_AND_PUNCTUATION_REGEX).
Proof.
  destruct (granularity_fallback lcsDiff WORDS_AND_PUNCTUATION_REGEX)
    as (_ & H & _).
  - vm_compute. reflexivity.
  - exact H.
Defined.

End DiffSpec.

(** ** sortDiff *)

Module SortDiffSpec.

Import DiffUtils DiffModel ListFacts.

Lemma compareLines_total (x y : DecorationLineInfo) :
  leq compareLines x y \/ leq compareLines y x.
Proof.
  unfold leq, compareLines.
  rewrite (Nat.eqb_sym (sortLine y)).
  destruct (Nat.eqb_spec (sortLine x) (sortLine y)); lia.
Qed.

Lemma compareLines_trans (x y z : DecorationLineInfo) :
  leq compareLines x y -> leq compareLines y z -> leq compareLines x z.
Proof.
  unfold leq, compareLines.
  destruct (Nat.eqb_spec (sortLine x) (sortLine y)),
           (Nat.eqb_spec (sortLine y) (sortLine z)),
           (Nat.eqb_spec (sortLine x) (sortLine z)); lia.
Qed.

Lemma compareLines_orderedBy (x y : DecorationLineInfo) :
  leq compareLines x y -> orderedBy typeOrder x y.
Proof.
  unfold leq, compareLines, orderedBy.
  destruct (Nat.eqb_spec (sortLine x) (sortLine y)); intros H.
  - right. split; [assumption|lia].
  - left. lia.
Qed.

(** C4, as the code has it.  [sortDiff] returns the line infos of the four
    lists (a permutation of them), ordered by line number, the original one
    for a removed line and the modified one otherwise; line infos that share
    a line number are ordered by [typeOrder]: removed, then added, then
    modified, then unchanged. *)
Theorem sortDiff_sorted (d : DecorationInfo) :
  Permutation (sortDiff d) (lineInfosOf d)
  /\ StronglySorted (orderedBy typeOrder) (sortDiff d)
  /\ (forall r a m u,
        (typeOrder (Removed r) < typeOrder (Added a)
         < typeOrder (Modified m))%Z
        /\ (typeOrder (Modified m) < typeOrder (Unchanged u))%Z).
Proof.
  split; [|split].
  - apply sort_perm.
  - eapply StronglySorted_impl; [apply compareLines_orderedBy|].
    apply sort_sorted; [apply compareLines_total|apply compareLines_trans].
  - intros; simpl; lia.
Qed.

(** C4, as stated, fails: on a shared line number the removed line comes
    first, not last. *)
Lemma sortDiff_not_spec_priority :
  sortDiff removedAndAdded
  = [ Removed {| r_originalLineNumber := 0; r_text := lit "old" |};
      Added {| a_modifiedLineNumber := 0; a_text := lit "new" |} ]
  /\ ~ (forall d, StronglySorted (orderedBy specPriority) (sortDiff d)).
Proof.
  split; [reflexivity|].
  intros H. specialize (H removedAndAdded).
  change (sortDiff removedAndAdded)
    with [ Removed {| r_originalLineNumber := 0; r_text := lit "old" |};
           Added {| a_modifiedLineNumber := 0; a_text := lit "new" |} ] in H.
  inversion H as [|? ? _ F]; subst.
  inversion F as [|? ? O _]; subst.
  unfold orderedBy in O; simpl in O. lia.
Qed.

End SortDiffSpec.

(** ** The texts of the changes of a modified line *)

Module LineChangesSpec.

Import DiffUtils DiffModel ListFacts.

Lemma changesText_app (keep : ChangeType -> bool) (l1 l2 : list LineChange) :
  changesText keep (l1 ++ l2) = changesText keep l1 ++ changesText keep l2.
Proof. unfold changesText. now rewrite filter_app, map_app, concat_app. Qed.

Lemma changesText_one (keep : ChangeType -> bool) (c : LineChange) :
  changesText keep [c] = if keep (type c) then text c else [].
Proof.
  unfold changesText; simpl.
  destruct (keep (type c)); simpl; now rewrite ?app_nil_r.
Qed.

Lemma rev_cons_inv {A} (l : list A) (x : A) (before : list A) :
  rev l = x :: before -> l = rev before ++ [x].
Proof. intros H. now rewrite <- (rev_involutive l), H. Qed.

Lemma skipn_cons_nth {A} (d : A) (a : list A) :
  forall i, i < length a -> skipn i a = nth i a d :: skipn (S i) a.
Proof.
  induction a as [|x a IH]; intros i H; simpl in H; [lia|].
  destruct i as [|i]; [reflexivity|].
  simpl. apply IH. lia.
Qed.

Lemma map_nth_slice {A} (d : A) (a : list A) (n : nat) :
  forall i, i + n <= length a ->
  map (fun k => nth (i + k) a d) (seq 0 n) = firstn n (skipn i a).
Proof.
  induction n as [|n IH]; intros i H; [reflexivity|].
  rewrite (skipn_cons_nth d) by lia.
  rewrite firstn_cons. cbn [seq map]. rewrite Nat.add_0_r. f_equal.
  rewrite <- seq_shift, map_map, <- (IH (S i)) by lia.
  apply map_ext. intros k. f_equal. lia.
Qed.

Lemma agree_slices (a b : list str) (i j n : nat) :
  agree a b i j n = true -> i + n <= length a -> j + n <= length b ->
  firstn n (skipn i a) = firstn n (skipn j b).
Proof.
  intros H Ha Hb.
  rewrite <- (@map_nth_slice str [] a n i Ha), <- (@map_nth_slice str [] b n j Hb).
  apply map_ext_in. intros k Hk.
  unfold agree in H. rewrite forallb_forall in H.
  specialize (H _ Hk). unfold str_eqb in H.
  now destruct (list_eq_dec ascii_dec (nth (i + k) a []) (nth (j + k) b [])).
Qed.

(** Three consecutive segments of a list. *)
Lemma skipn_segments {A} (l : list A) (i s e : nat) :
  i <= s -> s <= e ->
  skipn i l = firstn (s - i) (skipn i l) ++ firstn (e - s) (skipn s l) ++ skipn e l.
Proof.
  intros H1 H2.
  rewrite <- (firstn_skipn (s - i) (skipn i l)) at 1. f_equal.
  rewrite skipn_skipn. replace (s - i + i) with s by lia.
  rewrite <- (firstn_skipn (e - s) (skipn s l)) at 1. f_equal.
  rewrite skipn_skipn. now replace (e - s + s) with e by lia.
Qed.

(** *** The common whitespace prefix and suffix *)

Lemma commonWhitespacePrefix_spec (d i : str) :
  let p := commonWhitespacePrefix d i in
  p <= length d /\ p <= length i /\ firstn p d = firstn p i.
Proof.
  revert i; induction d as [|x d IH]; intros i; simpl; [repeat split; lia|].
  destruct i as [|y i]; simpl; [repeat split; lia|].
  destruct (Ascii.eqb x y && isWhitespace x) eqn:E; simpl;
    [|repeat split; lia].
  apply andb_true_iff in E as [E _]. apply Ascii.eqb_eq in E; subst y.
  destruct (IH i) as (H1 & H2 & H3). repeat split; try lia. now f_equal.
Qed.

Lemma commonWhitespaceSuffix_spec (p : nat) (d i : str) :
  p <= length d -> p <= length i ->
  let s := commonWhitespaceSuffix p d i in
  s <= length d - p /\ s <= length i - p
  /\ skipn (length d - s) d = skipn (length i - s) i.
Proof.
  intros Hd Hi. unfold commonWhitespaceSuffix.
  destruct (commonWhitespacePrefix_spec (rev (skipn p d)) (rev (skipn p i)))
    as (H1 & H2 & H3).
  set (s := commonWhitespacePrefix _ _) in *.
  rewrite length_rev, length_skipn in H1, H2.
  repeat split; try assumption.
  rewrite !firstn_rev, !length_skipn, !skipn_skipn in H3.
  apply (f_equal (@rev ascii)) in H3. rewrite !rev_involutive in H3.
  replace (length d - p - s + p) with (length d - s) in H3 by lia.
  now replace (length i - p - s + p) with (length i - s) in H3 by lia.
Qed.

(** The deleted (or inserted) text is its prefix, its core and its suffix. *)
Lemma text_pieces (t : str) (p s : nat) :
  p <= length t -> s <= length t - p ->
  t = slice 0 p t ++ slice p (length t - s) t ++ skipn (length t - s) t.
Proof.
  intros Hp Hs. unfold slice. rewrite Nat.sub_0_r. simpl (skipn 0 t).
  rewrite <- (firstn_skipn p t) at 1. f_equal.
  rewrite <- (firstn_skipn (length t - s - p) (skipn p t)) at 1. f_equal.
  rewrite skipn_skipn. f_equal. lia.
Qed.

(** *** The steps of computeLineChanges *)

Section Steps.

Variables ln1 ln2 : nat.

Section Unchanged.

Variable keep : ChangeType -> bool.
Hypothesis keep_unchanged : keep unchanged = true.

Lemma pushUnchangedChunk_text (st : LineState) (t : str) :
  changesText keep (ls_changes (pushUnchangedChunk ln1 ln2 st t))
  = changesText keep (ls_changes st) ++ t.
Proof.
  destruct t as [|c t]; [simpl; now rewrite app_nil_r|].
  unfold pushUnchangedChunk. cbn [ls_changes].
  destruct (rev (ls_changes st)) as [|prev before] eqn:E.
  - rewrite changesText_app, changesText_one. cbn [unchangedAt type text].
    now rewrite keep_unchanged.
  - apply rev_cons_inv in E.
    destruct (type prev) eqn:T.
    + rewrite E, !changesText_app, !changesText_one. cbn [type text].
      now rewrite T, keep_unchanged, app_assoc.
    + rewrite changesText_app, changesText_one. cbn [unchangedAt type text].
      now rewrite keep_unchanged.
    + rewrite changesText_app, changesText_one. cbn [unchangedAt type text].
      now rewrite keep_unchanged.
Qed.

Lemma pushUnchangedUntil_text (old : list str) (st : LineState)
  (oi ni t1 t2 : nat) :
  changesText keep (ls_changes (pushUnchangedUntil ln1 ln2 old st oi ni t1 t2))
  = changesText keep (ls_changes st) ++ concat (chunksUntil old oi ni t1 t2).
Proof.
  unfold pushUnchangedUntil.
  generalize (chunksUntil old oi ni t1 t2) as chunks. intros chunks.
  revert st; induction chunks as [|t chunks IH]; intros st; simpl.
  - now rewrite app_nil_r.
  - now rewrite IH, pushUnchangedChunk_text, app_assoc.
Qed.

Lemma pushRemainingChunk_text (st : LineState) (t : str) :
  changesText keep (ls_changes (pushRemainingChunk ln1 ln2 st t))
  = changesText keep (ls_changes st) ++ t.
Proof.
  destruct t as [|c t]; [simpl; now rewrite app_nil_r|].
  unfold pushRemainingChunk. cbn [ls_changes].
  rewrite changesText_app, changesText_one. cbn [unchangedAt type text].
  now rewrite keep_unchanged.
Qed.

Lemma pushRemaining_text (chunks : list str) :
  forall st,
  changesText keep (ls_changes (fold_left (pushRemainingChunk ln1 ln2) chunks st))
  = changesText keep (ls_changes st) ++ concat chunks.
Proof.
  induction chunks as [|t chunks IH]; intros st; simpl.
  - now rewrite app_nil_r.
  - now rewrite IH, pushRemainingChunk_text, app_assoc.
Qed.

End Unchanged.

(** The texts [pushChangedText] appends on either side. *)
Lemma pushChangedText_texts (st : LineState) (d i : str) :
  changesText isOriginalSide (ls_changes (pushChangedText ln1 ln2 st d i))
  = changesText isOriginalSide (ls_changes st) ++ d
  /\ changesText isModifiedSide (ls_changes (pushChangedText ln1 ln2 st d i))
     = changesText isModifiedSide (ls_changes st) ++ i.
Proof.
  unfold pushChangedText.
  destruct (commonWhitespacePrefix_spec d i) as (Hpd & Hpi & Hp).
  set (p := commonWhitespacePrefix d i) in *.
  destruct (@commonWhitespaceSuffix_spec p d i Hpd Hpi) as (Hsd & Hsi & Hs).
  set (s := commonWhitespaceSuffix p d i) in *.
  assert (Dd := @text_pieces d p s Hpd Hsd).
  assert (Di := @text_pieces i p s Hpi Hsi).
  assert (Ep : slice 0 p i = slice 0 p d).
  { unfold slice. now rewrite Nat.sub_0_r. }
  rewrite <- Hs, Ep in Di.
  assert (P0 : (0 <? p) = false -> slice 0 p d = []).
  { intros H. apply Nat.ltb_ge in H. now replace p with 0 by lia. }
  assert (S0 : (0 <? s) = false -> skipn (length d - s) d = []).
  { intros H. apply Nat.ltb_ge in H. apply skipn_all2. lia. }
  set (P := slice 0 p d) in *.
  set (Cd := slice p (length d - s) d) in *.
  set (Ci := slice p (length i - s) i) in *.
  set (S := skipn (length d - s) d) in *.
  clearbody P Cd Ci S p s.
  split.
  - rewrite Dd.
    destruct (0 <? p); [|rewrite (P0 eq_refl)];
      destruct Cd; destruct Ci;
      (destruct (0 <? s); [|rewrite (S0 eq_refl)]);
      cbn [ls_changes];
      rewrite ?changesText_app, ?changesText_one;
      cbn [unchangedAt type text isOriginalSide];
      now rewrite ?app_nil_r, <- ?app_assoc.
  - rewrite Di.
    destruct (0 <? p); [|rewrite (P0 eq_refl)];
      destruct Cd; destruct Ci;
      (destruct (0 <? s); [|rewrite (S0 eq_refl)]);
      cbn [ls_changes];
      rewrite ?changesText_app, ?changesText_one;
      cbn [unchangedAt type text isModifiedSide];
      now rewrite ?app_nil_r, <- ?app_assoc.
Qed.

Lemma pushHunk_texts (st : LineState) (d i : str) :
  changesText isOriginalSide (ls_changes (pushHunk ln1 ln2 st d i))
  = changesText isOriginalSide (ls_changes st) ++ d
  /\ changesText isModifiedSide (ls_changes (pushHunk ln1 ln2 st d i))
     = changesText isModifiedSide (ls_changes st) ++ i.
Proof.
  unfold pushHunk.
  destruct d as [|x d]; [destruct i as [|y i]|];
    try apply pushChangedText_texts.
  now rewrite !app_nil_r.
Qed.

End Steps.

(** *** computeLineChanges and createModifiedLineInfo *)

Section Changes.

Variable diff : list str -> list str -> list Hunk.
Variables ln1 ln2 : nat.
Variables old new : list str.

Lemma chunksUntil_slice (oi ni t1 t2 : nat) :
  t1 - oi = t2 - ni -> oi <= t1 -> t1 <= length old ->
  chunksUntil old oi ni t1 t2 = firstn (t1 - oi) (skipn oi old).
Proof.
  intros E H1 H2. unfold chunksUntil. rewrite <- E, Nat.min_id.
  apply map_nth_slice. lia.
Qed.

Lemma lineChangesLoop_texts (hunks : list Hunk) :
  forall st oi ni, validScriptFrom old new hunks oi ni = true ->
  changesText isOriginalSide
    (ls_changes (lineChangesLoop ln1 ln2 old new hunks st oi ni))
  = changesText isOriginalSide (ls_changes st) ++ concat (skipn oi old)
  /\ changesText isModifiedSide
       (ls_changes (lineChangesLoop ln1 ln2 old new hunks st oi ni))
     = changesText isModifiedSide (ls_changes st) ++ concat (skipn ni new).
Proof.
  induction hunks as [|[[[s1 e1] s2] e2] rest IH]; intros st oi ni V;
    cbn [lineChangesLoop validScriptFrom] in *.
  - split_valid V.
    rewrite !pushRemaining_text by reflexivity.
    rewrite chunksUntil_slice by lia.
    split.
    + now rewrite firstn_all2 by (rewrite length_skipn; lia).
    + rewrite (@agree_slices old new oi ni (length old - oi) V0) by lia.
      rewrite firstn_all2 by (rewrite length_skipn; lia). reflexivity.
  - split_valid V.
    destruct (IH (pushHunk ln1 ln2
                    (pushUnchangedUntil ln1 ln2 old st oi ni s1 s2)
                    (concat (slice s1 e1 old)) (concat (slice s2 e2 new)))
                 e1 e2 V0) as [Ho Hm].
    rewrite Ho, Hm.
    destruct (pushHunk_texts ln1 ln2
                (pushUnchangedUntil ln1 ln2 old st oi ni s1 s2)
                (concat (slice s1 e1 old)) (concat (slice s2 e2 new)))
      as [Po Pm].
    rewrite Po, Pm, !pushUnchangedUntil_text by reflexivity.
    rewrite chunksUntil_slice by lia.
    unfold slice. split.
    + rewrite (@skipn_segments _ old oi s1 e1) at 2 by lia.
      now rewrite !concat_app, <- !app_assoc.
    + rewrite (@agree_slices old new oi ni (s1 - oi) V1) by lia.
      rewrite (@skipn_segments _ new ni s2 e2) at 2 by lia.
      rewrite !concat_app, <- !app_assoc.
      now replace (s2 - ni) with (s1 - oi) by lia.
Qed.

(** Given an edit script of the chunks, the unchanged and deleted texts of
    [computeLineChanges] make up the old chunks, and the unchanged and
    inserted texts the new chunks. *)
Lemma computeLineChanges_texts :
  validScript old new (diff old new) = true ->
  changesText isOriginalSide (computeLineChanges diff ln1 ln2 old new)
  = concat old
  /\ changesText isModifiedSide (computeLineChanges diff ln1 ln2 old new)
     = concat new.
Proof.
  intros V. unfold computeLineChanges.
  destruct (lineChangesLoop_texts (diff old new)
              {| ls_changes := []; originalOffset := 0; modifiedOffset := 0 |}
              0 0 V) as [Ho Hm].
  now rewrite Ho, Hm.
Qed.

End Changes.

(** The chunks of [WORDS_AND_PUNCTUATION_REGEX] cover the line. *)
Lemma WORDS_AND_PUNCTUATION_REGEX_covers (line : str) :
  concat (WORDS_AND_PUNCTUATION_REGEX line) = line.
Proof.
  induction line as [|c rest IH]; [reflexivity|].
  cbn [WORDS_AND_PUNCTUATION_REGEX].
  destruct (WORDS_AND_PUNCTUATION_REGEX rest) as [|[|d w] chunks].
  - simpl in *. now rewrite <- IH.
  - simpl in *. now rewrite <- IH.
  - destruct ((isWordChar c && isWordChar d) || (isWhitespace c && isWhitespace d));
      simpl in *; now rewrite <- IH.
Qed.

(** The chunks of [CHARACTER_REGEX] are the line without its line
    terminators. *)
Lemma CHARACTER_REGEX_concat (line : str) :
  concat (CHARACTER_REGEX line)
  = filter (fun c => negb (isLineTerminator c)) line.
Proof.
  unfold CHARACTER_REGEX.
  induction (filter (fun c => negb (isLineTerminator c)) line) as [|c l IH];
    simpl; congruence.
Qed.

Lemma CHARACTER_REGEX_covers (line : str) :
  forallb (fun c => negb (isLineTerminator c)) line = true ->
  concat (CHARACTER_REGEX line) = line.
Proof.
  intros H. rewrite CHARACTER_REGEX_concat.
  rewrite forallb_forall in H.
  induction line as [|c l IH]; [reflexivity|].
  simpl. rewrite (H c) by now left. f_equal. apply IH.
  intros x Hx. apply H. now right.
Qed.

Section ModifiedLine.

Variable diff : list str -> list str -> list Hunk.

(** The invariant of a modified line, for the lines it holds for: when the
    lines have no line terminator, the chunks of [chunkRegex] cover both
    lines and [diff] returns edit scripts of the chunks, the unchanged and
    inserted texts make up the new text and the unchanged and deleted texts
    the old text. *)
Lemma createModifiedLineInfo_texts (p : LineParams) :
  forallb (fun c => negb (isLineTerminator c)) (originalText p) = true ->
  forallb (fun c => negb (isLineTerminator c)) (modifiedText p) = true ->
  concat (chunkRegex p (originalText p)) = originalText p ->
  concat (chunkRegex p (modifiedText p)) = modifiedText p ->
  validScript (CHARACTER_REGEX (originalText p)) (CHARACTER_REGEX (modifiedText p))
    (diff (CHARACTER_REGEX (originalText p)) (CHARACTER_REGEX (modifiedText p)))
  = true ->
  validScript (chunkRegex p (originalText p)) (chunkRegex p (modifiedText p))
    (diff (chunkRegex p (originalText p)) (chunkRegex p (modifiedText p)))
  = true ->
  changesText isModifiedSide (changes (createModifiedLineInfo diff p))
  = newText (createModifiedLineInfo diff p)
  /\ changesText isOriginalSide (changes (createModifiedLineInfo diff p))
     = oldText (createModifiedLineInfo diff p).
Proof.
  intros To Tm Co Cm Vc Vw.
  unfold createModifiedLineInfo. cbn [changes newText oldText].
  destruct (computeLineChanges_texts diff (originalLineNumber p)
              (modifiedLineNumber p) _ _ Vc) as [Hco Hcm].
  destruct (computeLineChanges_texts diff (originalLineNumber p)
              (modifiedLineNumber p) _ _ Vw) as [Hwo Hwm].
  rewrite (CHARACTER_REGEX_covers _ To) in Hco.
  rewrite (CHARACTER_REGEX_covers _ Tm) in Hcm.
  rewrite Co in Hwo. rewrite Cm in Hwm.
  destruct (negb (isSimpleLineDiff _)); split; assumption.
Qed.

(** C2.  The invariant fails for lines that end in a carriage return: the
    changes computed on characters leave the carriage return out, while the
    old and the new text have it.  The lines "foo\r" and "bar\r" differ in
    their first three characters, which the edit script replaces. *)
Theorem carriage_return_lost :
  diff (CHARACTER_REGEX (originalText carriageReturnPair))
       (CHARACTER_REGEX (modifiedText carriageReturnPair))
  = [(0, 3, 0, 3)] ->
  changesText isModifiedSide (changes (createModifiedLineInfo diff carriageReturnPair))
  = lit "bar"
  /\ newText (createModifiedLineInfo diff carriageReturnPair) = lit "bar" ++ [CR]
  /\ changesText isOriginalSide
       (changes (createModifiedLineInfo diff carriageReturnPair))
     = lit "foo"
  /\ oldText (createModifiedLineInfo diff carriageReturnPair) = lit "foo" ++ [CR].
Proof.
  intros H.
  unfold createModifiedLineInfo, getModifiedLineChanges, computeLineChanges,
    splitLineIntoChunks.
  cbn [withCharacterRegex originalText modifiedText chunkRegex
       originalLineNumber modifiedLineNumber changes newText oldText].
  rewrite H. vm_compute. repeat split; reflexivity.
Qed.

End ModifiedLine.

Lemma carriage_return_lost_witness :
  changesText isModifiedSide
    (changes (createModifiedLineInfo lcsDiff carriageReturnPair))
  = lit "bar"
  /\ newText (createModifiedLineInfo lcsDiff carriageReturnPair)
     = lit "bar" ++ [CR].
Proof.
  destruct (carriage_return_lost lcsDiff) as (H1 & H2 & _).
  - vm_compute. reflexivity.
  - split; [exact H1|exact H2].
Defined.

(** The same through [getDecorationInfo]: the texts "foo\r" and "bar\r" have
    no line feed and are one line each. *)
Lemma carriage_return_lost_in_decoration :
  map (fun m => (changesText isModifiedSide (changes m), newText m))
      (modifiedLines
         (getDecorationInfo lcsDiff firstNewLine
            (lit "foo" ++ [CR]) (lit "bar" ++ [CR]) WORDS_AND_PUNCTUATION_REGEX))
  = [(lit "bar", lit "bar" ++ [CR])].
Proof. vm_compute. reflexivity. Qed.

End LineChangesSpec.

(** ** The reference diff *)

Module LcsDiffSpec.

Import DiffUtils DiffModel ListFacts DiffSpec LineChangesSpec.

Lemma lcsScript_nil_l (b : list str) : lcsScript [] b = map (fun _ => Ins) b.
Proof. now destruct b. Qed.

Lemma lcsScript_nil_r (a : list str) : lcsScript a [] = map (fun _ => Del) a.
Proof. now destruct a. Qed.

Lemma lcsScript_cons (x y : str) (a b : list str) :
  lcsScript (x :: a) (y :: b)
  = if str_eqb x y then Keep :: lcsScript a b
    else if editCost (Del :: lcsScript a (y :: b))
            <=? editCost (Ins :: lcsScript (x :: a) b)
         then Del :: lcsScript a (y :: b)
         else Ins :: lcsScript (x :: a) b.
Proof. reflexivity. Qed.

Lemma editScript_all_ins (b : list str) : editScript (map (fun _ => Ins) b) [] b.
Proof. induction b; simpl; constructor; assumption. Qed.

Lemma editScript_all_del (a : list str) : editScript (map (fun _ => Del) a) a [].
Proof. induction a; simpl; constructor; assumption. Qed.

Lemma lcsScript_editScript (a : list str) :
  forall b, editScript (lcsScript a b) a b.
Proof.
  induction a as [|x a IHa]; intros b.
  - rewrite lcsScript_nil_l. apply editScript_all_ins.
  - induction b as [|y b IHb].
    + rewrite lcsScript_nil_r. apply editScript_all_del.
    + rewrite lcsScript_cons.
      destruct (str_eqb x y) eqn:E.
      * apply str_eqb_eq in E; subst y. constructor. apply IHa.
      * destruct (_ <=? _); constructor; [apply IHa|apply IHb].
Qed.

Lemma agree_snoc (a b : list str) (i j n : nat) :
  agree a b i j n = true -> nth (i + n) a [] = nth (j + n) b [] ->
  agree a b i j (S n) = true.
Proof.
  unfold agree. intros H E. rewrite seq_S, forallb_app, H. simpl.
  rewrite E. now rewrite (proj2 (str_eqb_eq _ _) eq_refl).
Qed.

Lemma skipn_cons_inv {A} (d : A) (l : list A) (i : nat) (x : A) (l' : list A) :
  skipn i l = x :: l' -> i < length l /\ nth i l d = x /\ skipn (S i) l = l'.
Proof.
  intros H.
  assert (L : i < length l).
  { destruct (Nat.lt_ge_cases i (length l)) as [L|L]; [exact L|].
    rewrite skipn_all2 in H by exact L. discriminate. }
  rewrite (@skipn_cons_nth _ d l i L) in H. now injection H.
Qed.

Lemma skipn_nil_inv {A} (l : list A) (i : nat) :
  skipn i l = [] -> length l <= i.
Proof.
  intros H. apply (f_equal (@length A)) in H.
  rewrite length_skipn in H. simpl in H. lia.
Qed.

Lemma editScript_nil_inv (a b : list str) :
  editScript [] a b -> a = [] /\ b = [].
Proof. intros H. inversion H. now split. Qed.

Lemma editScript_keep_inv (ops : list EditOp) (a b : list str) :
  editScript (Keep :: ops) a b ->
  exists x a' b', a = x :: a' /\ b = x :: b' /\ editScript ops a' b'.
Proof. intros H. inversion H; subst. now eexists _, _, _. Qed.

Lemma editScript_del_inv (ops : list EditOp) (a b : list str) :
  editScript (Del :: ops) a b ->
  exists x a', a = x :: a' /\ editScript ops a' b.
Proof. intros H. inversion H; subst. now eexists _, _. Qed.

Lemma editScript_ins_inv (ops : list EditOp) (a b : list str) :
  editScript (Ins :: ops) a b ->
  exists y b', b = y :: b' /\ editScript ops a b'.
Proof. intros H. inversion H; subst. now eexists _, _. Qed.

Ltac solve_valid :=
  repeat (apply andb_true_iff; split);
  first [ apply Nat.leb_le; lia | apply Nat.eqb_eq; lia | assumption | idtac ].

Section Hunks.

Variables a b : list str.

(** The hunks of an edit script of the rest of the arrays, read from a point
    from which the arrays have agreed ([i0], [j0]): with no open hunk, and
    with the open hunk that spans [s1 .. i] and [s2 .. j]. *)
Lemma hunksOf_valid (ops : list EditOp) :
  forall i j, editScript ops (skipn i a) (skipn j b) ->
  i <= length a -> j <= length b ->
  (forall i0 j0 n, i0 + n = i -> j0 + n = j -> agree a b i0 j0 n = true ->
     validScriptFrom a b (hunksOf ops i j None) i0 j0 = true)
  /\ (forall s1 s2 i0 j0,
        i0 <= s1 -> j0 <= s2 -> s1 - i0 = s2 - j0 ->
        agree a b i0 j0 (s1 - i0) = true -> s1 <= i -> s2 <= j ->
        validScriptFrom a b (hunksOf ops i j (Some (s1, i, s2, j))) i0 j0 = true).
Proof.
  induction ops as [|op ops IH]; intros i j S Hi Hj.
  - apply editScript_nil_inv in S as [Ea Eb].
    apply skipn_nil_inv in Ea, Eb.
    assert (i = length a) by lia. assert (j = length b) by lia. subst i j.
    split.
    + intros i0 j0 n E1 E2 G. cbn [hunksOf validScriptFrom].
      replace (length a - i0) with n by lia.
      solve_valid.
    + intros s1 s2 i0 j0 H1 H2 E G H3 H4. cbn [hunksOf validScriptFrom].
      rewrite !Nat.sub_diag. solve_valid. reflexivity.
  - destruct op.
    + (* Keep *)
      apply editScript_keep_inv in S as (x & a' & b' & Ea & Eb & S').
      apply (skipn_cons_inv []) in Ea as (La & Na & Sa).
      apply (skipn_cons_inv []) in Eb as (Lb & Nb & Sb).
      rewrite <- Sa, <- Sb in S'.
      destruct (IH (S i) (S j) S' La Lb) as [IHn _].
      split.
      * intros i0 j0 n E1 E2 G. cbn [hunksOf].
        apply (IHn i0 j0 (S n)); try lia.
        apply agree_snoc; [exact G|]. rewrite E1, E2. exact (eq_trans Na (eq_sym Nb)).
      * intros s1 s2 i0 j0 H1 H2 E G H3 H4. cbn [hunksOf validScriptFrom].
        solve_valid.
        apply (IHn i j 1); try lia.
        unfold agree. cbn [seq forallb]. rewrite !Nat.add_0_r.
        now rewrite (proj2 (str_eqb_eq (nth i a []) (nth j b []))
                       (eq_trans Na (eq_sym Nb))).
    + (* Del *)
      apply editScript_del_inv in S as (x & a' & Ea & S').
      apply (skipn_cons_inv []) in Ea as (La & _ & Sa).
      rewrite <- Sa in S'.
      destruct (IH (S i) j S' La Hj) as [_ IHs].
      split.
      * intros i0 j0 n E1 E2 G. cbn [hunksOf].
        apply IHs; try lia. now replace (i - i0) with n by lia.
      * intros s1 s2 i0 j0 H1 H2 E G H3 H4. cbn [hunksOf].
        apply IHs; try lia. exact G.
    + (* Ins *)
      apply editScript_ins_inv in S as (y & b' & Eb & S').
      apply (skipn_cons_inv []) in Eb as (Lb & _ & Sb).
      rewrite <- Sb in S'.
      destruct (IH i (S j) S' Hi Lb) as [_ IHs].
      split.
      * intros i0 j0 n E1 E2 G. cbn [hunksOf].
        apply IHs; try lia. now replace (i - i0) with n by lia.
      * intros s1 s2 i0 j0 H1 H2 E G H3 H4. cbn [hunksOf].
        apply IHs; try lia. exact G.
Qed.

(** The reference diff returns an edit script: with it, the round trip holds
    for all texts. *)
Lemma lcsDiff_valid : validScript a b (lcsDiff a b) = true.
Proof.
  unfold validScript, lcsDiff.
  destruct (@hunksOf_valid (lcsScript a b) 0 0) as [H _].
  - apply lcsScript_editScript.
  - lia.
  - lia.
  - now apply (H 0 0 0).
Qed.

End Hunks.

(** The reference diff of an array and itself has no hunk: with it, the
    idempotence holds for all texts. *)
Lemma lcsDiff_same (a : list str) : lcsDiff a a = [].
Proof.
  unfold lcsDiff.
  assert (E : lcsScript a a = map (fun _ => Keep) a).
  { induction a as [|x a IH]; [reflexivity|].
    rewrite lcsScript_cons, (proj2 (str_eqb_eq x x) eq_refl), IH. reflexivity. }
  rewrite E. generalize 0 at 1 as i. generalize 0 as j.
  induction a as [|x a IH]; intros j i; [reflexivity|].
  simpl. apply IH. now rewrite lcsScript_cons, (proj2 (str_eqb_eq x x) eq_refl) in E;
    injection E.
Qed.

(** With the reference diff and the default chunks, the invariant of a
    modified line holds for all lines without line terminators. *)
Corollary lcsDiff_line_texts (n1 n2 : nat) (old new : str) :
  forallb (fun c => negb (isLineTerminator c)) old = true ->
  forallb (fun c => negb (isLineTerminator c)) new = true ->
  let m := createModifiedLineInfo lcsDiff
             {| originalLineNumber := n1; modifiedLineNumber := n2;
                originalText := old; modifiedText := new;
                chunkRegex := WORDS_AND_PUNCTUATION_REGEX |} in
  changesText isModifiedSide (changes m) = new
  /\ changesText isOriginalSide (changes m) = old.
Proof.
  intros To Tn.
  apply (createModifiedLineInfo_texts lcsDiff
           {| originalLineNumber := n1; modifiedLineNumber := n2;
              originalText := old; modifiedText := new;
              chunkRegex := WORDS_AND_PUNCTUATION_REGEX |});
    try assumption;
    try apply WORDS_AND_PUNCTUATION_REGEX_covers;
    apply lcsDiff_valid.
Qed.

End LcsDiffSpec.

(** * Properties of the Deep Cody agent *)

Module DeepCodySpec.

Import DeepCody.

(** ** Running a computation *)

Lemma bind_run {A B} (m : M A) (k : A -> M B) (st : State) :
  bind m k st = k (fst (m st)) (snd (m st)).
Proof. unfold bind. now destruct (m st). Qed.

Lemma countEvents_app (p : Event -> bool) (l1 l2 : list Event) :
  countEvents p (l1 ++ l2) = countEvents p l1 + countEvents p l2.
Proof. unfold countEvents. now rewrite filter_app, length_app. Qed.

Lemma sameFields_refl (st : State) : sameFields st st.
Proof. now repeat split. Qed.

Lemma sameFields_trans (st1 st2 st3 : State) :
  sameFields st1 st2 -> sameFields st2 st3 -> sameFields st1 st3.
Proof. unfold sameFields. intuition congruence. Qed.

Lemma quiet_refl (p : Event -> bool) (st : State) : quiet p st st.
Proof. split; [apply sameFields_refl|reflexivity]. Qed.

Lemma quiet_trans (p : Event -> bool) (st1 st2 st3 : State) :
  quiet p st1 st2 -> quiet p st2 st3 -> quiet p st1 st3.
Proof.
  intros [F1 C1] [F2 C2]. split; [eapply sameFields_trans; eauto|congruence].
Qed.

Section Frames.

Variable env : Env.
Variable p : Event -> bool.

Lemma emit_count (e : Event) (st : State) :
  sameFields st (snd (emit e st))
  /\ countEvents p (trace (snd (emit e st)))
     = countEvents p (trace st) + (if p e then 1 else 0).
Proof.
  split; [now repeat split|].
  cbn [emit snd trace]. rewrite countEvents_app.
  unfold countEvents at 2. simpl. now destruct (p e).
Qed.

Lemma emit_quiet (e : Event) (st : State) :
  p e = false -> quiet p st (snd (emit e st)).
Proof.
  intros H. destruct (emit_count e st) as [F C].
  split; [exact F|]. rewrite C, H. lia.
Qed.

Lemma aborted_quiet (st : State) : quiet p st (snd (aborted env st)).
Proof. now repeat split. Qed.

Lemma aborted_trace (st : State) : trace (snd (aborted env st)) = trace st.
Proof. reflexivity. Qed.

Lemma aborted_stats_loop (st : State) :
  stats_loop (snd (aborted env st)) = stats_loop st.
Proof. reflexivity. Qed.

Lemma consumeStream_quiet (stream : list StreamMessage) :
  (forall s, p (Publish s) = false) ->
  forall accumulated st,
  quiet p st (snd (consumeStream env stream accumulated st)).
Proof.
  intros Hp. induction stream as [|msg rest IH]; intros acc st;
    cbn [consumeStream]; [apply quiet_refl|].
  rewrite bind_run.
  destruct (fst (aborted env st)); [apply aborted_quiet|].
  destruct msg as [text| |e]; cbn [ret snd]; try apply aborted_quiet.
  rewrite bind_run.
  eapply quiet_trans; [apply aborted_quiet|].
  eapply quiet_trans; [apply emit_quiet, Hp|]. apply IH.
Qed.

(** The [catch] block of a tool records a status or nothing. *)
Lemma toolFailed_quiet (tool : CodyTool) (e : Thrown) (st : State) :
  (forall id err, p (Completed id err) = false) ->
  quiet p st (snd (toolFailed tool e st)).
Proof.
  intros Hp. unfold toolFailed.
  destruct (errorMessage e) as [message|raised]; [|apply quiet_refl].
  rewrite bind_run. cbn [ret snd]. apply emit_quiet, Hp.
Qed.

(** The tools leave the agent alone; the statuses of the tools that throw
    are all they record. *)
Lemma runNonMcpTool_quiet (tool : CodyTool) (st : State) :
  (forall id err, p (Completed id err) = false) ->
  quiet p st (snd (runNonMcpTool env tool st)).
Proof.
  intros Hp. unfold runNonMcpTool. rewrite bind_run.
  destruct (fst (aborted env st)); [apply aborted_quiet|].
  rewrite bind_run. cbn [getState fst snd].
  destruct (run tool _) as [items|e]; [apply aborted_quiet|].
  rewrite bind_run.
  eapply quiet_trans; [apply aborted_quiet|].
  eapply quiet_trans; [apply (toolFailed_quiet tool e), Hp|].
  destruct (fst (toolFailed tool e _)); apply quiet_refl.
Qed.

Lemma runNonMcpTools_quiet (ts : list CodyTool) :
  (forall id err, p (Completed id err) = false) ->
  forall st, quiet p st (snd (runNonMcpTools env ts st)).
Proof.
  intros Hp. induction ts as [|tool rest IH]; intros st;
    cbn [runNonMcpTools]; [apply quiet_refl|].
  rewrite !bind_run. cbn [ret snd].
  eapply quiet_trans; [|apply IH]. now apply runNonMcpTool_quiet.
Qed.

Lemma runMcpTools_quiet (ts : list CodyTool) :
  (forall id err, p (Completed id err) = false) ->
  forall st, quiet p st (snd (runMcpTools env ts st)).
Proof.
  intros Hp. induction ts as [|tool rest IH]; intros st;
    cbn [runMcpTools]; [apply quiet_refl|].
  rewrite bind_run.
  destruct (fst (aborted env st)); [apply aborted_quiet|].
  rewrite bind_run. cbn [getState fst snd].
  destruct (run tool _) as [result|e].
  - rewrite bind_run.
    eapply quiet_trans; [apply aborted_quiet|].
    eapply quiet_trans; [apply IH|].
    destruct (fst (runMcpTools env rest _)); apply quiet_refl.
  - rewrite bind_run.
    eapply quiet_trans; [apply aborted_quiet|].
    eapply quiet_trans; [apply (toolFailed_quiet tool e), Hp|].
    destruct (fst (toolFailed tool e _)); [|apply quiet_refl].
    rewrite bind_run.
    eapply quiet_trans; [apply IH|].
    destruct (fst (runMcpTools env rest _)); apply quiet_refl.
Qed.

End Frames.

Ltac run_state :=
  repeat first
    [ rewrite bind_run
    | progress (cbn [emit emitAll setContext addStatsContext incrStatsLoop
                     getState ret fst snd trace context stats_loop
                     stats_context reads]) ].

Lemma countEvents_snoc (p : Event -> bool) (l : list Event) (e : Event) :
  countEvents p (l ++ [e]) = countEvents p l + (if p e then 1 else 0).
Proof.
  rewrite countEvents_app. unfold countEvents at 2. simpl. now destruct (p e).
Qed.

Lemma countEvents_nil (p : Event -> bool) : countEvents p [] = 0.
Proof. reflexivity. Qed.

Lemma str_eqb_refl (a : str) : str_eqb a a = true.
Proof. unfold str_eqb. now destruct (list_eq_dec ascii_dec a a). Qed.

Lemma str_eqb_neq (a b : str) : a <> b -> str_eqb a b = false.
Proof. unfold str_eqb. now destruct (list_eq_dec ascii_dec a b). Qed.

(** ** reflect *)

Section Reflect.

Variable env : Env.

Lemma reflect_context (names : list str) (st : State) :
  context (snd (reflect env names st))
  = reflectedContext env names (context st).
Proof.
  unfold reflect, reflectedContext. run_state.
  destruct names as [|name names]; [reflexivity|].
  destruct (context st) as [|c ctx] eqn:E; [run_state; now rewrite E|].
  run_state. now destruct (reviewedItems _ _ _); run_state.
Qed.

Lemma reflect_stats_loop (names : list str) (st : State) :
  stats_loop (snd (reflect env names st)) = stats_loop st.
Proof.
  unfold reflect. run_state.
  destruct names as [|name names]; [reflexivity|].
  destruct (context st) as [|c ctx]; [reflexivity|].
  run_state. now destruct (reviewedItems _ _ _); run_state.
Qed.

Lemma reflect_count (p : Event -> bool) (names : list str) (st : State) :
  (forall e, isProgress e = true -> p e = false) ->
  countEvents p (trace (snd (reflect env names st))) = countEvents p (trace st).
Proof.
  intros Hp. unfold reflect. run_state.
  destruct names as [|name names]; [reflexivity|].
  destruct (context st) as [|c ctx]; [reflexivity|].
  run_state.
  destruct (reviewedItems _ _ _); run_state;
    rewrite !countEvents_snoc, !Hp by reflexivity; lia.
Qed.

(** The items of the context that the user has added are in the context
    [reflect] leaves. *)
Lemma reflectedContext_keeps_user (names : list str) (ctx : list ContextItem)
  (c : ContextItem) :
  In c ctx -> isUserAddedItem c = true -> In c (reflectedContext env names ctx).
Proof.
  intros I U. unfold reflectedContext.
  destruct names as [|name names]; [assumption|].
  destruct ctx as [|c0 ctx]; [assumption|].
  destruct (reviewedItems _ _ _) as [|r reviewed]; [assumption|].
  apply in_or_app. right. apply filter_In. split; [assumption|].
  now rewrite U.
Qed.

End Reflect.

(** ** processStream, retrieve and review *)

Section Review.

Variable env : Env.

Lemma notifyTurnComplete_fields (st : State) :
  sameFields st (snd (notifyTurnComplete env st)).
Proof. now repeat split. Qed.

(** One notification reaches the subscriber of a tag once. *)
Lemma count_turnComplete (t : str) (tags : list str) :
  NoDup tags -> In t tags ->
  countEvents (isTurnCompleteOf t) (map TurnComplete tags) = 1.
Proof.
  unfold countEvents.
  induction tags as [|x tags IH]; intros N I; [contradiction|].
  inversion N as [|? ? Nx Nt]; subst. simpl.
  destruct (list_eq_dec ascii_dec t x) as [->|Ne].
  - rewrite str_eqb_refl. simpl. f_equal.
    clear IH I N Nt. induction tags as [|y tags IH]; [reflexivity|].
    simpl. rewrite str_eqb_neq.
    + apply IH. intros H. apply Nx. now right.
    + intros ->. apply Nx. now left.
  - rewrite str_eqb_neq by assumption. apply IH; [assumption|].
    destruct I as [E|I]; [congruence|assumption].
Qed.

Lemma notifyTurnComplete_count (t : str) (st : State) :
  In t (subscribedTags env) ->
  turnCompletes t (snd (notifyTurnComplete env st)) = turnCompletes t st + 1.
Proof.
  intros I. unfold turnCompletes, notifyTurnComplete. run_state.
  rewrite countEvents_app, count_turnComplete; [reflexivity| |exact I].
  apply NoDup_nodup.
Qed.

Lemma notifyTurnComplete_other (p : Event -> bool) (st : State) :
  (forall t, p (TurnComplete t) = false) ->
  countEvents p (trace (snd (notifyTurnComplete env st)))
  = countEvents p (trace st).
Proof.
  intros Hp. unfold notifyTurnComplete. run_state.
  rewrite countEvents_app. unfold countEvents at 2.
  induction (subscribedTags env) as [|t ts IH]; simpl; [lia|].
  now rewrite Hp.
Qed.

Lemma processStream_fields (st : State) :
  sameFields st (snd (processStream env st)).
Proof.
  unfold processStream. run_state.
  destruct (chat env _ _) as [stream|e]; [|apply sameFields_refl].
  run_state.
  destruct (consumeStream_quiet env (fun _ => false) stream
              (fun _ => eq_refl) [] st) as [F _].
  eapply sameFields_trans; [exact F|].
  destruct (fst (consumeStream env stream [] st)); run_state;
    now repeat split.
Qed.

Lemma processStream_count (p : Event -> bool) (st : State) :
  (forall e, isProgress e = true -> p e = false) ->
  (forall t, p (TurnComplete t) = false) ->
  countEvents p (trace (snd (processStream env st))) = countEvents p (trace st).
Proof.
  intros Hp Ht. unfold processStream. run_state.
  destruct (chat env _ _) as [stream|e]; [|reflexivity].
  run_state.
  destruct (consumeStream_quiet env p stream
              (fun s => Hp (Publish s) eq_refl) [] st) as [_ C].
  destruct (fst (consumeStream env stream [] st)); run_state;
    now rewrite notifyTurnComplete_other.
Qed.

(** What is left of the [try] block once the tools have run. *)
Lemma collect_result (res : str) (newContext : list ContextItem) (st : State) :
  fst (collect env res newContext st) = newContext.
Proof. unfold collect. run_state. reflexivity. Qed.

Lemma collect_context (res : str) (newContext : list ContextItem) (st : State) :
  context (snd (collect env res newContext st))
  = reflectedContext env (RawTextProcessor.extract res (contextTag env))
      (context st).
Proof.
  unfold collect. run_state. rewrite reflect_context.
  now destruct newContext; run_state.
Qed.

Lemma collect_stats_loop (res : str) (newContext : list ContextItem) (st : State) :
  stats_loop (snd (collect env res newContext st)) = stats_loop st.
Proof.
  unfold collect. run_state. rewrite reflect_stats_loop.
  now destruct newContext; run_state.
Qed.

Lemma collect_count (p : Event -> bool) (res : str)
  (newContext : list ContextItem) (st : State) :
  (forall e, isProgress e = true -> p e = false) ->
  countEvents p (trace (snd (collect env res newContext st)))
  = countEvents p (trace st).
Proof.
  intros Hp. unfold collect. run_state. rewrite reflect_count by assumption.
  destruct newContext; run_state; [reflexivity|].
  rewrite countEvents_snoc, Hp by reflexivity. lia.
Qed.

(** [retrieve], step by step. *)
Lemma retrieve_run (res : str) (st : State) :
  res <> [] -> isReadyToAnswer env res = false ->
  let st1 := snd (emit (UpdateTitle MainProcess (lit "Retrieving context")) st) in
  let r1 := runNonMcpTools env
              (filter (fun tool => negb (isMcpTool tool)) (tools env)) st1 in
  let r2 := runMcpTools env (filter isMcpTool (tools env)) (snd r1) in
  retrieve env res st
  = match promiseAll (fst r1) with
    | Rejected raised => (Rejected raised, snd r1)
    | Resolved nonMcpResults =>
        match fst r2 with
        | Rejected raised => (Rejected raised, snd r2)
        | Resolved mcpResults =>
            let newContext :=
              definedItems (concat nonMcpResults ++ concat mcpResults) in
            (Resolved newContext, snd (collect env res newContext (snd r2)))
        end
    end.
Proof.
  intros Hres Hready. unfold retrieve.
  destruct res as [|c res]; [congruence|].
  rewrite Hready. run_state.
  destruct (promiseAll _) as [nonMcpResults|raised]; [|reflexivity].
  run_state.
  destruct (fst (runMcpTools env _ _)) as [mcpResults|raised]; [|reflexivity].
  run_state. now rewrite collect_result.
Qed.

Lemma runNonMcpTools_fields (ts : list CodyTool) (st : State) :
  sameFields st (snd (runNonMcpTools env ts st)).
Proof.
  now destruct (runNonMcpTools_quiet env (fun _ => false) ts
                  (fun _ _ => eq_refl) st).
Qed.

Lemma runMcpTools_fields (ts : list CodyTool) (st : State) :
  sameFields st (snd (runMcpTools env ts st)).
Proof.
  now destruct (runMcpTools_quiet env (fun _ => false) ts
                  (fun _ _ => eq_refl) st).
Qed.

(** The context and the counter of loops after the tools have run. *)
Lemma tools_fields (st : State) :
  let st1 := snd (emit (UpdateTitle MainProcess (lit "Retrieving context")) st) in
  let r1 := runNonMcpTools env
              (filter (fun tool => negb (isMcpTool tool)) (tools env)) st1 in
  let r2 := runMcpTools env (filter isMcpTool (tools env)) (snd r1) in
  sameFields st (snd r1) /\ sameFields st (snd r2).
Proof.
  cbv zeta.
  assert (F1 := runNonMcpTools_fields
                  (filter (fun tool => negb (isMcpTool tool)) (tools env))
                  (snd (emit (UpdateTitle MainProcess (lit "Retrieving context"))
                          st))).
  split; [exact F1|].
  eapply sameFields_trans; [exact F1|apply runMcpTools_fields].
Qed.

Lemma tools_count (p : Event -> bool) (st : State) :
  (forall e, isProgress e = true -> p e = false) ->
  (forall id err, p (Completed id err) = false) ->
  let st1 := snd (emit (UpdateTitle MainProcess (lit "Retrieving context")) st) in
  let r1 := runNonMcpTools env
              (filter (fun tool => negb (isMcpTool tool)) (tools env)) st1 in
  let r2 := runMcpTools env (filter isMcpTool (tools env)) (snd r1) in
  countEvents p (trace (snd r1)) = countEvents p (trace st)
  /\ countEvents p (trace (snd r2)) = countEvents p (trace st).
Proof.
  intros Hp Hc. cbv zeta.
  destruct (@emit_quiet p (UpdateTitle MainProcess (lit "Retrieving context"))
              st (Hp (UpdateTitle MainProcess (lit "Retrieving context"))
                    eq_refl)) as (_ & E0).
  destruct (runNonMcpTools_quiet env p
              (filter (fun tool => negb (isMcpTool tool)) (tools env)) Hc
              (snd (emit (UpdateTitle MainProcess (lit "Retrieving context"))
                      st))) as (_ & E1).
  split; [congruence|].
  destruct (runMcpTools_quiet env p (filter isMcpTool (tools env)) Hc
              (snd (runNonMcpTools env
                      (filter (fun tool => negb (isMcpTool tool)) (tools env))
                      (snd (emit (UpdateTitle MainProcess
                                    (lit "Retrieving context")) st)))))
    as (_ & E2).
  congruence.
Qed.

(** [reflect] is reached unless the [catch] block of a tool throws. *)
Lemma retrieve_context (res : str) (st : State) :
  context (snd (retrieve env res st))
  = match fst (retrieve env res st) with
    | Resolved _ => reflectedContext env (namesOf env res) (context st)
    | Rejected _ => context st
    end.
Proof.
  unfold namesOf.
  destruct res as [|c res]; [reflexivity|].
  destruct (isReadyToAnswer env (c :: res)) eqn:R.
  - unfold retrieve. now rewrite R.
  - rewrite retrieve_run by (assumption || discriminate). cbv zeta.
    destruct (tools_fields st) as ((E1 & _) & (E2 & _)). cbv zeta in E1, E2.
    destruct (promiseAll _) as [nonMcpResults|raised]; [|exact E1].
    destruct (fst (runMcpTools env _ _)) as [mcpResults|raised]; [|exact E2].
    cbn [fst snd]. now rewrite collect_context, E2.
Qed.

Lemma retrieve_stats_loop (res : str) (st : State) :
  stats_loop (snd (retrieve env res st)) = stats_loop st.
Proof.
  destruct res as [|c res]; [reflexivity|].
  destruct (isReadyToAnswer env (c :: res)) eqn:R.
  - unfold retrieve. now rewrite R.
  - rewrite retrieve_run by (assumption || discriminate). cbv zeta.
    destruct (tools_fields st) as ((_ & _ & E1) & (_ & _ & E2)).
    cbv zeta in E1, E2.
    destruct (promiseAll _) as [nonMcpResults|raised]; [|exact E1].
    destruct (fst (runMcpTools env _ _)) as [mcpResults|raised]; [|exact E2].
    cbn [fst snd]. now rewrite collect_stats_loop.
Qed.

Lemma retrieve_count (p : Event -> bool) (res : str) (st : State) :
  (forall e, isProgress e = true -> p e = false) ->
  (forall id err, p (Completed id err) = false) ->
  countEvents p (trace (snd (retrieve env res st))) = countEvents p (trace st).
Proof.
  intros Hp Hc.
  destruct res as [|c res]; [reflexivity|].
  destruct (isReadyToAnswer env (c :: res)) eqn:R.
  - unfold retrieve. now rewrite R.
  - rewrite retrieve_run by (assumption || discriminate). cbv zeta.
    destruct (tools_count p st Hp Hc) as (E1 & E2). cbv zeta in E1, E2.
    destruct (promiseAll _) as [nonMcpResults|raised]; [|exact E1].
    destruct (fst (runMcpTools env _ _)) as [mcpResults|raised]; [|exact E2].
    cbn [fst snd]. now rewrite collect_count.
Qed.

(** [review] in terms of its [try] block. *)
Lemma tryReview_run (st : State) :
  tryReview env st
  = match fst (processStream env st) with
    | Resolved res => retrieve env res (snd (processStream env st))
    | Rejected e => (Rejected e, snd (processStream env st))
    end.
Proof.
  unfold tryReview. rewrite bind_run.
  now destruct (fst (processStream env st)).
Qed.

Lemma review_run (st : State) :
  review env st
  = match fst (tryReview env st) with
    | Resolved newContext => (newContext, snd (tryReview env st))
    | Rejected e =>
        ([], snd (emit (LogDebug (lit "context review failed: ") e)
                    (snd (notifyTurnComplete env (snd (tryReview env st))))))
    end.
Proof.
  unfold review. rewrite bind_run.
  destruct (fst (tryReview env st)); [now destruct (tryReview env st)|].
  now rewrite !bind_run.
Qed.

Lemma tryReview_context (st : State) :
  context (snd (tryReview env st))
  = reflectedContext env (reflectedNames env st) (context st).
Proof.
  rewrite tryReview_run. unfold reflectedNames, toolCatchFails, reviewNames.
  destruct (processStream_fields st) as (E & _).
  destruct (fst (processStream env st)) as [res|e].
  - rewrite retrieve_context, E.
    destruct (fst (retrieve env res _)); [reflexivity|].
    now destruct (context st).
  - cbn [snd]. rewrite E. now destruct (context st).
Qed.

Lemma tryReview_stats_loop (st : State) :
  stats_loop (snd (tryReview env st)) = stats_loop st.
Proof.
  rewrite tryReview_run.
  destruct (processStream_fields st) as (_ & _ & E).
  destruct (fst (processStream env st)) as [res|e]; [|exact E].
  now rewrite retrieve_stats_loop.
Qed.

Lemma review_context (st : State) :
  context (snd (review env st))
  = reflectedContext env (reflectedNames env st) (context st).
Proof.
  rewrite review_run, <- tryReview_context.
  now destruct (fst (tryReview env st)).
Qed.

Lemma review_stats_loop (st : State) :
  stats_loop (snd (review env st)) = stats_loop st.
Proof.
  rewrite review_run, <- (tryReview_stats_loop st).
  now destruct (fst (tryReview env st)).
Qed.

Lemma isTurnCompleteOf_progress (t : str) (e : Event) :
  isProgress e = true -> isTurnCompleteOf t e = false.
Proof. now destruct e. Qed.

(** [processStream], step by step. *)
Lemma processStream_run (st : State) :
  processStream env st
  = match chat env (stats_loop st) (context st) with
    | Rejected e => (Rejected e, st)
    | Resolved stream =>
        (match fst (consumeStream env stream [] st) with
         | Resolved accumulated =>
             Resolved (RawTextProcessor.consumeAndClear accumulated)
         | Rejected e => Rejected e
         end,
         snd (notifyTurnComplete env (snd (consumeStream env stream [] st))))
    end.
Proof.
  unfold processStream. run_state.
  destruct (chat env _ _) as [stream|e]; [|reflexivity].
  run_state. now destruct (fst (consumeStream env stream [] st)).
Qed.

(** A tool whose [catch] block does not throw has a promise that is
    fulfilled. *)
Lemma toolFailed_resolves (tool : CodyTool) (e : Thrown) (st : State) :
  (exists message, errorMessage e = Resolved message) ->
  fst (toolFailed tool e st) = Resolved tt.
Proof. intros [message E]. unfold toolFailed. now rewrite E, bind_run. Qed.

Lemma catchThrows_message (n : nat) (tool : CodyTool) (e : Thrown) :
  catchThrows n tool = false -> run tool n = Rejected e ->
  exists message, errorMessage e = Resolved message.
Proof.
  unfold catchThrows. intros C R. rewrite R in C.
  destruct (errorMessage e) as [message|raised]; [now exists message|discriminate].
Qed.

Lemma runNonMcpTools_resolve (ts : list CodyTool) :
  forall st,
  (forall tool, In tool ts -> catchThrows (stats_loop st) tool = false) ->
  exists results, promiseAll (fst (runNonMcpTools env ts st)) = Resolved results.
Proof.
  induction ts as [|tool rest IH]; intros st H; [now exists []|].
  cbn [runNonMcpTools]. run_state. cbn [promiseAll].
  destruct (runNonMcpTool_quiet env (fun _ => false) tool st (fun _ _ => eq_refl))
    as ((_ & _ & L) & _).
  destruct (IH (snd (runNonMcpTool env tool st))) as [results R].
  { rewrite L. intros t I. apply H. now right. }
  rewrite R.
  assert (T : exists items, fst (runNonMcpTool env tool st) = Resolved items).
  { unfold runNonMcpTool. run_state.
    destruct (fst (aborted env st)); [now exists []|]. run_state.
    rewrite aborted_stats_loop.
    destruct (run tool (stats_loop st)) as [items|e] eqn:Run; [now exists items|].
    run_state. rewrite toolFailed_resolves; [now exists []|].
    apply (catchThrows_message (stats_loop st) tool); [|exact Run].
    apply H. now left. }
  destruct T as [items T]. rewrite T. now eexists.
Qed.

Lemma runMcpTools_resolve (ts : list CodyTool) :
  forall st,
  (forall tool, In tool ts -> catchThrows (stats_loop st) tool = false) ->
  exists results, fst (runMcpTools env ts st) = Resolved results.
Proof.
  induction ts as [|tool rest IH]; intros st H; [now exists []|].
  cbn [runMcpTools]. run_state.
  destruct (fst (aborted env st)); [now exists []|]. run_state.
  rewrite aborted_stats_loop.
  destruct (run tool (stats_loop st)) as [result|e] eqn:Run; run_state.
  - destruct (IH (snd (aborted env st))) as [results R].
    { intros t I. apply H. now right. }
    rewrite R. now eexists.
  - rewrite toolFailed_resolves
      by (apply (catchThrows_message (stats_loop st) tool);
          [apply H; now left|exact Run]).
    run_state.
    destruct (toolFailed_quiet (fun _ => false) tool e (snd (aborted env st))
                (fun _ _ => eq_refl)) as ((_ & _ & L) & _).
    destruct (IH (snd (toolFailed tool e (snd (aborted env st))))) as [results R].
    { rewrite L. intros t I. apply H. now right. }
    rewrite R. now eexists.
Qed.

Lemma retrieve_resolves (res : str) (st : State) :
  (forall tool, In tool (tools env) -> catchThrows (stats_loop st) tool = false) ->
  exists newContext, fst (retrieve env res st) = Resolved newContext.
Proof.
  intros H.
  destruct res as [|c res]; [now exists []|].
  destruct (isReadyToAnswer env (c :: res)) eqn:R.
  - unfold retrieve. rewrite R. now exists [].
  - rewrite retrieve_run by (assumption || discriminate). cbv zeta.
    destruct (tools_fields st) as ((_ & _ & L1) & _). cbv zeta in L1.
    destruct (runNonMcpTools_resolve
                (filter (fun tool => negb (isMcpTool tool)) (tools env))
                (snd (emit (UpdateTitle MainProcess (lit "Retrieving context"))
                        st))) as [results R1].
    { intros t I. apply H. now apply filter_In in I. }
    rewrite R1.
    destruct (runMcpTools_resolve (filter isMcpTool (tools env))
                (snd (runNonMcpTools env
                        (filter (fun tool => negb (isMcpTool tool)) (tools env))
                        (snd (emit (UpdateTitle MainProcess
                                      (lit "Retrieving context")) st)))))
      as [results2 R2].
    { rewrite L1. intros t I. apply H. now apply filter_In in I. }
    rewrite R2. now eexists.
Qed.

Lemma toolCatchFails_false (st : State) :
  (forall tool, In tool (tools env) -> catchThrows (stats_loop st) tool = false) ->
  toolCatchFails env st = false.
Proof.
  intros H. unfold toolCatchFails.
  destruct (fst (processStream env st)) as [res|e]; [|reflexivity].
  destruct (processStream_fields st) as (_ & _ & L).
  destruct (retrieve_resolves res (snd (processStream env st))) as [c R].
  - now rewrite L.
  - now rewrite R.
Qed.

(** The [catch] block of [review] notifies once more. *)
Lemma caught_turnCompletes (t : str) (e : Thrown) (st : State) :
  In t (subscribedTags env) ->
  turnCompletes t
    (snd (emit (LogDebug (lit "context review failed: ") e)
            (snd (notifyTurnComplete env st))))
  = turnCompletes t st + 1.
Proof.
  intros I. rewrite <- (@notifyTurnComplete_count t st I).
  unfold turnCompletes. cbn [emit snd trace].
  rewrite countEvents_snoc. cbn [isTurnCompleteOf]. lia.
Qed.

(** C3, as the code has it.  In a review, the subscriber of every
    subscribed tag is notified of the end of the turn once, by the [finally]
    block of [processStream], when the stream ends or is aborted and the
    [catch] block of no tool throws, or by the [catch] block of [review],
    when [chat] is rejected; it is notified twice, by both blocks, when the
    stream raises an error, and also when the [catch] block of a tool
    throws.  The [catch] block of no tool throws when every tool returns or
    throws a value whose message can be computed. *)
Theorem turn_complete_notifications (st : State) (t : str) :
  In t (subscribedTags env) ->
  turnCompletes t (snd (review env st))
  = turnCompletes t st
    + (if streamFails env st || toolCatchFails env st then 2 else 1)
  /\ ((forall tool, In tool (tools env) ->
         catchThrows (stats_loop st) tool = false) ->
      toolCatchFails env st = false).
Proof.
  intros I. split; [|apply toolCatchFails_false].
  unfold streamFails, toolCatchFails.
  rewrite review_run, tryReview_run, processStream_run.
  destruct (chat env (stats_loop st) (context st)) as [stream|e].
  - cbn [fst snd].
    destruct (consumeStream_quiet env (isTurnCompleteOf t) stream
                (fun _ => eq_refl) [] st) as (_ & C).
    assert (N := @notifyTurnComplete_count t
                   (snd (consumeStream env stream [] st)) I).
    unfold turnCompletes in N at 2. rewrite C in N.
    fold (turnCompletes t st) in N.
    set (st1 := snd (notifyTurnComplete env (snd (consumeStream env stream [] st))))
      in *.
    destruct (fst (consumeStream env stream [] st)) as [acc|e].
    + assert (R := retrieve_count (isTurnCompleteOf t)
                     (RawTextProcessor.consumeAndClear acc) st1
                     (isTurnCompleteOf_progress t) (fun _ _ => eq_refl)).
      fold (turnCompletes t (snd (retrieve env
                                    (RawTextProcessor.consumeAndClear acc) st1)))
        in R.
      fold (turnCompletes t st1) in R.
      destruct (fst (retrieve env _ st1)) as [newContext|e]; cbn [fst snd orb].
      * lia.
      * rewrite caught_turnCompletes by assumption. lia.
    + cbn [fst snd orb]. rewrite caught_turnCompletes by assumption. lia.
  - cbn [fst snd orb]. now rewrite caught_turnCompletes by assumption.
Qed.

End Review.

Lemma turn_complete_notifications_witness :
  turnCompletes (lit "TOOLSEARCH")
    (snd (review (sampleEnv [searchTool] searchRequest) (stateWith [userItem])))
  = 1.
Proof.
  destruct (turn_complete_notifications (sampleEnv [searchTool] searchRequest)
              (stateWith [userItem]) (lit "TOOLSEARCH")) as [E _].
  - simpl. now left.
  - rewrite E. reflexivity.
Defined.

(** C3, as stated, fails: when the stream raises an error the subscriber is
    notified twice in the review. *)
Lemma turn_complete_twice_on_stream_error :
  turnCompletes (lit "TOOLSEARCH")
    (snd (review (sampleEnv [searchTool] brokenStream) (stateWith [userItem])))
  = 2
  /\ ~ (forall env st t, In t (subscribedTags env) ->
        turnCompletes t (snd (review env st)) = turnCompletes t st + 1).
Proof.
  split; [reflexivity|].
  intros H.
  specialize (H (sampleEnv [searchTool] brokenStream) (stateWith [userItem])
                (lit "TOOLSEARCH")).
  discriminate H. simpl. now left.
Qed.

(** ** The review loop *)

Section Loop.

Variable env : Env.

(** One iteration, in terms of its review. *)
Lemma reviewIteration_run (st : State) :
  let r := review env (snd (incrStatsLoop st)) in
  reviewIteration env st
  = match fst r with
    | [] => (false, snd r)
    | _ :: _ =>
        (negb (forallb isUserAddedItem (fst r)),
         snd (addStatsContext
                (length (filter (fun c => negb (isToolContext c)) (fst r)))
                (snd (setContext
                        (context (snd r)
                         ++ filter (fun c => negb (isToolContext c)) (fst r))
                        (snd r)))))
    end.
Proof.
  cbv zeta. unfold reviewIteration. run_state.
  destruct (fst (review env _)) as [|c newContext]; run_state.
  - now destruct (review env _).
  - now destruct (forallb isUserAddedItem (c :: newContext)).
Qed.

Lemma reviewIteration_context (st : State) :
  context (snd (reviewIteration env st))
  = context (snd (review env (snd (incrStatsLoop st))))
    ++ filter (fun c => negb (isToolContext c))
         (fst (review env (snd (incrStatsLoop st)))).
Proof.
  rewrite reviewIteration_run. cbv zeta.
  destruct (fst (review env _)); run_state; [now rewrite app_nil_r|reflexivity].
Qed.

Lemma reviewIteration_stats_loop (st : State) :
  stats_loop (snd (reviewIteration env st)) = stats_loop st + 1.
Proof.
  rewrite reviewIteration_run. cbv zeta.
  destruct (fst (review env _)); run_state; now rewrite review_stats_loop.
Qed.

Section UserAdded.

Variable c : ContextItem.
Hypothesis user : source c = Some User.

Lemma user_isUserAddedItem : isUserAddedItem c = true.
Proof. unfold isUserAddedItem. now rewrite user. Qed.

Lemma reviewIteration_keeps_user (st : State) :
  In c (context st) -> In c (context (snd (reviewIteration env st))).
Proof.
  intros I. rewrite reviewIteration_context. apply in_or_app. left.
  rewrite review_context. apply reflectedContext_keeps_user.
  - exact I.
  - exact user_isUserAddedItem.
Qed.

Lemma reviewLoop_keeps_user (remaining : nat) :
  forall st, In c (context st) ->
  In c (context (snd (reviewLoop env remaining st))).
Proof.
  induction remaining as [|n IH]; intros st I; [exact I|].
  cbn [reviewLoop]. rewrite bind_run.
  destruct (fst (aborted env st)); [exact I|].
  rewrite bind_run.
  destruct (fst (reviewIteration env (snd (aborted env st)))).
  - apply IH. now apply reviewIteration_keeps_user.
  - run_state. now apply reviewIteration_keeps_user.
Qed.

End UserAdded.

Lemma getContext_run (ctx : list ContextItem) (maxLoops : nat) (st : State) :
  fst (getContext env ctx maxLoops st)
  = context (snd (reviewLoop env maxLoops (snd (setContext ctx st))))
  /\ stats_loop (snd (getContext env ctx maxLoops st))
     = stats_loop (snd (reviewLoop env maxLoops (snd (setContext ctx st)))).
Proof. unfold getContext. run_state. now split. Qed.

(** C5.  User-added items are never dropped by reflection.  An item with
    the source [User] that is in the working context before [reflect] is in
    it afterwards, whether the context is replaced or not; and such an item
    of the initial context is in the context [getContext] returns, whatever
    context names the responses have. *)
Theorem user_added_items_kept (c : ContextItem) (names : list str) (st : State)
  (ctx : list ContextItem) (maxLoops : nat) :
  source c = Some User ->
  (In c (context st) -> In c (context (snd (reflect env names st))))
  /\ (In c ctx -> In c (fst (getContext env ctx maxLoops st))).
Proof.
  intros U. split; intros I.
  - rewrite reflect_context. apply reflectedContext_keeps_user; [exact I|].
    now apply user_isUserAddedItem.
  - destruct (getContext_run ctx maxLoops st) as [E _]. rewrite E.
    apply reviewLoop_keeps_user; [exact U|exact I].
Qed.


End Loop.

Lemma user_added_items_kept_witness :
  In userItem
     (fst (getContext (sampleEnv emptyTools namesUtil) [userItem; searchItem] 2
             initialState)).
Proof.
  apply (user_added_items_kept (sampleEnv emptyTools namesUtil) userItem []
           initialState [userItem; searchItem] 2).
  - reflexivity.
  - simpl. now left.
Defined.



(** ** Termination on an empty yield *)

Section EmptyYield.

Variable env : Env.

Hypothesis tools_empty :
  forall tool n, In tool (tools env) -> run tool n = Resolved [].







End EmptyYield.



(** ** Tool failures *)


Lemma promiseAll_rejected {A} (l : list (Outcome A)) (e : Thrown) :
  In (Rejected e) l -> exists raised, promiseAll l = Rejected raised.
Proof.
  induction l as [|o l IH]; intros I; [contradiction|].
  cbn [promiseAll]. destruct o as [value|e'].
  - destruct I as [E|I]; [discriminate|].
    destruct (IH I) as [raised R]. rewrite R. now exists raised.
  - now exists e'.
Qed.

Section ToolFailure.

Variable env : Env.

Hypothesis never_aborted : abortAfter env = None.

Lemma aborted_false (st : State) : fst (aborted env st) = false.
Proof. unfold aborted. now rewrite never_aborted. Qed.

(** Without an abort every tool that is not an MCP tool runs: the promises
    settle as the tools do, in order, and the events are the statuses of the
    tools that throw a value whose message can be computed. *)
Lemma runNonMcpTools_run (p : Event -> bool) (ts : list CodyTool) :
  forall st,
  fst (runNonMcpTools env ts st) = map (settledOf (stats_loop st)) ts
  /\ countEvents p (trace (snd (runNonMcpTools env ts st)))
     = countEvents p (trace st)
       + countEvents p (flat_map (failureOf (stats_loop st)) ts).
Proof.
  induction ts as [|tool rest IH]; intros st.
  - split; [reflexivity|].
    cbn [runNonMcpTools ret snd flat_map]. rewrite countEvents_nil. lia.
  - cbn [runNonMcpTools]. run_state. cbn [map flat_map].
    rewrite countEvents_app.
    destruct (IH (snd (runNonMcpTool env tool st))) as [R C].
    rewrite R, C. clear R C IH.
    assert (L : stats_loop (snd (runNonMcpTool env tool st)) = stats_loop st
                /\ fst (runNonMcpTool env tool st) = settledOf (stats_loop st) tool
                /\ countEvents p (trace (snd (runNonMcpTool env tool st)))
                   = countEvents p (trace st)
                     + countEvents p (failureOf (stats_loop st) tool)).
    { unfold runNonMcpTool, settledOf, failureOf, toolFailed. run_state.
      rewrite aborted_false. run_state. rewrite aborted_stats_loop.
      destruct (run tool (stats_loop st)) as [items|e]; run_state;
        [|destruct (errorMessage e) as [message|raised]; run_state];
        rewrite ?aborted_trace, ?aborted_stats_loop;
        repeat split; try reflexivity;
        rewrite ?countEvents_nil, ?countEvents_app; lia. }
    destruct L as (L1 & L2 & L3). rewrite L1, L2, L3. split; [reflexivity|lia].
Qed.





(** The state in which the tools of a review are run. *)
Lemma toolsState (p : Event -> bool) (st : State) :
  (forall e, isProgress e = true -> p e = false) ->
  (forall t, p (TurnComplete t) = false) ->
  let st1 := snd (emit (UpdateTitle MainProcess (lit "Retrieving context"))
                    (snd (processStream env st))) in
  stats_loop st1 = stats_loop st
  /\ context st1 = context st
  /\ countEvents p (trace st1) = countEvents p (trace st).
Proof.
  intros Hp Ht. cbv zeta.
  destruct (processStream_fields env st) as (C0 & _ & L0).
  split; [exact L0|split; [exact C0|]].
  cbn [emit snd trace]. rewrite countEvents_snoc, Hp by reflexivity.
  rewrite (processStream_count env p st Hp Ht). lia.
Qed.


(** A review that reaches the tools, of which one that is not an MCP tool
    has a [catch] block that throws: it ends in its own [catch] block, after
    the tools that are not MCP tools. *)
Lemma review_run_thrown (p : Event -> bool) (st : State) (res : str)
  (failing : CodyTool) :
  fst (processStream env st) = Resolved res ->
  res <> [] -> isReadyToAnswer env res = false ->
  In failing (tools env) -> isMcpTool failing = false ->
  catchThrows (stats_loop st) failing = true ->
  (forall e, isProgress e = true -> p e = false) ->
  (forall t, p (TurnComplete t) = false) ->
  let nonMcpTools := filter (fun tool => negb (isMcpTool tool)) (tools env) in
  fst (review env st) = []
  /\ toolCatchFails env st = true
  /\ countEvents p (trace (snd (review env st)))
     = countEvents p (trace st)
       + countEvents p (flat_map (failureOf (stats_loop st)) nonMcpTools).
Proof.
  intros Hres Hne Hready If Hf Hcatch Hp Ht. cbv zeta.
  unfold toolCatchFails.
  rewrite review_run, tryReview_run, Hres.
  rewrite retrieve_run by assumption. cbv zeta.
  destruct (toolsState p st Hp Ht) as (L1 & _ & C1). cbv zeta in L1, C1.
  set (st1 := snd (emit (UpdateTitle MainProcess (lit "Retrieving context"))
                     (snd (processStream env st)))) in *.
  destruct (runNonMcpTools_run p
              (filter (fun tool => negb (isMcpTool tool)) (tools env)) st1)
    as [R1 T1].
  set (r1 := runNonMcpTools env _ st1) in *.
  rewrite R1, L1. rewrite L1 in T1.
  assert (S : exists raised, settledOf (stats_loop st) failing = Rejected raised).
  { unfold catchThrows in Hcatch. unfold settledOf.
    destruct (run failing (stats_loop st)) as [items|e]; [discriminate|].
    destruct (errorMessage e) as [message|raised]; [discriminate|].
    now exists raised. }
  destruct S as [raised0 S].
  destruct (@promiseAll_rejected _
              (map (settledOf (stats_loop st))
                 (filter (fun tool => negb (isMcpTool tool)) (tools env)))
              raised0) as [raised R].
  { rewrite <- S. apply in_map. apply filter_In. split; [exact If|].
    now rewrite Hf. }
  rewrite R. cbn [fst snd]. split; [reflexivity|split; [reflexivity|]].
  cbn [emit snd trace]. rewrite countEvents_snoc, Hp by reflexivity.
  rewrite notifyTurnComplete_other by assumption. lia.
Qed.

(** Tools are told apart by their tags. *)
Lemma NoDup_map_inj {A B} (f : A -> B) (l : list A) (x y : A) :
  NoDup (map f l) -> In x l -> In y l -> f x = f y -> x = y.
Proof.
  induction l as [|a l IH]; intros N Ix Iy E; [contradiction|].
  simpl in N. inversion N as [|? ? Na Nl]; subst.
  destruct Ix as [->|Ix], Iy as [->|Iy]; try reflexivity.
  - exfalso. apply Na. rewrite E. now apply in_map.
  - exfalso. apply Na. rewrite <- E. now apply in_map.
  - now apply IH.
Qed.

Section Failing.

Variables (n : nat) (failing : CodyTool) (e : Thrown) (message : str).
Variable p : Event -> bool.

Hypothesis failing_throws : run failing n = Rejected e.
Hypothesis failing_message : errorMessage e = Resolved message.
Hypothesis counted :
  p (Completed (ToolStep (tag failing)) (Some message)) = true.


End Failing.



(** No status is recorded under a tag whose tools all have a [catch] block
    that throws. *)
Lemma count_failures_thrown (n : nat) (t : str) (ts : list CodyTool) :
  (forall tool, In tool ts -> tag tool = t -> catchThrows n tool = true) ->
  countEvents (isErrorStatusOf t) (flat_map (failureOf n) ts) = 0.
Proof.
  induction ts as [|tool rest IH]; intros H; [reflexivity|].
  cbn [flat_map]. rewrite countEvents_app, IH
    by (intros tool' I; apply H; now right).
  assert (Ht := H tool (or_introl eq_refl)).
  unfold failureOf, catchThrows in *.
  destruct (run tool n) as [items|e]; [reflexivity|].
  destruct (errorMessage e) as [message|raised]; [|reflexivity].
  unfold countEvents. cbn [filter isErrorStatusOf].
  destruct (list_eq_dec ascii_dec t (tag tool)) as [E|Ne].
  - now specialize (Ht (eq_sym E)).
  - now rewrite str_eqb_neq.
Qed.


Lemma isErrorStatus_progress (e : Event) :
  isProgress e = true -> isErrorStatus e = false.
Proof. now destruct e. Qed.

Lemma isErrorStatusOf_progress (t : str) (e : Event) :
  isProgress e = true -> isErrorStatusOf t e = false.
Proof. now destruct e. Qed.


(** C8 fails on the code.  In a review that reaches the tools and is not
    aborted, in which a tool that is not an MCP tool throws a value whose
    message cannot be computed (an object on which [JSON.stringify]
    throws), the [catch] block of the tool throws in its turn: the review
    ends in its own [catch] block with no new context, so that the items the
    other tools returned are lost, no status is recorded for the tag of the
    tool, the reflection is skipped, and the turn-complete notification is
    sent a second time. *)
Theorem tool_failure_not_isolated (st : State) (res : str) (failing : CodyTool) :
  NoDup (map tag (tools env)) ->
  fst (processStream env st) = Resolved res ->
  res <> [] -> isReadyToAnswer env res = false ->
  In failing (tools env) -> isMcpTool failing = false ->
  catchThrows (stats_loop st) failing = true ->
  fst (review env st) = []
  /\ errorStatusesOf (tag failing) (snd (review env st))
     = errorStatusesOf (tag failing) st
  /\ context (snd (review env st)) = context st
  /\ toolCatchFails env st = true.
Proof.
  intros N Hres Hne Hready If Hf Hcatch.
  destruct (@review_run_thrown (isErrorStatusOf (tag failing)) st res failing
              Hres Hne Hready If Hf Hcatch
              (isErrorStatusOf_progress (tag failing)) (fun _ => eq_refl))
    as (R & F & C).
  split; [exact R|split; [|split; [|exact F]]].
  - unfold errorStatusesOf. rewrite C, count_failures_thrown; [lia|].
    intros tool I E. apply filter_In in I as [I _].
    now rewrite (NoDup_map_inj tag (tools env) tool failing N I If E).
  - rewrite review_context. unfold reflectedNames. rewrite F.
    now destruct (context st).
Qed.

End ToolFailure.


Lemma tool_failure_not_isolated_witness :
  resultOf 0 searchTool = [Some foundItem]
  /\ resultOf 0 fileTool = [Some readItem]
  /\ fst (review (sampleEnv threeToolsCircular searchRequest)
            (stateWith [userItem]))
     = []
  /\ errorStatusesOf (lit "TOOLCLI")
       (snd (review (sampleEnv threeToolsCircular searchRequest)
               (stateWith [userItem])))
     = 0.
Proof.
  destruct (@tool_failure_not_isolated
              (sampleEnv threeToolsCircular searchRequest) eq_refl
              (stateWith [userItem])
              (lit "<TOOLSEARCH><query>main</query></TOOLSEARCH>")
              circularTool)
    as (R & E & _).
  - repeat constructor; simpl; intuition discriminate.
  - reflexivity.
  - discriminate.
  - reflexivity.
  - simpl. tauto.
  - reflexivity.
  - reflexivity.
  - split; [reflexivity|split; [reflexivity|split; [exact R|exact E]]].
Defined.

End DeepCodySpec.

(** * Further properties of the diff engine *)

Module GroupingSpec.

Import DiffUtils DiffModel DiffQueries ListFacts LineChangesSpec.

(** ** groupLineChanges *)

(** The change [groupLineChanges] replaces the current group with. *)
Lemma groupStep_nil (change : LineChange) : groupStep [] change = [change].
Proof. reflexivity. Qed.

Lemma groupStep_snoc (before : list LineChange) (currentGroup change : LineChange) :
  groupStep (before ++ [currentGroup]) change
  = if ChangeType_eqb (type currentGroup) (type change)
    then before ++
         [ {| type := type change;
              text := text currentGroup ++ text change;
              originalRange :=
                {| start := start (originalRange currentGroup);
                   end_ := end_ (originalRange change) |};
              modifiedRange :=
                {| start := start (modifiedRange currentGroup);
                   end_ := end_ (modifiedRange change) |} |} ]
    else (before ++ [currentGroup]) ++ [change].
Proof.
  unfold groupStep. rewrite rev_app_distr. cbn [rev app].
  now rewrite rev_involutive.
Qed.

Lemma ChangeType_eqb_eq (a b : ChangeType) : ChangeType_eqb a b = true <-> a = b.
Proof. destruct a, b; simpl; split; congruence. Qed.

Lemma ChangeType_eqb_neq (a b : ChangeType) : ChangeType_eqb a b = false <-> a <> b.
Proof. destruct a, b; simpl; split; congruence. Qed.

(** Every list is empty or has a last element. *)
Lemma last_cases {A} (l : list A) : l = [] \/ exists before x, l = before ++ [x].
Proof.
  destruct (rev l) as [|x before] eqn:E.
  - left. now rewrite <- (rev_involutive l), E.
  - right. exists (rev before), x. now apply rev_cons_inv.
Qed.

Lemma groupStep_text (keep : ChangeType -> bool) (groupedChanges : list LineChange)
  (change : LineChange) :
  changesText keep (groupStep groupedChanges change)
  = changesText keep groupedChanges ++ changesText keep [change].
Proof.
  destruct (last_cases groupedChanges) as [->|(before & g & ->)];
    [reflexivity|].
  rewrite groupStep_snoc.
  destruct (ChangeType_eqb (type g) (type change)) eqn:E.
  - apply ChangeType_eqb_eq in E.
    rewrite !changesText_app, !changesText_one, <- app_assoc. cbn [type text].
    rewrite E. now destruct (keep (type change)).
  - now rewrite !changesText_app.
Qed.

Lemma fold_groupStep_text (keep : ChangeType -> bool) (changes : list LineChange) :
  forall groupedChanges,
  changesText keep (fold_left groupStep changes groupedChanges)
  = changesText keep groupedChanges ++ changesText keep changes.
Proof.
  induction changes as [|c rest IH]; intros acc; cbn [fold_left].
  - unfold changesText at 3. simpl. now rewrite app_nil_r.
  - rewrite IH, groupStep_text, <- app_assoc. f_equal.
    now rewrite <- changesText_app.
Qed.

(** X1.  Grouping moves no text: for every choice of types, the texts of the
    changes of these types, in order, are the same before and after
    [groupLineChanges]. *)
Theorem groupLineChanges_texts (keep : ChangeType -> bool)
  (changes : list LineChange) :
  changesText keep (groupLineChanges changes) = changesText keep changes.
Proof. unfold groupLineChanges. now rewrite fold_groupStep_text. Qed.

(** *** The groups alternate *)

Lemma alternating_snoc (l : list LineChange) (a b : LineChange) :
  alternating (l ++ [a]) -> type a <> type b -> alternating ((l ++ [a]) ++ [b]).
Proof.
  induction l as [|x l IH]; intros H Ne; [simpl; tauto|].
  cbn [app alternating] in *. destruct H as [Hx H]. split; [|now apply IH].
  destruct l; exact Hx.
Qed.

(** Only the types of the changes matter. *)
Lemma alternating_types (l : list LineChange) :
  forall l', map type l = map type l' -> alternating l -> alternating l'.
Proof.
  induction l as [|x l IH]; intros l' E H.
  - now destruct l'.
  - destruct l' as [|x' l']; [exact I|].
    injection E as Ex El. cbn [alternating] in *. destruct H as [Hx H].
    split; [|now apply IH].
    destruct l as [|y l], l' as [|y' l']; try discriminate; [exact I|].
    injection El as Ey _. congruence.
Qed.

Lemma groupStep_alternating (groupedChanges : list LineChange) (change : LineChange) :
  alternating groupedChanges -> alternating (groupStep groupedChanges change).
Proof.
  intros H.
  destruct (last_cases groupedChanges) as [->|(before & g & ->)];
    [simpl; tauto|].
  rewrite groupStep_snoc.
  destruct (ChangeType_eqb (type g) (type change)) eqn:E.
  - apply ChangeType_eqb_eq in E.
    apply (@alternating_types (before ++ [g])); [|exact H].
    rewrite !map_app. cbn [map type]. now rewrite E.
  - apply ChangeType_eqb_neq in E. now apply alternating_snoc.
Qed.

Lemma fold_groupStep_alternating (changes : list LineChange) :
  forall groupedChanges,
  alternating groupedChanges ->
  alternating (fold_left groupStep changes groupedChanges).
Proof.
  induction changes as [|c rest IH]; intros acc H; [exact H|].
  cbn [fold_left]. now apply IH, groupStep_alternating.
Qed.

Lemma alternating_app_cons (l : list LineChange) (c : LineChange)
  (rest : list LineChange) :
  alternating (l ++ c :: rest) ->
  match rev l with
  | g :: _ => type g <> type c
  | [] => True
  end.
Proof.
  destruct (last_cases l) as [->|(before & g & ->)]; [exact (fun _ => I)|].
  rewrite rev_app_distr. cbn [rev app]. rewrite <- app_assoc. cbn [app].
  induction before as [|x before IH]; intros H.
  - cbn [app alternating] in H. tauto.
  - apply IH. cbn [app alternating] in H. tauto.
Qed.

(** Grouping changes nothing in a list that alternates. *)
Lemma fold_groupStep_fixed (changes : list LineChange) :
  forall groupedChanges,
  alternating (groupedChanges ++ changes) ->
  fold_left groupStep changes groupedChanges = groupedChanges ++ changes.
Proof.
  induction changes as [|c rest IH]; intros acc H; cbn [fold_left].
  - now rewrite app_nil_r.
  - assert (L := alternating_app_cons acc c rest H).
    assert (E : groupStep acc c = acc ++ [c]).
    { destruct (last_cases acc) as [->|(before & g & ->)]; [reflexivity|].
      rewrite groupStep_snoc. rewrite rev_app_distr in L. cbn [rev app] in L.
      apply ChangeType_eqb_neq in L. now rewrite L. }
    rewrite E, IH; rewrite <- app_assoc; [reflexivity|exact H].
Qed.

(** X2.  The groups of [groupLineChanges] alternate, no two neighbours having
    the same type, and grouping them again changes nothing. *)
Theorem groupLineChanges_alternating (changes : list LineChange) :
  alternating (groupLineChanges changes)
  /\ groupLineChanges (groupLineChanges changes) = groupLineChanges changes.
Proof.
  assert (A : alternating (groupLineChanges changes))
    by now apply fold_groupStep_alternating.
  split; [exact A|].
  unfold groupLineChanges at 1. now rewrite fold_groupStep_fixed.
Qed.

(** ** isSimpleLineDiff *)

Lemma isSimpleLoop_short (groupedChanges : list LineChange) :
  length groupedChanges <= 1 ->
  isSimpleLoop {| lc_type := None; isReplacement := false |} groupedChanges = true.
Proof.
  destruct groupedChanges as [|a [|b l]]; simpl; intros H; try reflexivity. lia.
Qed.

(** X3.  [isSimpleLineDiff] looks at the groups only: the changes and their
    groups are simple together. *)
Theorem isSimpleLineDiff_grouped (changes : list LineChange) :
  isSimpleLineDiff (groupLineChanges changes) = isSimpleLineDiff changes.
Proof.
  unfold isSimpleLineDiff.
  assert (F : groupLineChanges (groupLineChanges changes) = groupLineChanges changes).
  { unfold groupLineChanges at 1. rewrite fold_groupStep_fixed; [reflexivity|].
    now apply fold_groupStep_alternating. }
  rewrite F.
  destruct (length changes <=? 1) eqn:L.
  - apply Nat.leb_le in L.
    destruct changes as [|a [|b l]]; simpl in L; try lia; reflexivity.
  - destruct (length (groupLineChanges changes) <=? 1) eqn:G; [|reflexivity].
    apply Nat.leb_le in G. symmetry. now apply isSimpleLoop_short.
Qed.

End GroupingSpec.

(** * The ranges of the changes of a line *)

Module RangesSpec.

Import DiffUtils DiffModel DiffQueries ListFacts LineChangesSpec.

Section Tiling.

Variables ln1 ln2 : nat.

Lemma tiledTo_tiled (changes : list LineChange) :
  forall o m o' m', tiledTo ln1 ln2 o m changes o' m' -> tiled ln1 ln2 o m changes.
Proof.
  induction changes as [|c rest IH]; intros o m o' m' H; [exact I|].
  cbn [tiledTo tiled] in *. destruct H as (Ho & Hm & H).
  split; [exact Ho|split; [exact Hm|]]. eapply IH, H.
Qed.

Lemma tiledTo_snoc (changes : list LineChange) (c : LineChange) :
  forall o m o' m',
  tiledTo ln1 ln2 o m changes o' m' ->
  originalRange c = mkRange ln1 o' ln1 (o' + originalLength c) ->
  modifiedRange c = mkRange ln2 m' ln2 (m' + modifiedLength c) ->
  tiledTo ln1 ln2 o m (changes ++ [c])
          (o' + originalLength c) (m' + modifiedLength c).
Proof.
  induction changes as [|x rest IH]; intros o m o' m' H Ho Hm.
  - cbn [tiledTo app] in *. destruct H as [-> ->]. tauto.
  - cbn [tiledTo app] in *. destruct H as (Hxo & Hxm & H).
    split; [exact Hxo|split; [exact Hxm|]]. now apply IH.
Qed.

Lemma tiledTo_snoc_eq (changes : list LineChange) (c : LineChange)
  (o m o' m' o2 m2 : nat) :
  tiledTo ln1 ln2 o m changes o' m' ->
  originalRange c = mkRange ln1 o' ln1 (o' + originalLength c) ->
  modifiedRange c = mkRange ln2 m' ln2 (m' + modifiedLength c) ->
  o2 = o' + originalLength c -> m2 = m' + modifiedLength c ->
  tiledTo ln1 ln2 o m (changes ++ [c]) o2 m2.
Proof. intros H Ho Hm -> ->. now apply tiledTo_snoc. Qed.

Lemma tiledTo_snoc_inv (changes : list LineChange) (c : LineChange) :
  forall o m o' m',
  tiledTo ln1 ln2 o m (changes ++ [c]) o' m' ->
  exists o1 m1,
    tiledTo ln1 ln2 o m changes o1 m1
    /\ originalRange c = mkRange ln1 o1 ln1 (o1 + originalLength c)
    /\ modifiedRange c = mkRange ln2 m1 ln2 (m1 + modifiedLength c)
    /\ o' = o1 + originalLength c /\ m' = m1 + modifiedLength c.
Proof.
  induction changes as [|x rest IH]; intros o m o' m' H.
  - cbn [tiledTo app] in H. destruct H as (Ho & Hm & -> & ->).
    exists o, m. cbn [tiledTo]. tauto.
  - cbn [tiledTo app] in H. destruct H as (Hxo & Hxm & H).
    destruct (IH _ _ _ _ H) as (o1 & m1 & T & Ho & Hm & Eo & Em).
    exists o1, m1. cbn [tiledTo]. tauto.
Qed.

Lemma push_unchanged (st : LineState) (t : str) (len : nat) :
  tilesOffsets ln1 ln2 st -> length t = len ->
  tilesOffsets ln1 ln2
    {| ls_changes := ls_changes st ++ [unchangedAt ln1 ln2 st t len];
       originalOffset := originalOffset st + len;
       modifiedOffset := modifiedOffset st + len |}.
Proof.
  unfold tilesOffsets. intros H <-. cbn [ls_changes originalOffset modifiedOffset].
  apply (@tiledTo_snoc _ (unchangedAt ln1 ln2 st t (length t)) _ _ _ _ H); reflexivity.
Qed.

Lemma pushUnchangedChunk_tiles (st : LineState) (t : str) :
  tilesOffsets ln1 ln2 st -> tilesOffsets ln1 ln2 (pushUnchangedChunk ln1 ln2 st t).
Proof.
  intros H. unfold pushUnchangedChunk.
  destruct t as [|c t]; [exact H|].
  set (u := c :: t).
  destruct (rev (ls_changes st)) as [|prev before] eqn:R;
    [now apply push_unchanged|].
  destruct (type prev) eqn:T; try now apply push_unchanged.
  apply rev_cons_inv in R.
  unfold tilesOffsets in *. cbn [ls_changes originalOffset modifiedOffset].
  rewrite R in H.
  destruct (@tiledTo_snoc_inv _ _ _ _ _ _ H) as (o1 & m1 & Hb & Ho & Hm & Eo & Em).
  unfold originalLength, modifiedLength in Ho, Hm, Eo, Em.
  rewrite T in Ho, Hm, Eo, Em. cbn [isOriginalSide isModifiedSide] in *.
  rewrite Ho, Hm, Eo, Em. cbn [mkRange start line character].
  replace (o1 + length (text prev) + length u)
    with (o1 + length (text prev ++ u)) by (rewrite length_app; lia).
  replace (m1 + length (text prev) + length u)
    with (m1 + length (text prev ++ u)) by (rewrite length_app; lia).
  apply (@tiledTo_snoc _
             {| type := unchanged; text := text prev ++ u;
                originalRange := mkRange ln1 o1 ln1 (o1 + length (text prev ++ u));
                modifiedRange := mkRange ln2 m1 ln2 (m1 + length (text prev ++ u)) |}
             _ _ _ _ Hb); reflexivity.
Qed.

Lemma pushRemainingChunk_tiles (st : LineState) (t : str) :
  tilesOffsets ln1 ln2 st -> tilesOffsets ln1 ln2 (pushRemainingChunk ln1 ln2 st t).
Proof.
  intros H. unfold pushRemainingChunk.
  destruct t as [|c t]; [exact H|]. now apply push_unchanged.
Qed.

Lemma fold_tiles (step : LineState -> str -> LineState) (chunks : list str) :
  (forall st t, tilesOffsets ln1 ln2 st -> tilesOffsets ln1 ln2 (step st t)) ->
  forall st, tilesOffsets ln1 ln2 st -> tilesOffsets ln1 ln2 (fold_left step chunks st).
Proof.
  intros Hs. induction chunks as [|t rest IH]; intros st H; [exact H|].
  cbn [fold_left]. now apply IH, Hs.
Qed.

Lemma pushChangedText_tiles (st : LineState) (d i : str) :
  tilesOffsets ln1 ln2 st -> tilesOffsets ln1 ln2 (pushChangedText ln1 ln2 st d i).
Proof.
  intros H. unfold pushChangedText.
  destruct (commonWhitespacePrefix_spec d i) as (Pd & Pi & _). cbv zeta in Pd, Pi.
  destruct (@commonWhitespaceSuffix_spec (commonWhitespacePrefix d i) d i Pd Pi)
    as (Sd & Si & _). cbv zeta in Sd, Si.
  set (p := commonWhitespacePrefix d i) in *.
  set (s := commonWhitespaceSuffix p d i) in *.
  set (st1 := if 0 <? p then _ else st).
  assert (H1 : tilesOffsets ln1 ln2 st1).
  { subst st1. destruct (0 <? p); [|exact H].
    apply push_unchanged; [exact H|].
    unfold slice. rewrite length_firstn. simpl. lia. }
  set (dc := slice p (length d - s) d).
  set (st2 := match dc with [] => st1 | _ :: _ => _ end).
  assert (H2 : tilesOffsets ln1 ln2 st2).
  { subst st2. clearbody dc. destruct dc as [|x dc']; [exact H1|].
    unfold tilesOffsets in *. cbn [ls_changes originalOffset modifiedOffset].
    eapply tiledTo_snoc_eq; [exact H1| | | |];
      unfold originalLength, modifiedLength;
      cbn [type text originalRange modifiedRange isOriginalSide isModifiedSide];
      rewrite ?Nat.add_0_r; reflexivity. }
  set (ic := slice p (length i - s) i).
  set (st3 := match ic with [] => st2 | _ :: _ => _ end).
  assert (H3 : tilesOffsets ln1 ln2 st3).
  { subst st3. clearbody ic. destruct ic as [|x ic']; [exact H2|].
    unfold tilesOffsets in *. cbn [ls_changes originalOffset modifiedOffset].
    eapply tiledTo_snoc_eq; [exact H2| | | |];
      unfold originalLength, modifiedLength;
      cbn [type text originalRange modifiedRange isOriginalSide isModifiedSide];
      rewrite ?Nat.add_0_r; reflexivity. }
  destruct (0 <? s); [|exact H3].
  apply push_unchanged; [exact H3|]. rewrite length_skipn. lia.
Qed.

Lemma pushHunk_tiles (st : LineState) (d i : str) :
  tilesOffsets ln1 ln2 st -> tilesOffsets ln1 ln2 (pushHunk ln1 ln2 st d i).
Proof.
  intros H. unfold pushHunk.
  destruct d, i; try exact H; now apply pushChangedText_tiles.
Qed.

Variable diff : list str -> list str -> list Hunk.

Lemma lineChangesLoop_tiles (old new : list str) (hunks : list Hunk) :
  forall st oi ni,
  tilesOffsets ln1 ln2 st ->
  tilesOffsets ln1 ln2 (lineChangesLoop ln1 ln2 old new hunks st oi ni).
Proof.
  induction hunks as [|[[[s1 e1] s2] e2] rest IH]; intros st oi ni H;
    cbn [lineChangesLoop].
  - apply fold_tiles; [apply pushRemainingChunk_tiles|exact H].
  - apply IH, pushHunk_tiles. unfold pushUnchangedUntil.
    apply fold_tiles; [apply pushUnchangedChunk_tiles|exact H].
Qed.

(** X4.  The ranges of the changes of [computeLineChanges] tile the two lines
    from the offset 0 on, whatever [diff] returns: the ranges of a change
    are on the two lines, start where the ranges of the change before it
    end, and are as long as its text on the side the change belongs to (both
    sides for an unchanged text) and empty on the other side. *)
Theorem computeLineChanges_tiled (old new : list str) :
  tiled ln1 ln2 0 0 (computeLineChanges diff ln1 ln2 old new).
Proof.
  unfold computeLineChanges.
  eapply tiledTo_tiled.
  apply (lineChangesLoop_tiles old new (diff old new)
           {| ls_changes := []; originalOffset := 0; modifiedOffset := 0 |} 0 0).
  unfold tilesOffsets. simpl. tauto.
Qed.

End Tiling.

End RangesSpec.

(** * The lines of a decoration and the queries on it *)

Module DecorationSpec.

Import DiffUtils DiffModel DiffQueries ListFacts DiffSpec LineChangesSpec.

(** ** The modified lines *)

Lemma in_collect_modified (lineInfos : list DecorationLineInfo)
  (m : ModifiedLineInfo) :
  In m (modifiedLines (collectLineInfos lineInfos)) -> In (Modified m) lineInfos.
Proof.
  induction lineInfos as [|li rest IH]; [contradiction|].
  unfold collectLineInfos in *. cbn [fold_right].
  destruct li as [l|l|l|l]; cbn [pushLineInfo modifiedLines In]; intros H;
    try (right; now apply IH).
  destruct H as [<-|H]; [now left|right; now apply IH].
Qed.

Section Operations.

Variable diff : list str -> list str -> list Hunk.
Variables (a b : list str) (regex : ChunkRegex).

Lemma hunkLineInfos_made (h : Hunk) (m : ModifiedLineInfo) :
  In (Modified m) (hunkLineInfos diff a b regex h) -> madeFromLines diff a b regex m.
Proof.
  destruct h as [[[s1 e1] s2] e2]. unfold hunkLineInfos.
  rewrite !in_app_iff, !in_map_iff.
  intros [(i & E & _)|[(j & E & _)|(j & E & _)]]; try discriminate.
  destruct (str_eqb (nth (s1 + i) a []) (nth (s2 + i) b [])) eqn:Q;
    cbn [negb] in E; [discriminate|].
  injection E as <-. eexists. split; [reflexivity|].
  cbn [chunkRegex originalText modifiedText originalLineNumber modifiedLineNumber].
  repeat split. intros C. apply str_eqb_eq in C. congruence.
Qed.

Lemma diffOperationsLoop_made (hunks : list Hunk) (m : ModifiedLineInfo) :
  forall i j,
  In (Modified m) (diffOperationsLoop diff a b regex hunks i j) ->
  madeFromLines diff a b regex m.
Proof.
  induction hunks as [|[[[s1 e1] s2] e2] rest IH]; intros i j;
    cbn [diffOperationsLoop].
  - unfold unchangedUntil. rewrite in_map_iff. now intros (k & E & _).
  - rewrite !in_app_iff. intros [H|[H|H]].
    + unfold unchangedUntil in H. apply in_map_iff in H. now destruct H as (k & E & _).
    + now apply hunkLineInfos_made in H.
    + now apply IH in H.
Qed.

End Operations.

Section Decoration.

Variable diff : list str -> list str -> list Hunk.
Variable getNewLineChar : str -> str.

Lemma getDecorationInfo_made (A B : str) (regex : ChunkRegex)
  (m : ModifiedLineInfo) :
  In m (modifiedLines (getDecorationInfo diff getNewLineChar A B regex)) ->
  madeFromLines diff (split (getNewLineChar A) A) (split (getNewLineChar B) B)
    regex m.
Proof.
  unfold getDecorationInfo, computeDiffOperations. intros H.
  apply in_collect_modified in H. now apply diffOperationsLoop_made in H.
Qed.

(** X5.  Whatever [diff] returns, a modified line of [getDecorationInfo A B]
    pairs the line of [A] that has its original line number with the line
    of [B] that has its modified line number, and the two lines differ. *)
Theorem modified_lines_pair_lines (A B : str) (regex : ChunkRegex)
  (m : ModifiedLineInfo) :
  In m (modifiedLines (getDecorationInfo diff getNewLineChar A B regex)) ->
  oldText m = nth (m_originalLineNumber m) (split (getNewLineChar A) A) []
  /\ newText m = nth (m_modifiedLineNumber m) (split (getNewLineChar B) B) []
  /\ oldText m <> newText m.
Proof.
  intros H. apply getDecorationInfo_made in H.
  destruct H as (p & -> & _ & Ho & Hm & Ne).
  unfold createModifiedLineInfo.
  cbn [oldText newText m_originalLineNumber m_modifiedLineNumber]. tauto.
Qed.

(** X6.  The invariant of the changes of a modified line, in a decoration: for
    every modified line of [getDecorationInfo A B] whose two texts have no
    line terminator and are covered by the chunks of [regex], and for whose
    chunks and characters [diff] returns edit scripts, the unchanged and
    inserted texts of the changes make up the new text and the unchanged and
    deleted texts the old text. *)
Theorem modified_lines_texts (A B : str) (regex : ChunkRegex)
  (m : ModifiedLineInfo) :
  In m (modifiedLines (getDecorationInfo diff getNewLineChar A B regex)) ->
  forallb (fun c => negb (isLineTerminator c)) (oldText m) = true ->
  forallb (fun c => negb (isLineTerminator c)) (newText m) = true ->
  concat (regex (oldText m)) = oldText m ->
  concat (regex (newText m)) = newText m ->
  validScript (CHARACTER_REGEX (oldText m)) (CHARACTER_REGEX (newText m))
    (diff (CHARACTER_REGEX (oldText m)) (CHARACTER_REGEX (newText m))) = true ->
  validScript (regex (oldText m)) (regex (newText m))
    (diff (regex (oldText m)) (regex (newText m))) = true ->
  changesText isModifiedSide (changes m) = newText m
  /\ changesText isOriginalSide (changes m) = oldText m.
Proof.
  intros H. apply getDecorationInfo_made in H.
  destruct H as (p & -> & <- & _). intros To Tm Co Cm Vc Vw.
  now apply createModifiedLineInfo_texts.
Qed.

(** ** getDecorationStats *)

(** X7.  The numbers of lines of [getDecorationStats], for a decoration made
    from an edit script: the unchanged, removed and modified lines are as
    many as the lines of [A], and the unchanged, added and modified lines as
    many as the lines of [B]. *)
Theorem getDecorationStats_lines (A B : str) (regex : ChunkRegex) :
  validScript (split (getNewLineChar A) A) (split (getNewLineChar B) B)
    (diff (split (getNewLineChar A) A) (split (getNewLineChar B) B)) = true ->
  let stats :=
    getDecorationStats (getDecorationInfo diff getNewLineChar A B regex) in
  Stats.unchangedLines stats + Stats.removedLines stats + Stats.modifiedLines stats
  = length (split (getNewLineChar A) A)
  /\ Stats.unchangedLines stats + Stats.addedLines stats + Stats.modifiedLines stats
     = length (split (getNewLineChar B) B).
Proof.
  intros V. cbv zeta. unfold validScript in V.
  unfold getDecorationStats.
  cbn [Stats.unchangedLines Stats.removedLines Stats.modifiedLines Stats.addedLines].
  unfold getDecorationInfo, computeDiffOperations.
  set (a := split (getNewLineChar A) A) in *.
  set (b := split (getNewLineChar B) B) in *.
  set (lineInfos := diffOperationsLoop diff a b regex (diff a b) 0 0).
  assert (Lo := Permutation_length (collect_original lineInfos)).
  assert (Lm := Permutation_length (collect_modified lineInfos)).
  subst lineInfos.
  rewrite diffOperationsLoop_original in Lo by exact V.
  rewrite diffOperationsLoop_modified in Lm by exact V.
  unfold originalEntries, modifiedEntries, linesFrom in Lo, Lm.
  rewrite !length_app, !length_map, length_seq in Lo, Lm. lia.
Qed.

End Decoration.

(** The characters [getDecorationStats] counts as removed are those of the
    removed lines and of the deleted texts. *)
Lemma countChange_removed (changes : list LineChange) :
  forall acc,
  (forall c, In c changes -> type c <> delete) ->
  removed (fold_left countChange changes acc) = removed acc.
Proof.
  induction changes as [|c rest IH]; intros acc H; [reflexivity|].
  cbn [fold_left]. rewrite IH by (intros x Hx; apply H; now right).
  unfold countChange. specialize (H c (or_introl eq_refl)).
  now destruct (type c).
Qed.

Lemma sumTextLengths_nil {T} (text : T -> str) : sumTextLengths text [] = 0.
Proof. reflexivity. Qed.

(** X8.  A decoration that only adds text, by [isOnlyAddingText], has no removed
    line and no removed character in its statistics, and it has an added
    or a modified line. *)
Theorem isOnlyAddingText_stats (d : DecorationInfo) :
  isOnlyAddingText d = true ->
  Stats.removedLines (getDecorationStats d) = 0
  /\ Stats.removedChars (getDecorationStats d) = 0
  /\ 0 < Stats.addedLines (getDecorationStats d)
         + Stats.modifiedLines (getDecorationStats d).
Proof.
  unfold isOnlyAddingText, getDecorationStats.
  cbn [Stats.removedLines Stats.removedChars Stats.addedLines Stats.modifiedLines].
  destruct (0 <? length (removedLines d)) eqn:R; [discriminate|].
  apply Nat.ltb_ge in R.
  destruct (removedLines d) as [|r rs]; [|simpl in R; lia].
  destruct (isOnlyAddingTextForModifiedLines (modifiedLines d)) eqn:M;
    [|discriminate].
  cbn [negb]. intros H. split; [reflexivity|split].
  - rewrite countChange_removed; [reflexivity|].
    intros c Hc. apply in_flat_map in Hc as (m & Hm & Hc).
    unfold isOnlyAddingTextForModifiedLines in M.
    rewrite forallb_forall in M. specialize (M m Hm).
    apply negb_true_iff in M. intros T.
    assert (X : existsb (fun change => ChangeType_eqb (type change) delete)
                  (changes m) = true).
    { apply existsb_exists. exists c. split; [exact Hc|]. now rewrite T. }
    congruence.
  - apply orb_true_iff in H as [H|H]; apply Nat.ltb_lt in H; lia.
Qed.

(** ** getAddedLines *)

(** X9.  [getAddedLines] returns the added lines of the decoration, each once,
    in the order of their modified line numbers. *)
Theorem getAddedLines_sorted (d : DecorationInfo) :
  Permutation (getAddedLines d) (addedLines d)
  /\ StronglySorted (fun x y => a_modifiedLineNumber x <= a_modifiedLineNumber y)
       (getAddedLines d).
Proof.
  unfold getAddedLines. split; [apply sort_perm|].
  eapply StronglySorted_impl; [|apply sort_sorted].
  - intros x y H. unfold leq in H. lia.
  - intros x y. unfold leq. lia.
  - intros x y z. unfold leq. lia.
Qed.

(** ** getDecorationInfoFromPrediction *)

Lemma predictedFileText_same (document : TextDocument) (range : Range) :
  offsetAt document (start range) <= offsetAt document (end_ range) ->
  predictedFileText document
    (slice (offsetAt document (start range)) (offsetAt document (end_ range))
       (getText document)) range
  = getText document.
Proof.
  intros H. unfold predictedFileText, slice.
  rewrite Nat.sub_0_r. cbn [skipn].
  set (s := offsetAt document (start range)) in *.
  set (e := offsetAt document (end_ range)) in *.
  rewrite <- (firstn_skipn s (getText document)) at 4. f_equal.
  rewrite <- (firstn_skipn (e - s) (skipn s (getText document))) at 2. f_equal.
  rewrite skipn_skipn. f_equal. lia.
Qed.

(** X10.  A prediction that is the text of the range itself changes nothing: the
    decoration is the one of the document against itself. *)
Theorem prediction_of_same_text (diff : list str -> list str -> list Hunk)
  (getNewLineChar : str -> str) (document : TextDocument) (range : Range) :
  offsetAt document (start range) <= offsetAt document (end_ range) ->
  getDecorationInfoFromPrediction diff getNewLineChar document
    (slice (offsetAt document (start range)) (offsetAt document (end_ range))
       (getText document)) range
  = getDecorationInfo diff getNewLineChar (getText document) (getText document)
      WORDS_AND_PUNCTUATION_REGEX.
Proof.
  intros H. unfold getDecorationInfoFromPrediction.
  now rewrite predictedFileText_same.
Qed.

Lemma modified_lines_pair_lines_witness :
  oldText (createModifiedLineInfo lcsDiff sampleSecondLine)
  = nth (m_originalLineNumber (createModifiedLineInfo lcsDiff sampleSecondLine))
      (split (firstNewLine sampleBefore) sampleBefore) []
  /\ newText (createModifiedLineInfo lcsDiff sampleSecondLine)
     = nth (m_modifiedLineNumber (createModifiedLineInfo lcsDiff sampleSecondLine))
         (split (firstNewLine sampleAfter) sampleAfter) []
  /\ oldText (createModifiedLineInfo lcsDiff sampleSecondLine)
     <> newText (createModifiedLineInfo lcsDiff sampleSecondLine).
Proof.
  apply (@modified_lines_pair_lines lcsDiff firstNewLine sampleBefore sampleAfter
           WORDS_AND_PUNCTUATION_REGEX
           (createModifiedLineInfo lcsDiff sampleSecondLine)).
  vm_compute. now left.
Defined.

Lemma modified_lines_texts_witness :
  changesText isModifiedSide
    (changes (createModifiedLineInfo lcsDiff sampleSecondLine))
  = lit "let b = 12"
  /\ changesText isOriginalSide
       (changes (createModifiedLineInfo lcsDiff sampleSecondLine))
     = lit "let b = 1".
Proof.
  apply (@modified_lines_texts lcsDiff firstNewLine sampleBefore sampleAfter
           WORDS_AND_PUNCTUATION_REGEX
           (createModifiedLineInfo lcsDiff sampleSecondLine)).
  - vm_compute. now left.
  - reflexivity.
  - reflexivity.
  - reflexivity.
  - reflexivity.
  - vm_compute. reflexivity.
  - vm_compute. reflexivity.
Defined.

Lemma getDecorationStats_lines_witness :
  Stats.unchangedLines
    (getDecorationStats
       (getDecorationInfo lcsDiff firstNewLine sampleOriginal sampleModified
          WORDS_AND_PUNCTUATION_REGEX))
  + Stats.removedLines
      (getDecorationStats
         (getDecorationInfo lcsDiff firstNewLine sampleOriginal sampleModified
            WORDS_AND_PUNCTUATION_REGEX))
  + Stats.modifiedLines
      (getDecorationStats
         (getDecorationInfo lcsDiff firstNewLine sampleOriginal sampleModified
            WORDS_AND_PUNCTUATION_REGEX))
  = 3.
Proof.
  destruct (@getDecorationStats_lines lcsDiff firstNewLine sampleOriginal
              sampleModified WORDS_AND_PUNCTUATION_REGEX) as [Lo _].
  - vm_compute. reflexivity.
  - exact Lo.
Defined.

Lemma isOnlyAddingText_stats_witness :
  Stats.removedChars
    (getDecorationStats
       (getDecorationInfo lcsDiff firstNewLine sampleBefore sampleAfter
          WORDS_AND_PUNCTUATION_REGEX))
  = 0.
Proof.
  destruct (@isOnlyAddingText_stats
              (getDecorationInfo lcsDiff firstNewLine sampleBefore sampleAfter
                 WORDS_AND_PUNCTUATION_REGEX)) as (_ & C & _).
  - vm_compute. reflexivity.
  - exact C.
Defined.

Lemma prediction_of_same_text_witness :
  getDecorationInfoFromPrediction lcsDiff firstNewLine sampleDocument (lit "let")
    (mkRange 0 0 0 3)
  = getDecorationInfo lcsDiff firstNewLine sampleBefore sampleBefore
      WORDS_AND_PUNCTUATION_REGEX.
Proof.
  apply (@prediction_of_same_text lcsDiff firstNewLine sampleDocument
           (mkRange 0 0 0 3)).
  simpl. lia.
Defined.

End DecorationSpec.

(** * The choice of the agent *)

Module RegistrySpec.

Import Registry.

(** X11.  [getAgent] looks at the intent first: the agentic intent gives the
    agentic handler and an intent of the registry its handler, whatever the
    model is; and the Deep Cody handler is never chosen in testing mode. *)
Theorem getAgent_precedence (isCodyTesting isAgenticChatEnabled : bool)
  (model intent : str) (handler : AgentHandler) :
  getAgent isCodyTesting isAgenticChatEnabled model (Some (lit "agentic"))
  = AgenticHandler
  /\ (agentRegistry intent = Some handler ->
      getAgent isCodyTesting isAgenticChatEnabled model (Some intent) = handler)
  /\ getAgent true isAgenticChatEnabled model (Some intent) <> DeepCodyHandler
  /\ getAgent true isAgenticChatEnabled model None <> DeepCodyHandler.
Proof.
  split; [reflexivity|split; [|split]].
  - intros R. unfold getAgent.
    destruct (str_eqb intent (lit "agentic")) eqn:A.
    + unfold agentRegistry in R. unfold str_eqb in *.
      destruct (list_eq_dec ascii_dec intent (lit "agentic")) as [->|];
        [discriminate R|discriminate A].
    + destruct intent as [|c i]; [discriminate R|]. now rewrite R.
  - unfold getAgent. destruct (str_eqb intent (lit "agentic")); [discriminate|].
    assert (H : forall key, agentRegistry key <> Some DeepCodyHandler).
    { intros key. unfold agentRegistry.
      repeat match goal with |- context [if ?b then _ else _] => destruct b end;
        discriminate. }
    destruct intent as [|c i].
    + destruct (agentRegistry model) eqn:M; [|discriminate].
      intros ->. now apply (H model).
    + destruct (agentRegistry (c :: i)) eqn:I.
      * intros ->. now apply (H (c :: i)).
      * destruct (agentRegistry model) eqn:M; [|discriminate].
        intros ->. now apply (H model).
  - unfold getAgent.
    destruct (agentRegistry model) eqn:M; [|discriminate].
    intros ->. unfold agentRegistry in M.
    repeat match type of M with context [if ?b then _ else _] => destruct b end;
      discriminate.
Qed.

Lemma getAgent_precedence_witness :
  getAgent false true (lit "edit") (Some (lit "search")) = SearchHandler.
Proof.
  apply (getAgent_precedence false true (lit "edit") (lit "search") SearchHandler).
  reflexivity.
Defined.

End RegistrySpec.

(** * Further properties of the Deep Cody agent *)

Module DeepCodyMoreSpec.

Import DeepCody DeepCodyModel DeepCodySpec.

(** ** RawTextProcessor *)

Lemma fold_length (parts : list str) :
  forall n,
  fold_left (fun acc part => acc + List.length part) parts n
  = n + List.length (concat parts).
Proof.
  induction parts as [|p parts IH]; intros n; cbn [fold_left concat].
  - simpl. lia.
  - rewrite IH, length_app. lia.
Qed.

(** X13.  The getter [length] is the length of the text [consumeAndClear]
    returns, and [append] adds the length of its argument to it. *)
Theorem RawTextProcessor_length (parts : RawTextProcessor.t) (s : str) :
  RawTextProcessor.length parts
  = List.length (RawTextProcessor.consumeAndClear parts)
  /\ RawTextProcessor.length (RawTextProcessor.append parts s)
     = RawTextProcessor.length parts + List.length s.
Proof.
  unfold RawTextProcessor.length, RawTextProcessor.consumeAndClear,
    RawTextProcessor.append.
  rewrite !fold_length, concat_app, length_app. simpl.
  rewrite app_nil_r. lia.
Qed.

(** ** processStream *)

Lemma publishedText_app (es1 es2 : list Event) :
  publishedText (es1 ++ es2) = publishedText es1 ++ publishedText es2.
Proof. unfold publishedText. now rewrite flat_map_app, concat_app. Qed.

Lemma publishedText_turnComplete (tags : list str) :
  publishedText (map TurnComplete tags) = [].
Proof. induction tags as [|t tags IH]; [reflexivity|exact IH]. Qed.

Section Stream.

Variable env : Env.

(** What the loop publishes is what it accumulates. *)
Lemma consumeStream_published (stream : list StreamMessage) :
  forall accumulated st accumulated',
  fst (consumeStream env stream accumulated st) = Resolved accumulated' ->
  exists published,
    concat accumulated' = concat accumulated ++ published
    /\ publishedText (trace (snd (consumeStream env stream accumulated st)))
       = publishedText (trace st) ++ published.
Proof.
  induction stream as [|msg rest IH]; intros acc st acc'; cbn [consumeStream].
  - intros E. injection E as <-. exists []. now rewrite !app_nil_r.
  - rewrite bind_run.
    destruct (fst (aborted env st)).
    + intros E. injection E as <-. exists []. now rewrite !app_nil_r.
    + destruct msg as [text| |e].
      * rewrite bind_run. intros E.
        destruct (IH _ _ _ E) as (published & C & P).
        exists (skipn (RawTextProcessor.length acc) text ++ published).
        split.
        -- rewrite C. unfold RawTextProcessor.append.
           rewrite concat_app. simpl. now rewrite app_nil_r, app_assoc.
        -- rewrite P. cbn [emit snd trace]. rewrite aborted_trace.
           rewrite publishedText_app. unfold publishedText at 2. simpl.
           now rewrite app_nil_r, app_assoc.
      * intros E. injection E as <-. exists []. now rewrite !app_nil_r.
      * discriminate.
Qed.

(** X14.  The response [processStream] returns is the text it has published to
    the multiplexer, whatever the messages of the stream are and whenever
    the signal is aborted. *)
Theorem processStream_publishes_response (st : State) (res : str) :
  fst (processStream env st) = Resolved res ->
  publishedText (trace (snd (processStream env st)))
  = publishedText (trace st) ++ res.
Proof.
  rewrite processStream_run.
  destruct (chat env (stats_loop st) (context st)) as [stream|e];
    [|discriminate].
  cbn [fst snd].
  destruct (fst (consumeStream env stream [] st)) as [accumulated|e] eqn:E;
    [|discriminate].
  intros R. injection R as <-.
  destruct (consumeStream_published stream [] st E) as (published & C & P).
  unfold notifyTurnComplete. cbn [emitAll snd trace].
  rewrite publishedText_app, publishedText_turnComplete, app_nil_r, P.
  unfold RawTextProcessor.consumeAndClear. now rewrite C.
Qed.

Hypothesis never_aborted : abortAfter env = None.

Lemma startsWith_skipn (p s : str) :
  startsWith p s = true -> p ++ skipn (List.length p) s = s.
Proof.
  revert s. induction p as [|a p IH]; intros s H; [reflexivity|].
  destruct s as [|b s]; simpl in H; [discriminate|].
  apply andb_true_iff in H as [Hab Hps].
  apply Ascii.eqb_eq in Hab; subst b. simpl. f_equal. now apply IH.
Qed.

Lemma last_cons_default {A} (l : list A) :
  forall a d, last (a :: l) d = last l a.
Proof.
  induction l as [|x l IH]; intros a d; [reflexivity|].
  change (last (a :: x :: l) d) with (last (x :: l) d).
  change (last (x :: l) a) with (last (x :: l) a).
  now rewrite !IH.
Qed.

Lemma consumeStream_growing (texts : list str) (rest : list StreamMessage) :
  forall accumulated st,
  growing (concat accumulated) texts = true ->
  exists accumulated',
    fst (consumeStream env (map change texts ++ complete :: rest) accumulated st)
    = Resolved accumulated'
    /\ concat accumulated' = last texts (concat accumulated).
Proof.
  induction texts as [|text texts IH]; intros acc st G;
    cbn [map app consumeStream]; rewrite bind_run, (aborted_false env never_aborted).
  - now exists acc.
  - rewrite bind_run. cbn [growing] in G.
    apply andb_true_iff in G as [S G].
    assert (C : concat (RawTextProcessor.append acc
                          (skipn (RawTextProcessor.length acc) text)) = text).
    { unfold RawTextProcessor.append. rewrite concat_app. simpl.
      rewrite app_nil_r.
      destruct (RawTextProcessor_length acc []) as [L _]. rewrite L.
      now apply startsWith_skipn. }
    rewrite <- C in G.
    destruct (IH _ (snd (emit (Publish (skipn (RawTextProcessor.length acc) text))
                           (snd (aborted env st)))) G)
      as (acc' & E & L).
    exists acc'. split; [exact E|].
    now rewrite L, C, last_cons_default.
Qed.

(** X15.  When the signal is not aborted and the stream has texts that each
    extend the one before, followed by the completion, the response is the
    last of the texts: the pieces published add up to it. *)
Theorem processStream_last_text (st : State) (texts : list str)
  (rest : list StreamMessage) :
  chat env (stats_loop st) (context st)
  = Resolved (map change texts ++ complete :: rest) ->
  growing [] texts = true ->
  fst (processStream env st) = Resolved (last texts []).
Proof.
  intros Hchat G. rewrite processStream_run, Hchat. cbn [fst].
  destruct (consumeStream_growing texts rest [] st G) as (acc' & E & L).
  match goal with
  | |- match ?o with _ => _ end = _ =>
      assert (O : o = Resolved acc') by exact E; rewrite O
  end.
  unfold RawTextProcessor.consumeAndClear. now rewrite L.
Qed.

End Stream.

(** ** RawTextProcessor.extract *)

Lemma startsWith_prefix (p r : str) : startsWith p (p ++ r) = true.
Proof.
  induction p as [|a p IH]; [reflexivity|].
  simpl. now rewrite Ascii.eqb_refl.
Qed.

Lemma closeAt_plain (tag name rest : str) :
  forall inner,
  plainName name = true ->
  RawTextProcessor.closeAt (lit "</" ++ tag ++ lit ">")
    (name ++ (lit "</" ++ tag ++ lit ">") ++ rest) inner
  = Some (inner ++ name).
Proof.
  induction name as [|c name IH]; intros inner P.
  - cbn [app]. rewrite app_nil_r.
    destruct ((lit "</" ++ tag ++ lit ">") ++ rest) as [|x l] eqn:E;
      [discriminate E|].
    cbn [RawTextProcessor.closeAt]. rewrite <- E.
    now rewrite startsWith_prefix.
  - cbn [plainName forallb] in P. apply andb_true_iff in P as [Pc P].
    apply andb_true_iff in Pc as [Lt Lf].
    apply negb_true_iff in Lt, Lf. unfold isLessThan in Lt.
    cbn [app RawTextProcessor.closeAt].
    assert (S : startsWith (lit "</" ++ tag ++ lit ">")
                  (c :: name ++ (lit "</" ++ tag ++ lit ">") ++ rest) = false).
    { change (lit "</") with ["<"%char; "/"%char]. cbn [app startsWith].
      now rewrite Ascii.eqb_sym, Lt. }
    rewrite S, Lf, IH by exact P. now rewrite <- app_assoc.
Qed.

Lemma wrap_parts (tag name rest : str) :
  wrap tag name ++ rest
  = (lit "<" ++ tag ++ lit ">")
    ++ name ++ (lit "</" ++ tag ++ lit ">") ++ rest.
Proof. unfold wrap. now rewrite <- !app_assoc. Qed.

Lemma matchAt_wrap (tag name rest : str) :
  plainName name = true ->
  RawTextProcessor.matchAt tag (wrap tag name ++ rest) = Some name.
Proof.
  intros P. unfold RawTextProcessor.matchAt.
  rewrite wrap_parts, startsWith_prefix.
  rewrite skipn_app, skipn_all, Nat.sub_diag. cbn [skipn app].
  now rewrite closeAt_plain.
Qed.

Lemma extractFrom_skip (tag p r : str) :
  RawTextProcessor.extractFrom tag (List.length p) (p ++ r)
  = RawTextProcessor.extractFrom tag 0 r.
Proof.
  induction p as [|c p IH]; [reflexivity|].
  cbn [List.length app RawTextProcessor.extractFrom]. exact IH.
Qed.

Lemma extractFrom_wrap (tag name rest : str) :
  plainName name = true ->
  RawTextProcessor.extractFrom tag 0 (wrap tag name ++ rest)
  = name :: RawTextProcessor.extractFrom tag 0 rest.
Proof.
  intros P. assert (M := @matchAt_wrap tag name rest P).
  destruct (wrap tag name ++ rest) as [|c s'] eqn:E; [discriminate E|].
  cbn [RawTextProcessor.extractFrom]. rewrite M. f_equal.
  assert (S : s' = (tag ++ lit ">" ++ name ++ lit "</" ++ tag ++ lit ">") ++ rest).
  { unfold wrap in E. simpl in E. injection E as _ <-. reflexivity. }
  rewrite S,
    <- (extractFrom_skip tag
          (tag ++ lit ">" ++ name ++ lit "</" ++ tag ++ lit ">") rest).
  f_equal. rewrite !length_app. simpl. lia.
Qed.

(** X16.  [extract] round trip: from a text made of names between the opening
    and the closing tag, names without [<] and without line terminators,
    [extract] returns the names, in order.  The tag is made of word
    characters, as the tags of the agent are. *)
Theorem extract_wrapped_names (tag : str) (names : list str) :
  forallb isWordChar tag = true ->
  forallb plainName names = true ->
  RawTextProcessor.extract (concat (map (wrap tag) names)) tag = names.
Proof.
  intros _ P. unfold RawTextProcessor.extract.
  induction names as [|name names IH]; [reflexivity|].
  cbn [forallb] in P. apply andb_true_iff in P as [Pn P].
  cbn [map concat]. rewrite extractFrom_wrap by exact Pn.
  now rewrite IH.
Qed.

Lemma processStream_publishes_response_witness :
  publishedText
    (trace
       (snd (processStream
               (sampleEnv [searchTool] searchRequest)
               (stateWith [userItem]))))
  = lit "<TOOLSEARCH><query>main</query></TOOLSEARCH>".
Proof.
  apply (@processStream_publishes_response
           (sampleEnv [searchTool] searchRequest)
           (stateWith [userItem])
           (lit "<TOOLSEARCH><query>main</query></TOOLSEARCH>")).
  reflexivity.
Defined.

Lemma processStream_last_text_witness :
  fst (processStream
         (sampleEnv []
            (growingStream [lit "<con"; lit "<context_list>"]))
         (stateWith []))
  = Resolved (lit "<context_list>").
Proof.
  apply (@processStream_last_text
           (sampleEnv []
              (growingStream [lit "<con"; lit "<context_list>"]))
           eq_refl (stateWith []) [lit "<con"; lit "<context_list>"] []).
  - reflexivity.
  - reflexivity.
Defined.

Lemma extract_wrapped_names_witness :
  RawTextProcessor.extract twoNames (lit "context_list")
  = [lit "a.ts"; lit "b.ts"].
Proof.
  apply (@extract_wrapped_names (lit "context_list")
           [lit "a.ts"; lit "b.ts"]).
  - reflexivity.
  - reflexivity.
Defined.

(** ** The review loop *)

Section LoopMore.

Variable env : Env.

Lemma reviewLoop_stats_loop (remaining : nat) :
  forall st,
  stats_loop st <= stats_loop (snd (reviewLoop env remaining st))
  /\ stats_loop (snd (reviewLoop env remaining st)) <= stats_loop st + remaining.
Proof.
  induction remaining as [|n IH]; intros st; [simpl; lia|].
  cbn [reviewLoop]. rewrite bind_run.
  destruct (fst (aborted env st)); [cbn [ret snd]; rewrite aborted_stats_loop; lia|].
  rewrite bind_run.
  assert (L := reviewIteration_stats_loop env (snd (aborted env st))).
  rewrite aborted_stats_loop in L.
  destruct (fst (reviewIteration env (snd (aborted env st)))).
  - destruct (IH (snd (reviewIteration env (snd (aborted env st))))). lia.
  - cbn [ret snd]. lia.
Qed.

(** X17.  [getContext] runs at most [maxLoops] iterations; it runs none, and
    returns the context it was given, when [maxLoops] is 0 or the signal is
    aborted when the loop starts. *)
Theorem getContext_iterations (ctx : list ContextItem) (maxLoops : nat)
  (st : State) :
  stats_loop (snd (getContext env ctx maxLoops st)) <= stats_loop st + maxLoops
  /\ (maxLoops = 0 \/ fst (aborted env (snd (setContext ctx st))) = true ->
      fst (getContext env ctx maxLoops st) = ctx
      /\ stats_loop (snd (getContext env ctx maxLoops st)) = stats_loop st
      /\ stats_context (snd (getContext env ctx maxLoops st)) = stats_context st).
Proof.
  split.
  - destruct (getContext_run env ctx maxLoops st) as [_ ->].
    destruct (reviewLoop_stats_loop maxLoops (snd (setContext ctx st))) as [_ H].
    exact H.
  - unfold getContext. run_state. intros [->|A].
    + now cbn [reviewLoop ret fst snd context stats_loop stats_context].
    + destruct maxLoops as [|n];
        [now cbn [reviewLoop ret fst snd context stats_loop stats_context]|].
      cbn [reviewLoop]. rewrite bind_run.
      change (snd (setContext ctx st))
        with {| context := ctx; stats_context := stats_context st;
                stats_loop := stats_loop st; trace := trace st;
                reads := reads st |} in A.
      rewrite A. now cbn [ret fst snd context stats_loop stats_context].
Qed.

(** *** The counter of the items fetched *)

Lemma reflect_stats_context (names : list str) (st : State) :
  stats_context (snd (reflect env names st)) = stats_context st.
Proof.
  unfold reflect. run_state.
  destruct names as [|name names]; [reflexivity|].
  destruct (context st) as [|c ctx]; [reflexivity|].
  run_state. now destruct (reviewedItems _ _ _); run_state.
Qed.

Lemma collect_stats_context (res : str) (newContext : list ContextItem)
  (st : State) :
  stats_context (snd (collect env res newContext st))
  = stats_context st + length newContext.
Proof.
  unfold collect. run_state. rewrite reflect_stats_context.
  destruct newContext; run_state; simpl; lia.
Qed.

Lemma retrieve_stats_context (res : str) (st : State) :
  stats_context (snd (retrieve env res st))
  = stats_context st
    + match fst (retrieve env res st) with
      | Resolved newContext => length newContext
      | Rejected _ => 0
      end.
Proof.
  destruct res as [|c res]; [simpl; lia|].
  destruct (isReadyToAnswer env (c :: res)) eqn:R.
  - unfold retrieve. rewrite R. simpl. lia.
  - rewrite retrieve_run by (assumption || discriminate). cbv zeta.
    destruct (tools_fields env st) as ((_ & E1 & _) & (_ & E2 & _)).
    cbv zeta in E1, E2.
    destruct (promiseAll _) as [nonMcpResults|raised];
      [|cbn [fst snd]; rewrite E1; lia].
    destruct (fst (runMcpTools env _ _)) as [mcpResults|raised];
      [|cbn [fst snd]; rewrite E2; lia].
    cbn [fst snd]. now rewrite collect_stats_context, E2.
Qed.

Lemma review_stats_context (st : State) :
  stats_context (snd (review env st))
  = stats_context st + length (fst (review env st)).
Proof.
  rewrite review_run, tryReview_run.
  destruct (processStream_fields env st) as (_ & E & _).
  destruct (fst (processStream env st)) as [res|e].
  - assert (R := retrieve_stats_context res (snd (processStream env st))).
    destruct (fst (retrieve env res _)) as [newContext|e]; cbn [fst snd].
    + rewrite R, E. reflexivity.
    + unfold notifyTurnComplete. run_state. rewrite R, E. simpl. lia.
  - cbn [fst snd]. unfold notifyTurnComplete. run_state. rewrite E. simpl. lia.
Qed.

(** X18.  An iteration adds to [stats.context] the number of the new items, in
    [review], and once more the number of those that are not titled
    TOOLCONTEXT, in the loop: an item that is kept is counted twice. *)
Theorem reviewIteration_stats_context (st : State) :
  stats_context (snd (reviewIteration env st))
  = stats_context st
    + length (fst (review env (snd (incrStatsLoop st))))
    + length (validItems (fst (review env (snd (incrStatsLoop st))))).
Proof.
  rewrite reviewIteration_run. cbv zeta.
  assert (R := review_stats_context (snd (incrStatsLoop st))).
  change (stats_context (snd (incrStatsLoop st))) with (stats_context st) in R.
  unfold validItems.
  set (st0 := snd (incrStatsLoop st)) in *.
  destruct (fst (review env st0)) as [|c newContext]; run_state;
    rewrite R; simpl; lia.
Qed.

(** *** A response that is ready to answer *)

Lemma isReadyToAnswer_ready (res : str) :
  readyResponse env res ->
  retrieve env res = ret (Resolved []).
Proof.
  intros [->| ->]; [reflexivity|].
  unfold retrieve, isReadyToAnswer. rewrite str_eqb_refl.
  now destruct (lit "<" ++ answerTag env ++ lit ">").
Qed.

(** X19.  When the first response is empty or the answer tag, [getContext] stops
    after one iteration in which no tool is run, and returns the context it
    was given; nothing is counted as fetched. *)
Theorem getContext_ready_to_answer (ctx : list ContextItem) (maxLoops : nat)
  (st : State) (res : str) :
  1 <= maxLoops ->
  fst (aborted env (snd (setContext ctx st))) = false ->
  fst (processStream env (firstReviewState env ctx st)) = Resolved res ->
  readyResponse env res ->
  fst (getContext env ctx maxLoops st) = ctx
  /\ stats_loop (snd (getContext env ctx maxLoops st)) = stats_loop st + 1
  /\ stats_context (snd (getContext env ctx maxLoops st)) = stats_context st
  /\ errorStatuses (snd (getContext env ctx maxLoops st)) = errorStatuses st.
Proof.
  intros Hm Ha Hres Hready.
  assert (R : review env (firstReviewState env ctx st)
              = ([], snd (processStream env (firstReviewState env ctx st)))).
  { rewrite review_run, tryReview_run, Hres, (isReadyToAnswer_ready Hready).
    reflexivity. }
  destruct (processStream_fields env (firstReviewState env ctx st))
    as (Ec & Es & El).
  assert (Ct := processStream_count env isErrorStatus
                  (firstReviewState env ctx st) isErrorStatus_progress
                  (fun _ => eq_refl)).
  unfold getContext. run_state.
  destruct maxLoops as [|n]; [lia|].
  cbn [reviewLoop]. rewrite bind_run.
  change (snd (setContext ctx st))
    with {| context := ctx; stats_context := stats_context st;
            stats_loop := stats_loop st; trace := trace st;
            reads := reads st |} in Ha.
  rewrite Ha, bind_run, reviewIteration_run. cbv zeta.
  change (snd (incrStatsLoop (snd (aborted env _))))
    with (firstReviewState env ctx st).
  rewrite R. cbn [fst snd ret].
  unfold errorStatuses. cbn [trace]. rewrite countEvents_snoc. cbn [isErrorStatus].
  rewrite Ec, Es, El, Ct. unfold firstReviewState.
  cbn [incrStatsLoop aborted setContext snd context stats_loop stats_context trace].
  repeat split; lia.
Qed.

End LoopMore.

(** ** reflect *)

(** X20.  [reflect] leaves the context alone or replaces it with items that are
    agentic, user-added or media: every other item is dropped. *)
Theorem reflect_prunes (env : Env) (names : list str) (st : State) :
  context (snd (reflect env names st)) = context st
  \/ Forall (fun c => isKeptByReflection c = true)
       (context (snd (reflect env names st))).
Proof.
  rewrite reflect_context. unfold reflectedContext.
  destruct names as [|name names]; [now left|].
  destruct (context st) as [|c0 ctx]; [now left|].
  destruct (reviewedItems env (name :: names) (currentContextOf env (c0 :: ctx)))
    as [|r reviewed] eqn:E; [now left|].
  right. rewrite <- E. apply Forall_app. split.
  - apply Forall_forall. intros c Hc. unfold reviewedItems in Hc.
    apply in_flat_map in Hc as (contextName & _ & Hc).
    apply in_flat_map in Hc as (item & _ & Hc).
    unfold reviewItem in Hc.
    destruct (endsWith contextName (uri_path item)); [|contradiction].
    destruct (str_eqb (uri_scheme item) (lit "file"));
      [destruct (getContextFromRelativePath env contextName) as [[file|]|e]|];
      try contradiction; destruct Hc as [<-|[]]; reflexivity.
  - apply Forall_forall. intros c Hc. apply filter_In in Hc as [_ K].
    unfold isKeptByReflection. now destruct (source c) as [[]|].
Qed.

Lemma getContext_ready_to_answer_witness :
  fst (getContext (sampleEnv threeTools [change (lit "<next_step>"); complete])
         [userItem; searchItem] 2 initialState)
  = [userItem; searchItem].
Proof.
  destruct (@getContext_ready_to_answer
              (sampleEnv threeTools [change (lit "<next_step>"); complete])
              [userItem; searchItem] 2 initialState (lit "<next_step>"))
    as (C & _).
  - lia.
  - reflexivity.
  - reflexivity.
  - right. reflexivity.
  - exact C.
Defined.

End DeepCodyMoreSpec.
